(** * Generalized suffix tree (suffixtree.h): model and verification

    A shallow embedding of [SuffixTree<S, C>] with its nested classes
    [mapped_substring], [transition], [Node], [SinkNode], [Leaf] and [Base].

    Conventions of the embedding.
    - [C] is the default [int]; symbols and all [int] values are [Z].  The
      arithmetic of the source adds and subtracts string positions, lengths
      and the id counter, and leaves the [int] range only for strings or id
      counts of about [2^31] symbols, where C++ leaves the behaviour
      undefined; the model is about executions inside the range and does
      not bound [Z].  [INT_MAX] is the reserved "open end" of a leaf edge.
    - [S] is a [std::basic_string]: [w[i]] is defined for [0 <= i <= length],
      and yields the null symbol at [i = length]; any other index is
      undefined behaviour.
    - Nodes live in a store indexed by addresses.  [tree.sink] and
      [tree.root] are members of [Base] and have the fixed addresses
      [0] and [1]; [new] returns the next unused address.  [nullptr] is [None].
    - Undefined behaviour of the C++ program (null or dangling dereference,
      dereferencing [haystack.end()], string index out of range) is the
      result [UB]; a loop that has not finished when the fuel is exhausted
      is [Timeout].
    - The members [end_token] and [borderpath_map] are left out: no function
      of the class reads or writes them. *)

From Stdlib Require Import ZArith Lia List String Ascii.
From stdpp Require Import gmap list.

Local Open Scope Z_scope.

(** ** Results of the partial computations *)

Inductive res (A : Type) : Type :=
  | Ok (a : A)
  | UB
  | Timeout.
Arguments Ok {A} a.
Arguments UB {A}.
Arguments Timeout {A}.

Global Instance res_ret : MRet res := fun A a => Ok a.
Global Instance res_bind : MBind res := fun A B k m =>
  match m with
  | Ok a => k a
  | UB => UB
  | Timeout => Timeout
  end.

(** ** Data model *)

Definition INT_MAX : Z := 2147483647.

Definition ptr := option nat.
Definition sink_addr : nat := 0.
Definition root_addr : nat := 1.
Definition sink : ptr := Some sink_addr.
Definition root : ptr := Some root_addr.

Record mapped_substring := MappedSubstring {
  ref_str : Z;
  l : Z;
  r : Z
}.

Record transition := Transition {
  sub : mapped_substring;
  tgt : ptr
}.

(** The dynamic type of a node object, which selects the override of
    [find_alpha_transition]. *)
Inductive node_class := IsNode | IsSinkNode | IsLeaf.

Record Node := MkNode {
  cls : node_class;
  g : gmap Z transition;
  suffix_link : ptr
}.

Definition reference_point : Type := ptr * (Z * Z).

Record SuffixTree := MkTree {
  store : gmap nat Node;      (* the node objects, by address *)
  brk : nat;                  (* the next address [new] hands out *)
  haystack : gmap Z (list Z);
  last_index : Z
}.

Global Instance node_class_eq_dec : EqDecision node_class.
Proof. solve_decision. Defined.
Global Instance mapped_substring_eq_dec : EqDecision mapped_substring.
Proof. solve_decision. Defined.
Global Instance transition_eq_dec : EqDecision transition.
Proof. solve_decision. Defined.

(** [Base()] wires the two permanent nodes; [SuffixTree()] sets
    [last_index] to 0. *)
Definition empty_tree : SuffixTree :=
  {| store := <[root_addr := MkNode IsNode ∅ sink]>
                (<[sink_addr := MkNode IsSinkNode ∅ root]> ∅);
     brk := 2%nat;
     haystack := ∅;
     last_index := 0 |}.

(** ** Primitive accesses *)

(** [w[i]] on a [std::basic_string]. *)
Definition at_ (w : list Z) (i : Z) : res Z :=
  if i <? 0 then UB
  else match w !! Z.to_nat i with
       | Some c => Ok c
       | None => if i =? Z.of_nat (length w) then Ok 0 else UB
       end.

(** [p->...] *)
Definition deref (st : SuffixTree) (p : ptr) : res Node :=
  match p with
  | None => UB
  | Some a => match store st !! a with
              | Some nd => Ok nd
              | None => UB
              end
  end.

(** [haystack.find(id)->second] *)
Definition hay (st : SuffixTree) (id : Z) : res (list Z) :=
  match haystack st !! id with
  | Some w => Ok w
  | None => UB
  end.

Definition set_node (st : SuffixTree) (a : nat) (nd : Node) : SuffixTree :=
  {| store := <[a := nd]> (store st); brk := brk st;
     haystack := haystack st; last_index := last_index st |}.

(** [new T()] for a node class [T]: a fresh object with no transition and a
    null suffix link. *)
Definition new_node (st : SuffixTree) (c : node_class) : SuffixTree * nat :=
  ({| store := <[brk st := MkNode c ∅ None]> (store st); brk := S (brk st);
      haystack := haystack st; last_index := last_index st |}, brk st).

(** [std::unordered_map::insert]: no effect when the key is present. *)
Definition map_insert_new {V} (k : Z) (v : V) (m : gmap Z V) : gmap Z V :=
  match m !! k with
  | Some _ => m
  | None => <[k := v]> m
  end.

(** [Node::find_alpha_transition] and its override in [SinkNode]. *)
Definition find_alpha_transition (nd : Node) (alpha : Z) : transition :=
  match cls nd with
  | IsSinkNode => Transition (MappedSubstring 0 0 0) (suffix_link nd)
  | _ => match g nd !! alpha with
         | None => Transition (MappedSubstring 0 0 (-1)) None
         | Some t => t
         end
  end.

(** ** Assignments through a node pointer *)

(** [p->suffix_link = q] *)
Definition set_suffix_link (st : SuffixTree) (p q : ptr) : res SuffixTree :=
  nd ← deref st p;
  match p with
  | None => UB
  | Some a => Ok (set_node st a (MkNode (cls nd) (g nd) q))
  end.

(** [if (&tree.root != oldr) oldr->suffix_link = q;] *)
Definition link_unless_root (st : SuffixTree) (oldr q : ptr) : res SuffixTree :=
  if bool_decide (root <> oldr) then set_suffix_link st oldr q else Ok st.

(** [p->g.insert(pair(c, t))] *)
Definition add_transition (st : SuffixTree) (p : ptr) (c : Z) (t : transition)
    : res SuffixTree :=
  nd ← deref st p;
  match p with
  | None => UB
  | Some a =>
      Ok (set_node st a (MkNode (cls nd) (map_insert_new c t (g nd))
                                (suffix_link nd)))
  end.

(** [p->g[c] = t] *)
Definition put_transition (st : SuffixTree) (p : ptr) (c : Z) (t : transition)
    : res SuffixTree :=
  nd ← deref st p;
  match p with
  | None => UB
  | Some a =>
      Ok (set_node st a (MkNode (cls nd) (<[c := t]> (g nd)) (suffix_link nd)))
  end.

(** ** test_and_split *)

Definition test_and_split (st : SuffixTree) (n : ptr) (kp : mapped_substring)
    (t : Z) (w : list Z) : res (SuffixTree * bool * ptr) :=
  tk ← at_ w (l kp);
  let delta := r kp - l kp in
  if 0 <=? delta then
    nd ← deref st n;
    let tk_trans := find_alpha_transition nd tk in
    let kp_prime := sub tk_trans in
    str_prime ← hay st (ref_str kp_prime);
    c ← at_ str_prime (l kp_prime + delta + 1);
    if c =? t then Ok (st, true, n)
    else
      let '(st1, ra) := new_node st IsNode in
      let new_t := Transition (MappedSubstring (ref_str kp_prime)
                                 (l kp_prime + (delta + 1)) (r kp_prime))
                              (tgt tk_trans) in
      c' ← at_ str_prime (l (sub new_t));
      st2 ← add_transition st1 (Some ra) c' new_t;
      let tk_trans' := Transition (MappedSubstring (ref_str kp_prime)
                                     (l kp_prime) (l kp_prime + delta))
                                  (Some ra) in
      st3 ← put_transition st2 n tk tk_trans';
      Ok (st3, false, Some ra)
  else
    nd ← deref st n;
    let t_transition := find_alpha_transition nd t in
    Ok (st, bool_decide (tgt t_transition <> None), n).

(** ** canonize *)

(** The loop of [canonize]; [tk_trans] is the transition looked up last.
    The source computes [kp.l += 1 + delta] on [int]s; here the sum is
    taken in [Z].  The loop body runs only if [delta <= kp.r - kp.l], so
    for [0 <= delta] the sum is at most [kp.r + 1]: the two agree whenever
    [kp.r < INT_MAX], and the theorems that give a result of [canonize]
    assume this bound ([update] and [deploy_suffixes] call it with a
    position of a string as [kp.r]).  For [kp.r = INT_MAX] the sum can leave
    the [int] range, which is undefined behaviour in the source: a result
    of the model with a position above [INT_MAX] stands for no result of
    the source. *)
Fixpoint canonize_loop (fuel : nat) (st : SuffixTree) (w : list Z)
    (s : ptr) (kp : mapped_substring) (tk_trans : transition)
    : res reference_point :=
  let delta := r (sub tk_trans) - l (sub tk_trans) in
  if delta <=? r kp - l kp then
    match fuel with
    | O => Timeout
    | S fuel' =>
        let kp' := MappedSubstring (ref_str kp) (l kp + (1 + delta)) (r kp) in
        let s' := tgt tk_trans in
        if l kp' <=? r kp' then
          c ← at_ w (l kp');
          nd ← deref st s';
          canonize_loop fuel' st w s' kp' (find_alpha_transition nd c)
        else canonize_loop fuel' st w s' kp' tk_trans
    end
  else Ok (s, (ref_str kp, l kp)).

Definition canonize (fuel : nat) (st : SuffixTree) (s : ptr)
    (kp : mapped_substring) : res reference_point :=
  if r kp <? l kp then Ok (s, (ref_str kp, l kp))
  else
    w ← hay st (ref_str kp);
    c ← at_ w (l kp);
    nd ← deref st s;
    canonize_loop fuel st w s kp (find_alpha_transition nd c).

(** ** update *)

(** The [while (!is_endpoint)] loop of [update] together with the statements
    after it.  [ki1] carries [ki.ref_str], the current [ki.l] and [ki.r - 1];
    [ki_r] is [ki.r] and [c] is [w[ki.r]], which the loop does not change. *)
Fixpoint update_loop (fuel : nat) (st : SuffixTree) (w : list Z) (c : Z)
    (ki_r : Z) (oldr : ptr) (r_ : ptr) (is_endpoint : bool)
    (sk : reference_point) (ki1 : mapped_substring)
    : res (SuffixTree * reference_point) :=
  if is_endpoint then
    st' ← link_unless_root st oldr (fst sk);
    Ok (st', sk)
  else
    match fuel with
    | O => Timeout
    | S fuel' =>
        let '(st1, r_prime) := new_node st IsLeaf in
        st2 ← add_transition st1 r_ c
                (Transition (MappedSubstring (ref_str ki1) ki_r INT_MAX)
                            (Some r_prime));
        st3 ← link_unless_root st2 oldr r_;
        let oldr' := r_ in
        sn ← deref st3 (fst sk);
        sk' ← canonize fuel' st3 (suffix_link sn) ki1;
        let ki1' := MappedSubstring (ref_str ki1) (snd (snd sk')) (r ki1) in
        '(st4, ep, r') ← test_and_split st3 (fst sk') ki1' c w;
        update_loop fuel' st4 w c ki_r oldr' r' ep sk' ki1'
    end.

Definition update (fuel : nat) (st : SuffixTree) (s : ptr)
    (ki : mapped_substring) : res (SuffixTree * reference_point) :=
  w ← hay st (ref_str ki);
  let sk : reference_point := (s, (ref_str ki, l ki)) in
  let ki1 := MappedSubstring (ref_str ki) (l ki) (r ki - 1) in
  c ← at_ w (r ki);
  '(st1, ep, r_) ← test_and_split st s ki1 c w;
  update_loop fuel st1 w c (r ki) root r_ ep sk ki1.

(** ** get_starting_node *)

(** Outcome of the inner [for] loop over one transition. *)
Inductive edge_scan :=
  | ScanRunout                (* [s_runout = true; break] *)
  | ScanMismatch (i : Z)      (* the [return k+i] *)
  | ScanDone (i : Z).         (* the loop condition failed at [i] *)

Fixpoint scan_edge (fuel : nat) (st : SuffixTree) (s : list Z) (k : Z)
    (t : transition) (i : Z) : res edge_scan :=
  if i <=? r (sub t) - l (sub t) then
    match fuel with
    | O => Timeout
    | S fuel' =>
        if Z.of_nat (length s) <=? k + i then Ok ScanRunout
        else
          a ← at_ s (k + i);
          ref ← hay st (ref_str (sub t));
          b ← at_ ref (l (sub t) + i);
          if bool_decide (a <> b) then Ok (ScanMismatch i)
          else scan_edge fuel' st s k t (i + 1)
    end
  else Ok (ScanDone i).

(** The [while (!s_runout)] loop.  The in/out parameter [*r] is the pair
    ([node], ([rid], [rk])); the result is the returned [int] and the final
    [*r]. *)
Fixpoint get_starting_node_loop (fuel : nat) (st : SuffixTree) (s : list Z)
    (node : ptr) (rid rk : Z) (k : Z) : res (Z * reference_point) :=
  match fuel with
  | O => Timeout
  | S fuel' =>
      a ← at_ s k;
      nd ← deref st node;
      let t := find_alpha_transition nd a in
      if bool_decide (tgt t <> None) then
        sc ← scan_edge fuel' st s k t 1;
        match sc with
        | ScanRunout => Ok (INT_MAX, (node, (rid, INT_MAX)))
        | ScanMismatch i => Ok (k + i, (node, (rid, k)))
        | ScanDone i =>
            get_starting_node_loop fuel' st s (tgt t) rid rk (k + i)
        end
      else Ok (k, (node, (rid, rk)))
  end.

Definition get_starting_node (fuel : nat) (st : SuffixTree) (s : list Z)
    (r_ : reference_point) : res (Z * reference_point) :=
  get_starting_node_loop fuel st s (fst r_) (fst (snd r_)) (snd (snd r_))
    (snd (snd r_)).

(** ** deploy_suffixes *)

Fixpoint deploy_loop (fuel : nat) (st : SuffixTree) (s : list Z) (sindex : Z)
    (i : Z) (active_point : reference_point) : res SuffixTree :=
  if i <? Z.of_nat (length s) then
    match fuel with
    | O => Timeout
    | S fuel' =>
        let ki := MappedSubstring sindex (snd (snd active_point)) i in
        '(st1, ap1) ← update fuel' st (fst active_point) ki;
        let ki' := MappedSubstring sindex (snd (snd ap1)) i in
        ap2 ← canonize fuel' st1 (fst ap1) ki';
        deploy_loop fuel' st1 s sindex (i + 1) ap2
    end
  else Ok st.

Definition deploy_suffixes (fuel : nat) (st : SuffixTree) (s : list Z)
    (sindex : Z) : res (SuffixTree * Z) :=
  '(i, active_point) ← get_starting_node fuel st s (root, (sindex, 0));
  if INT_MAX =? i then Ok (st, -1)
  else
    st' ← deploy_loop fuel st s sindex i active_point;
    Ok (st', sindex).

(** ** addString *)

Definition addString (fuel : nat) (st : SuffixTree) (new_string : list Z)
    : res (SuffixTree * Z) :=
  let st1 := {| store := store st; brk := brk st;
                haystack := map_insert_new (last_index st + 1) new_string
                              (haystack st);
                last_index := last_index st + 1 |} in
  '(st2, d) ← deploy_suffixes fuel st1 new_string (last_index st1);
  if d <? 0 then
    Ok ({| store := store st2; brk := brk st2;
           haystack := delete (last_index st2) (haystack st2);
           last_index := last_index st2 - 1 |}, -1)
  else Ok (st2, last_index st2).

(** ** Base::clean *)

(** The order in which [for (auto it : current->g)] visits an
    [unordered_map] is unspecified: [iter] stands for it, and may be any
    enumeration of the map. *)
Definition enumerates (iter : gmap Z transition → list (Z * transition))
    : Prop :=
  ∀ m, iter m ≡ₚ map_to_list m.

(** The loop of [clean]: [del_list] is the worklist.  The result is the
    store that remains and the addresses passed to [delete], in order. *)
Fixpoint clean_loop (iter : gmap Z transition → list (Z * transition))
    (fuel : nat) (h : gmap nat Node) (del_list : list ptr)
    (freed : list nat) : res (gmap nat Node * list nat) :=
  match del_list with
  | [] => Ok (h, freed)
  | current :: rest =>
      match fuel with
      | O => Timeout
      | S fuel' =>
          match current with
          | None => UB
          | Some a =>
              match h !! a with
              | None => UB
              | Some nd =>
                  let del_list' :=
                    rest ++ map (fun it => tgt (snd it)) (iter (g nd)) in
                  if bool_decide (root <> current)
                  then clean_loop iter fuel' (delete a h) del_list'
                         (freed ++ [a])
                  else clean_loop iter fuel' h del_list' freed
              end
          end
      end
  end.

Definition clean (iter : gmap Z transition → list (Z * transition))
    (fuel : nat) (st : SuffixTree) : res (gmap nat Node * list nat) :=
  clean_loop iter fuel (store st) [root] [].

(** ** Running a sequence of insertions *)

Fixpoint run (fuel : nat) (st : SuffixTree) (ws : list (list Z))
    : res (SuffixTree * list Z) :=
  match ws with
  | [] => Ok (st, [])
  | w :: ws' =>
      '(st1, id) ← addString fuel st w;
      '(st2, ids) ← run fuel st1 ws';
      Ok (st2, id :: ids)
  end.

(** Symbols of a string literal. *)
Definition str (s : string) : list Z :=
  map (fun a => Z.of_nat (nat_of_ascii a)) (list_ascii_of_string s).


(** * Specification vocabulary *)

(** ** Shape of the tree *)

(** [tedge h a c b]: node [a] stores, under the symbol [c], a transition
    whose target is [b]. *)
Definition tedge (h : gmap nat Node) (a : nat) (c : Z) (b : nat) : Prop :=
  ∃ nd t, h !! a = Some nd ∧ g nd !! c = Some t ∧ tgt t = Some b.

Definition child (h : gmap nat Node) (a b : nat) : Prop := ∃ c, tedge h a c b.

(** [b] is reachable from the root along stored transitions. *)
Definition reachable_node (h : gmap nat Node) (b : nat) : Prop :=
  rtc (child h) root_addr b.

(** The structural invariant that holds at every point of an insertion. *)
Record wf_core (st : SuffixTree) : Prop := WfCore {
  wf_sink : store st !! sink_addr = Some (MkNode IsSinkNode ∅ root);
  wf_root : ∃ nd, store st !! root_addr = Some nd ∧ cls nd = IsNode
                  ∧ suffix_link nd = sink;
  wf_brk : (2 ≤ brk st)%nat;
  wf_dom : ∀ a, is_Some (store st !! a) ↔ (a < brk st)%nat;
  wf_cls : ∀ a nd, store st !! a = Some nd → cls nd = IsSinkNode →
                   a = sink_addr;
  wf_nonnull : ∀ a nd c t, store st !! a = Some nd → g nd !! c = Some t →
                           tgt t ≠ None;
  wf_tgt : ∀ a c b, tedge (store st) a c b → (2 ≤ b < brk st)%nat;
  wf_parent : ∀ a1 c1 a2 c2 b, tedge (store st) a1 c1 b →
                tedge (store st) a2 c2 b → a1 = a2 ∧ c1 = c2;
  wf_reach : ∀ b, (2 ≤ b < brk st)%nat → reachable_node (store st) b;
  wf_link : ∀ a nd q, store st !! a = Some nd → (2 ≤ a)%nat →
                      suffix_link nd = Some q → (1 ≤ q < brk st)%nat;
  wf_last : 0 ≤ last_index st;
  wf_hay : ∀ k w, haystack st !! k = Some w → 1 ≤ k ≤ last_index st
}.

(** Every node made by [new Node()] at address [a], except those in [ex],
    has a suffix link. *)
Definition linked_except (ex : list nat) (st : SuffixTree) : Prop :=
  ∀ a nd, store st !! a = Some nd → (2 ≤ a)%nat → cls nd = IsNode →
          a ∉ ex → suffix_link nd ≠ None.

Definition wf (st : SuffixTree) : Prop := wf_core st ∧ linked_except [] st.

(** The states a client can observe: the empty tree, and whatever a returning
    [addString] leaves behind. *)
Inductive reachable : SuffixTree → Prop :=
  | reachable_empty : reachable empty_tree
  | reachable_add st fuel w st' id :
      reachable st → addString fuel st w = Ok (st', id) → reachable st'.

(** ** Paths and their labels *)

(** The symbols a substring reference denotes in the registry; an open
    reference ends where its string ends. *)
Definition resolve (st : SuffixTree) (m : mapped_substring)
    : option (list Z) :=
  match haystack st !! ref_str m with
  | None => None
  | Some w =>
      let len := Z.of_nat (length w) in
      if l m <? 0 then None
      else Some (take (Z.to_nat (Z.min (r m - l m + 1) len))
                   (drop (Z.to_nat (Z.min (l m) len)) w))
  end.

(** [path_reads st n u]: some chain of stored transitions that starts at
    node [n] has labels whose concatenation begins with [u]; the word may
    stop inside the last transition. *)
Inductive path_reads (st : SuffixTree) : nat → list Z → Prop :=
  | path_nil n : path_reads st n []
  | path_inside n nd c t lab u :
      store st !! n = Some nd → g nd !! c = Some t →
      resolve st (sub t) = Some lab → u `prefix_of` lab →
      path_reads st n u
  | path_step n nd c t lab m u :
      store st !! n = Some nd → g nd !! c = Some t →
      resolve st (sub t) = Some lab → tgt t = Some m →
      path_reads st m u → path_reads st n (lab ++ u).

(** [path_exact st n u]: a chain of stored transitions that starts at node
    [n] has labels whose concatenation is exactly [u]. *)
Inductive path_exact (st : SuffixTree) : nat → list Z → Prop :=
  | exact_nil n : path_exact st n []
  | exact_step n nd c t lab m u :
      store st !! n = Some nd → g nd !! c = Some t →
      resolve st (sub t) = Some lab → tgt t = Some m →
      path_exact st m u → path_exact st n (lab ++ u).

(** ** Reference points *)

(** The node object behind a pointer. *)
Definition node_at (st : SuffixTree) (p : ptr) : option Node :=
  match p with
  | None => None
  | Some a => store st !! a
  end.

(** [descends st w i s k s' k']: starting from the reference point
    [(s, (k, i))], replace the node by the target of its transition for the
    symbol of [w] at the current position and move the position past the
    length of that transition, any number of times, each time only if the
    remaining substring [k..i] is at least as long as the transition; the
    result is [(s', (k', i))]. *)
Inductive descends (st : SuffixTree) (w : list Z) (i : Z)
    : ptr → Z → ptr → Z → Prop :=
  | descends_refl s k : descends st w i s k s k
  | descends_step s k nd c s' k' :
      node_at st s = Some nd → at_ w k = Ok c →
      r (sub (find_alpha_transition nd c))
        - l (sub (find_alpha_transition nd c)) + 1 ≤ i - k + 1 →
      descends st w i (tgt (find_alpha_transition nd c))
        (k + (r (sub (find_alpha_transition nd c))
              - l (sub (find_alpha_transition nd c)) + 1)) s' k' →
      descends st w i s k s' k'.

(** [along st w s k i]: the substring [k..i] of [w] lies along a path below
    [s]: as long as symbols remain, the node has a transition of positive
    length for the next symbol, and when the substring covers it the rest
    lies along a path below its target.  The difference [r - l] of the
    transition the substring ends in is an [int]; that of a transition the
    substring covers is at most [i - k]. *)
Inductive along (st : SuffixTree) (w : list Z) : ptr → Z → Z → Prop :=
  | along_empty s k i : i < k → along st w s k i
  | along_inside s k i nd c :
      k ≤ i → node_at st s = Some nd → at_ w k = Ok c →
      0 ≤ r (sub (find_alpha_transition nd c))
          - l (sub (find_alpha_transition nd c)) →
      r (sub (find_alpha_transition nd c))
        - l (sub (find_alpha_transition nd c)) ≤ INT_MAX →
      i - k < r (sub (find_alpha_transition nd c))
              - l (sub (find_alpha_transition nd c)) →
      along st w s k i
  | along_step s k i nd c :
      k ≤ i → node_at st s = Some nd → at_ w k = Ok c →
      0 ≤ r (sub (find_alpha_transition nd c))
          - l (sub (find_alpha_transition nd c)) →
      r (sub (find_alpha_transition nd c))
        - l (sub (find_alpha_transition nd c)) ≤ i - k →
      along st w (tgt (find_alpha_transition nd c))
        (k + (r (sub (find_alpha_transition nd c))
              - l (sub (find_alpha_transition nd c)) + 1)) i →
      along st w s k i.

(** A reference point [(s, (k, i))] is canonical. *)
Definition canonical (st : SuffixTree) (w : list Z) (s : ptr) (k i : Z)
    : Prop :=
  i < k ∨
  ∃ nd c, node_at st s = Some nd ∧ at_ w k = Ok c ∧
          i - k + 1 < r (sub (find_alpha_transition nd c))
                      - l (sub (find_alpha_transition nd c)) + 1.

(** A node has a transition for a symbol: stored in its map, or made up by
    the sink. *)
Definition has_transition (nd : Node) (t : Z) : Prop :=
  match cls nd with
  | IsSinkNode => True
  | _ => is_Some (g nd !! t)
  end.

(** ** The two mutations of the tree, as state transformers *)

(** The state after [new Leaf()] and the insertion, into the map of node
    [ra] (whose object is [nd]), of a transition to the new leaf under the
    symbol [c]. *)
Definition attach_leaf (st : SuffixTree) (ra : nat) (nd : Node) (c : Z)
    (ms : mapped_substring) : SuffixTree :=
  {| store := <[ra := MkNode (cls nd)
                         (<[c := Transition ms (Some (brk st))]> (g nd))
                         (suffix_link nd)]>
                (<[brk st := MkNode IsLeaf ∅ None]> (store st));
     brk := S (brk st);
     haystack := haystack st;
     last_index := last_index st |}.

(** The state after the transition [tr] that node [na] (whose object is
    [nd]) stores under [tk] has been split after [delta + 1] symbols: the
    new node is at address [brk st] and keeps the tail of [tr] under the
    symbol [c]. *)
Definition split_edge (st : SuffixTree) (na : nat) (nd : Node) (tk : Z)
    (tr : transition) (delta : Z) (c : Z) : SuffixTree :=
  {| store :=
       <[na := MkNode (cls nd)
                 (<[tk := Transition
                            (MappedSubstring (ref_str (sub tr)) (l (sub tr))
                               (l (sub tr) + delta))
                            (Some (brk st))]> (g nd))
                 (suffix_link nd)]>
         (<[brk st := MkNode IsNode
                        (<[c := Transition
                                  (MappedSubstring (ref_str (sub tr))
                                     (l (sub tr) + (delta + 1)) (r (sub tr)))
                                  (tgt tr)]> ∅)
                        None]> (store st));
     brk := S (brk st);
     haystack := haystack st;
     last_index := last_index st |}.

(** A pointer that is null or the address of a node other than the sink. *)
Definition null_or_inner (st : SuffixTree) (p : ptr) : Prop :=
  match p with
  | None => True
  | Some m => (1 ≤ m < brk st)%nat
  end.

(** ** Observations used in the statements *)

(** The ids returned by the insertions that succeeded. *)
Definition successes (ids : list Z) : list Z :=
  filter (λ id, 0 < id) ids.

(** The tree built by inserting [ws], in order, into the empty tree. *)
Definition tree_after (ws : list (list Z)) : SuffixTree :=
  match run 64 empty_tree ws with
  | Ok (st, _) => st
  | _ => empty_tree
  end.

(** [tree.sink.find_alpha_transition(alpha)] *)
Definition sink_lookup (st : SuffixTree) (alpha : Z) : res transition :=
  nd ← deref st sink;
  Ok (find_alpha_transition nd alpha).

(** The convention of [mapped_substring]: a reference with [r < l] denotes
    the empty substring. *)
Definition is_empty_substring (m : mapped_substring) : Prop := r m < l m.

(** The values returned by inserting [ws], in order, into the empty tree. *)
Definition ids_after (ws : list (list Z)) : option (list Z) :=
  match run 64 empty_tree ws with
  | Ok (_, ids) => Some ids
  | _ => None
  end.

(** Neither word is a prefix of the other. *)
Definition diverge (u v : list Z) : bool :=
  negb (bool_decide (u `prefix_of` v)) && negb (bool_decide (v `prefix_of` u)).

(** No transition stored in [nd] has a label that [u] could follow, not
    even for a part of it. *)
Definition no_way (st : SuffixTree) (nd : Node) (u : list Z) : bool :=
  forallb (λ it : Z * transition,
             match resolve st (sub it.2) with
             | Some lab => diverge u lab
             | None => true
             end)
          (map_to_list (g nd)).

(** ** The state of the loop of [update] *)

(** What holds each time the loop condition of [update] is evaluated:
    [o] is [oldr], [r_] the node returned by the last [test_and_split],
    [ep] its result, [sk] the reference point it was called on and [ki1]
    the substring; [c] is the symbol being deployed. *)
Definition loop_inv (st : SuffixTree) (c : Z) (o : nat) (r_ : ptr) (ep : bool)
    (sk : reference_point) (ki1 : mapped_substring) : Prop :=
  wf_core st
  ∧ (o = root_addr ∨ (2 ≤ o < brk st)%nat)
  ∧ ∃ sa, fst sk = Some sa ∧ (sa < brk st)%nat
          ∧ (sa = sink_addr → o = root_addr)
          ∧ if ep then linked_except [o] st
            else ∃ ra nd, r_ = Some ra ∧ (1 ≤ ra < brk st)%nat
                   ∧ store st !! ra = Some nd ∧ g nd !! c = None
                   ∧ (r ki1 < l ki1 → ra = sa)
                   ∧ linked_except [o; ra] st.

(** ** Labels *)

(** Every stored transition refers to a registered string, and the symbol
    it is stored under is the symbol of that string at the left end of the
    reference. *)
Definition labelled (st : SuffixTree) : Prop :=
  ∀ a nd c t, store st !! a = Some nd → g nd !! c = Some t →
    ∃ w, haystack st !! ref_str (sub t) = Some w ∧ at_ w (l (sub t)) = Ok c.

(** No stored transition has a reference with [r < l]. *)
Definition no_empty_transition (st : SuffixTree) : Prop :=
  ∀ a nd c t, store st !! a = Some nd → g nd !! c = Some t →
    l (sub t) ≤ r (sub t).

(** [path_to st n u m]: a chain of stored transitions from node [n] to node
    [m] whose labels concatenate to [u]. *)
Inductive path_to (st : SuffixTree) : nat → list Z → nat → Prop :=
  | path_to_refl n : path_to st n [] n
  | path_to_step n nd c t lab m u m' :
      store st !! n = Some nd → g nd !! c = Some t →
      resolve st (sub t) = Some lab → tgt t = Some m →
      path_to st m u m' → path_to st n (lab ++ u) m'.

(** [grown_from st st']: nothing of [st] is lost in [st'].  No address is
    given back; every node object of [st] is still there, with its class;
    every transition it had is still stored under the same symbol and
    still starts at the same position of the same string; and a suffix
    link that was set is still set. *)
Definition grown_from (st st' : SuffixTree) : Prop :=
  (brk st ≤ brk st')%nat
  ∧ ∀ a nd, store st !! a = Some nd →
      ∃ nd', store st' !! a = Some nd' ∧ cls nd' = cls nd
             ∧ (∀ c t, g nd !! c = Some t →
                  ∃ t', g nd' !! c = Some t'
                        ∧ ref_str (sub t') = ref_str (sub t)
                        ∧ l (sub t') = l (sub t))
             ∧ (is_Some (suffix_link nd) → is_Some (suffix_link nd')).

(** Some stored transition has a reference with [r < l]. *)
Definition has_empty_transition (st : SuffixTree) : Prop :=
  ∃ a nd c t, store st !! a = Some nd ∧ g nd !! c = Some t
              ∧ r (sub t) < l (sub t).

(** Every transition of [st] is stored unchanged in [st']. *)
Definition transitions_kept (st st' : SuffixTree) : Prop :=
  ∀ a nd c t, store st !! a = Some nd → g nd !! c = Some t →
    ∃ nd', store st' !! a = Some nd' ∧ g nd' !! c = Some t.

(** Every word that is read from a node of [st] is read from the same node
    of [st']. *)
Definition reads_kept (st st' : SuffixTree) : Prop :=
  ∀ n u, path_reads st n u → path_reads st' n u.

(** The first [n] symbols of [s] from position [k] are the symbols of [wr]
    from position [p], all inside the two strings. *)
Definition matched (s : list Z) (k : Z) (wr : list Z) (p : Z) (n : nat)
    : Prop :=
  ∀ j, (j < n)%nat →
    ∃ x, s !! Z.to_nat (k + Z.of_nat j) = Some x
         ∧ wr !! Z.to_nat (p + Z.of_nat j) = Some x.

(** * Proof tools *)

Lemma bind_Ok {A B} (m : res A) (k : A → res B) (b : B) :
  (m ≫= k) = Ok b → ∃ a, m = Ok a ∧ k a = Ok b.
Proof. destruct m; simpl; intros; eauto; discriminate. Qed.

Lemma bind_Ok_l {A B} (a : A) (k : A → res B) : (Ok a ≫= k) = k a.
Proof. reflexivity. Qed.

Ltac inv_bind H :=
  let a := fresh "x" in
  let Ha := fresh "E" in
  apply bind_Ok in H; destruct H as (a & Ha & H).

Lemma deref_Ok st p nd :
  deref st p = Ok nd ↔ ∃ a, p = Some a ∧ store st !! a = Some nd.
Proof.
  unfold deref. split.
  - destruct p as [a|]; [|discriminate].
    destruct (store st !! a) eqn:E; [|discriminate].
    intros [= <-]. eauto.
  - intros (a & -> & ->). reflexivity.
Qed.

Lemma deref_Some st a nd : store st !! a = Some nd → deref st (Some a) = Ok nd.
Proof. intros H. apply deref_Ok. eauto. Qed.

Lemma hay_Ok st id w : hay st id = Ok w ↔ haystack st !! id = Some w.
Proof.
  unfold hay. destruct (haystack st !! id); split; congruence.
Qed.

Lemma find_sink nd alpha :
  cls nd = IsSinkNode →
  find_alpha_transition nd alpha
  = Transition (MappedSubstring 0 0 0) (suffix_link nd).
Proof. unfold find_alpha_transition. intros ->. reflexivity. Qed.

Lemma find_stored nd alpha :
  cls nd ≠ IsSinkNode →
  find_alpha_transition nd alpha
  = match g nd !! alpha with
    | None => Transition (MappedSubstring 0 0 (-1)) None
    | Some t => t
    end.
Proof. unfold find_alpha_transition. destruct (cls nd); congruence. Qed.

(** In a well-formed tree the lookup yields a target exactly when the node
    has a transition for the symbol. *)
Lemma find_tgt_has_transition st a nd t :
  wf_core st → store st !! a = Some nd →
  tgt (find_alpha_transition nd t) ≠ None ↔ has_transition nd t.
Proof.
  intros W Ha. unfold has_transition.
  destruct (decide (cls nd = IsSinkNode)) as [Hs|Hs].
  - rewrite find_sink by done. rewrite Hs.
    pose proof (wf_cls _ W _ _ Ha Hs) as ->.
    rewrite (wf_sink _ W) in Ha. injection Ha as <-. simpl. done.
  - rewrite find_stored by done.
    assert (match cls nd with IsSinkNode => True | _ => is_Some (g nd !! t) end
            ↔ is_Some (g nd !! t)) as -> by (destruct (cls nd); tauto).
    destruct (g nd !! t) as [tr|] eqn:E; simpl.
    + split; [eauto|]. intros _. eapply wf_nonnull; eauto.
    + split; [congruence|]. intros [? ?]; discriminate.
Qed.

(** * Shape lemmas *)

Lemma tedge_insert h a nd' x c b :
  tedge (<[a:=nd']> h) x c b ↔
  (x = a ∧ ∃ t, g nd' !! c = Some t ∧ tgt t = Some b) ∨ (x ≠ a ∧ tedge h x c b).
Proof.
  unfold tedge. split.
  - intros (nd & t & Hx & Hc & Ht).
    destruct (decide (x = a)) as [->|Hne].
    + rewrite lookup_insert_eq in Hx. injection Hx as <-. left. eauto.
    + rewrite lookup_insert_ne in Hx by done. right. eauto 10.
  - intros [(-> & t & Hc & Ht)|(Hne & nd & t & Hx & Hc & Ht)].
    + exists nd', t. rewrite lookup_insert_eq. done.
    + exists nd, t. rewrite lookup_insert_ne by done. done.
Qed.

Lemma tedge_live h a c b : tedge h a c b → is_Some (h !! a).
Proof. intros (nd & t & Hx & _). eauto. Qed.

Lemma reach_mono h h' :
  (∀ a b, child h a b → rtc (child h') a b) →
  ∀ b, reachable_node h b → reachable_node h' b.
Proof.
  intros Hstep b Hb. unfold reachable_node in *.
  induction Hb as [|x y z Hxy _ IH]; [constructor|].
  etrans; [apply Hstep; eassumption|exact IH].
Qed.

(** The root and every allocated node is reachable; the sink is not a
    target. *)
Lemma wf_live st a c b :
  wf_core st → tedge (store st) a c b → (a < brk st)%nat.
Proof. intros W H. apply (wf_dom _ W). eapply tedge_live; eauto. Qed.

Lemma wf_sink_no_edge st c b : wf_core st → ¬ tedge (store st) sink_addr c b.
Proof.
  intros W (nd & t & Hx & Hc & _). rewrite (wf_sink _ W) in Hx.
  injection Hx as <-. simpl in Hc. rewrite lookup_empty in Hc. discriminate.
Qed.

(** ** [p->suffix_link = q] keeps the shape *)

Lemma set_link_wf st a nd m :
  wf_core st → store st !! a = Some nd → (2 ≤ a)%nat →
  (1 ≤ m < brk st)%nat →
  wf_core (set_node st a (MkNode (cls nd) (g nd) (Some m))).
Proof.
  intros W Ha Ha2 Hm.
  assert (Hedge : ∀ x c b,
    tedge (store (set_node st a (MkNode (cls nd) (g nd) (Some m)))) x c b
    ↔ tedge (store st) x c b).
  { intros x c b. simpl. rewrite tedge_insert. simpl. split.
    - intros [(-> & t & Hc & Ht)|(_ & H)]; [|done]. exists nd, t. done.
    - intros H. destruct (decide (x = a)) as [->|Hne]; [left|right; done].
      destruct H as (nd0 & t & Hx & Hc & Ht). split; [done|].
      rewrite Ha in Hx. injection Hx as <-. eauto. }
  constructor; simpl.
  - rewrite lookup_insert_ne by (unfold sink_addr; lia). apply (wf_sink _ W).
  - rewrite lookup_insert_ne by (unfold root_addr; lia). apply (wf_root _ W).
  - apply (wf_brk _ W).
  - intros x. destruct (decide (a = x)) as [<-|Hne].
    + rewrite lookup_insert_eq. split; [|eauto]. intros _.
      apply (wf_dom _ W). eauto.
    + rewrite lookup_insert_ne by done. apply (wf_dom _ W).
  - intros x ndx. destruct (decide (a = x)) as [<-|Hne].
    + rewrite lookup_insert_eq. intros [= <-]. simpl. intros Hc.
      apply (wf_cls _ W _ _ Ha Hc).
    + rewrite lookup_insert_ne by done. apply (wf_cls _ W).
  - intros x ndx c t. destruct (decide (a = x)) as [<-|Hne].
    + rewrite lookup_insert_eq. intros [= <-]. simpl.
      apply (wf_nonnull _ W _ _ _ _ Ha).
    + rewrite lookup_insert_ne by done. apply (wf_nonnull _ W).
  - intros x c b H. apply Hedge in H. apply (wf_tgt _ W _ _ _ H).
  - intros a1 c1 a2 c2 b H1 H2. apply Hedge in H1, H2.
    apply (wf_parent _ W _ _ _ _ _ H1 H2).
  - intros b Hb. apply (reach_mono (store st)); [|apply (wf_reach _ W _ Hb)].
    intros x y [c H]. apply rtc_once. exists c.
    apply (Hedge x c y). exact H.
  - intros x ndx q. destruct (decide (a = x)) as [<-|Hne].
    + rewrite lookup_insert_eq. intros [= <-] _. simpl. intros [= <-]. done.
    + rewrite lookup_insert_ne by done. apply (wf_link _ W).
  - apply (wf_last _ W).
  - apply (wf_hay _ W).
Qed.

Lemma set_link_linked st a nd m ex :
  linked_except ex st → store st !! a = Some nd →
  linked_except (filter (λ x, x ≠ a) ex)
    (set_node st a (MkNode (cls nd) (g nd) (Some m))).
Proof.
  intros L Ha x ndx. simpl. destruct (decide (a = x)) as [<-|Hne].
  - rewrite lookup_insert_eq. intros [= <-]. simpl. done.
  - rewrite lookup_insert_ne by done. intros Hx H2 Hc Hex.
    apply (L x ndx Hx H2 Hc). intros Hin. apply Hex.
    apply list_elem_of_filter. split; [congruence|done].
Qed.

(** ** Attaching a leaf keeps the shape *)

Lemma attach_leaf_tedge st ra nd c ms x k b :
  wf_core st → store st !! ra = Some nd → g nd !! c = None →
  tedge (store (attach_leaf st ra nd c ms)) x k b ↔
  (x = ra ∧ k = c ∧ b = brk st) ∨ tedge (store st) x k b.
Proof.
  intros W Ha Hc. simpl. rewrite !tedge_insert. simpl.
  assert (Hra : (ra < brk st)%nat) by (apply (wf_dom _ W); eauto).
  split.
  - intros [(-> & t & Hk & Ht)|(Hne & [(-> & t & Hk & _)|(_ & H)])].
    + destruct (decide (c = k)) as [<-|Hck].
      * rewrite lookup_insert_eq in Hk. injection Hk as <-.
        simpl in Ht. injection Ht as <-. left. done.
      * rewrite lookup_insert_ne in Hk by done. right. exists nd, t. done.
    + rewrite lookup_empty in Hk. discriminate.
    + right. done.
  - intros [(-> & -> & ->)|H].
    + left. split; [done|]. eexists. rewrite lookup_insert_eq. done.
    + destruct (decide (x = ra)) as [->|Hne].
      * left. split; [done|]. destruct H as (nd0 & t & Hx & Hk & Ht).
        rewrite Ha in Hx. injection Hx as <-. exists t. split; [|done].
        rewrite lookup_insert_ne; [done|]. intros <-. congruence.
      * right. split; [done|]. right. split; [|done].
        pose proof (wf_live _ _ _ _ W H). lia.
Qed.

Lemma attach_leaf_lookup st ra nd c ms a :
  store st !! ra = Some nd → (ra < brk st)%nat →
  store (attach_leaf st ra nd c ms) !! a
  = if decide (a = ra)
    then Some (MkNode (cls nd) (<[c := Transition ms (Some (brk st))]> (g nd))
                      (suffix_link nd))
    else if decide (a = brk st) then Some (MkNode IsLeaf ∅ None)
    else store st !! a.
Proof.
  intros Ha Hlt. simpl. destruct (decide (a = ra)) as [->|Hne].
  - by rewrite lookup_insert_eq.
  - rewrite lookup_insert_ne by done. destruct (decide (a = brk st)) as [->|Hne2].
    + by rewrite lookup_insert_eq.
    + by rewrite lookup_insert_ne.
Qed.

Lemma attach_leaf_wf st ra nd c ms :
  wf_core st → store st !! ra = Some nd → ra ≠ sink_addr →
  g nd !! c = None →
  wf_core (attach_leaf st ra nd c ms).
Proof.
  intros W Ha Hra0 Hc.
  assert (Hra : (ra < brk st)%nat) by (apply (wf_dom _ W); eauto).
  pose proof (wf_brk _ W) as Hbrk.
  pose proof (attach_leaf_tedge st ra nd c ms) as Hedge.
  pose proof (attach_leaf_lookup st ra nd c ms) as Hlk.
  constructor.
  - rewrite Hlk by done. rewrite decide_False by done.
    rewrite decide_False by (unfold sink_addr; lia). apply (wf_sink _ W).
  - rewrite Hlk by done. destruct (wf_root _ W) as (rn & Hr & Hrc & Hrl).
    destruct (decide (root_addr = ra)) as [<-|Hne].
    + rewrite Ha in Hr. injection Hr as <-. eexists. split; [done|]. done.
    + rewrite decide_False by (unfold root_addr; lia). eauto.
  - simpl. lia.
  - intros a. rewrite Hlk by done. simpl. repeat case_decide; subst.
    + split; [lia|eauto].
    + split; [lia|eauto].
    + rewrite (wf_dom _ W). lia.
  - intros a nda. rewrite Hlk by done. repeat case_decide; subst.
    + intros [= <-]. simpl. apply (wf_cls _ W _ _ Ha).
    + intros [= <-]. simpl. discriminate.
    + apply (wf_cls _ W).
  - intros a nda k t. rewrite Hlk by done. repeat case_decide; subst.
    + intros [= <-]. simpl. destruct (decide (c = k)) as [<-|Hck].
      * rewrite lookup_insert_eq. intros [= <-]. simpl. done.
      * rewrite lookup_insert_ne by done. apply (wf_nonnull _ W _ _ _ _ Ha).
    + intros [= <-]. simpl. rewrite lookup_empty. discriminate.
    + apply (wf_nonnull _ W).
  - intros a k b H. apply Hedge in H; try done. simpl.
    destruct H as [(-> & -> & ->)|H]; [lia|].
    pose proof (wf_tgt _ W _ _ _ H). lia.
  - intros a1 c1 a2 c2 b H1 H2. apply Hedge in H1, H2; try done.
    destruct H1 as [(-> & -> & ->)|H1], H2 as [(-> & -> & ?)|H2]; try done.
    + pose proof (wf_tgt _ W _ _ _ H2). lia.
    + pose proof (wf_tgt _ W _ _ _ H1). lia.
    + apply (wf_parent _ W _ _ _ _ _ H1 H2).
  - intros b Hb. simpl in Hb.
    assert (Hmono : ∀ y, reachable_node (store st) y →
                         reachable_node (store (attach_leaf st ra nd c ms)) y).
    { apply reach_mono. intros x y [k H]. apply rtc_once. exists k.
      apply Hedge; try done. right. done. }
    destruct (decide (b = brk st)) as [->|Hne].
    + apply (rtc_r _ ra).
      * destruct (decide (ra = root_addr)) as [->|Hr1]; [apply rtc_refl|].
        apply Hmono. apply (wf_reach _ W).
        unfold root_addr, sink_addr in *. lia.
      * exists c. apply Hedge; try done. left. done.
    + apply Hmono. apply (wf_reach _ W). lia.
  - intros a nda q. rewrite Hlk by done. simpl. repeat case_decide; subst.
    + intros [= <-] H2. simpl. intros Hq.
      pose proof (wf_link _ W _ _ _ Ha H2 Hq). lia.
    + intros [= <-]. simpl. discriminate.
    + intros Hx H2 Hq. pose proof (wf_link _ W _ _ _ Hx H2 Hq). lia.
  - apply (wf_last _ W).
  - apply (wf_hay _ W).
Qed.

Lemma attach_leaf_linked st ra nd c ms ex :
  linked_except ex st → store st !! ra = Some nd → (ra < brk st)%nat →
  linked_except ex (attach_leaf st ra nd c ms).
Proof.
  intros L Ha Hlt a nda. rewrite attach_leaf_lookup by done.
  repeat case_decide; subst.
  - intros [= <-]. simpl. apply (L _ _ Ha).
  - intros [= <-]. simpl. discriminate.
  - apply L.
Qed.

(** ** Splitting a transition keeps the shape *)

Lemma split_edge_lookup st na nd tk tr delta c a :
  (na < brk st)%nat →
  store (split_edge st na nd tk tr delta c) !! a
  = if decide (a = na)
    then Some (MkNode (cls nd)
                 (<[tk := Transition
                            (MappedSubstring (ref_str (sub tr)) (l (sub tr))
                               (l (sub tr) + delta))
                            (Some (brk st))]> (g nd))
                 (suffix_link nd))
    else if decide (a = brk st)
    then Some (MkNode IsNode
                 (<[c := Transition
                           (MappedSubstring (ref_str (sub tr))
                              (l (sub tr) + (delta + 1)) (r (sub tr)))
                           (tgt tr)]> ∅)
                 None)
    else store st !! a.
Proof.
  intros Hlt. simpl. destruct (decide (a = na)) as [->|Hne].
  - by rewrite lookup_insert_eq.
  - rewrite lookup_insert_ne by done.
    destruct (decide (a = brk st)) as [->|Hne2].
    + by rewrite lookup_insert_eq.
    + by rewrite lookup_insert_ne.
Qed.

Lemma split_edge_tedge st na nd tk tr delta c x k b :
  wf_core st → store st !! na = Some nd → g nd !! tk = Some tr →
  tedge (store (split_edge st na nd tk tr delta c)) x k b ↔
  (x = na ∧ k = tk ∧ b = brk st)
  ∨ (x = brk st ∧ k = c ∧ tgt tr = Some b)
  ∨ (tedge (store st) x k b ∧ ¬ (x = na ∧ k = tk)).
Proof.
  intros W Ha Htk. simpl. rewrite !tedge_insert. simpl.
  assert (Hna : (na < brk st)%nat) by (apply (wf_dom _ W); eauto).
  split.
  - intros [(-> & t & Hk & Ht)|(Hne & [(-> & t & Hk & Ht)|(_ & H)])].
    + destruct (decide (tk = k)) as [<-|Hck].
      * rewrite lookup_insert_eq in Hk. injection Hk as <-.
        simpl in Ht. injection Ht as <-. left. done.
      * rewrite lookup_insert_ne in Hk by done. right. right.
        split; [exists nd, t; done|]. intros [_ ?]. congruence.
    + destruct (decide (c = k)) as [<-|Hck].
      * rewrite lookup_insert_eq in Hk. injection Hk as <-.
        simpl in Ht. right. left. done.
      * rewrite lookup_insert_ne in Hk by done.
        rewrite lookup_empty in Hk. discriminate.
    + right. right. split; [done|]. intros [? _]. done.
  - intros [(-> & -> & ->)|[(-> & -> & Ht)|(H & Hnot)]].
    + left. split; [done|]. eexists. rewrite lookup_insert_eq. done.
    + right. split; [lia|]. left. split; [done|]. eexists.
      rewrite lookup_insert_eq. done.
    + destruct (decide (x = na)) as [->|Hne].
      * left. split; [done|]. destruct H as (nd0 & t & Hx & Hk & Ht).
        rewrite Ha in Hx. injection Hx as <-. exists t. split; [|done].
        rewrite lookup_insert_ne; [done|]. intros <-. apply Hnot. done.
      * right. split; [done|]. right. split; [|done].
        pose proof (wf_live _ _ _ _ W H). lia.
Qed.

Lemma split_edge_wf st na nd tk tr delta c :
  wf_core st → store st !! na = Some nd → g nd !! tk = Some tr →
  wf_core (split_edge st na nd tk tr delta c).
Proof.
  intros W Ha Htk.
  assert (Hna : (na < brk st)%nat) by (apply (wf_dom _ W); eauto).
  assert (Hna0 : na ≠ sink_addr).
  { intros ->. rewrite (wf_sink _ W) in Ha. injection Ha as <-.
    simpl in Htk. rewrite lookup_empty in Htk. discriminate. }
  assert (Hold : tedge (store st) na tk
                   (default 0%nat (tgt tr)) ∧ tgt tr ≠ None).
  { pose proof (wf_nonnull _ W _ _ _ _ Ha Htk) as Hnn.
    split; [|done]. exists nd, tr. destruct (tgt tr); done. }
  destruct Hold as [Hold Hnn].
  destruct (tgt tr) as [m|] eqn:Hm; [|done]. simpl in Hold. clear Hnn.
  pose proof (wf_tgt _ W _ _ _ Hold) as Hmb.
  pose proof (wf_brk _ W) as Hbrk.
  pose proof (split_edge_tedge st na nd tk tr delta c) as Hedge.
  pose proof (split_edge_lookup st na nd tk tr delta c) as Hlk.
  constructor.
  - rewrite Hlk by done. rewrite decide_False by done.
    rewrite decide_False by (unfold sink_addr; lia). apply (wf_sink _ W).
  - rewrite Hlk by done. destruct (wf_root _ W) as (rn & Hr & Hrc & Hrl).
    destruct (decide (root_addr = na)) as [<-|Hne].
    + rewrite Ha in Hr. injection Hr as <-. eexists. split; [done|]. done.
    + rewrite decide_False by (unfold root_addr; lia). eauto.
  - simpl. lia.
  - intros a. rewrite Hlk by done. simpl. repeat case_decide; subst.
    + split; [lia|eauto].
    + split; [lia|eauto].
    + rewrite (wf_dom _ W). lia.
  - intros a nda. rewrite Hlk by done. repeat case_decide; subst.
    + intros [= <-]. simpl. apply (wf_cls _ W _ _ Ha).
    + intros [= <-]. simpl. discriminate.
    + apply (wf_cls _ W).
  - intros a nda k t. rewrite Hlk by done. repeat case_decide; subst.
    + intros [= <-]. simpl. destruct (decide (tk = k)) as [<-|Hck].
      * rewrite lookup_insert_eq. intros [= <-]. simpl. done.
      * rewrite lookup_insert_ne by done. apply (wf_nonnull _ W _ _ _ _ Ha).
    + intros [= <-]. simpl. destruct (decide (c = k)) as [<-|Hck].
      * rewrite lookup_insert_eq. intros [= <-]. simpl. congruence.
      * rewrite lookup_insert_ne by done. rewrite lookup_empty. discriminate.
    + apply (wf_nonnull _ W).
  - intros a k b H. apply Hedge in H; try done. simpl.
    destruct H as [(-> & -> & ->)|[(-> & -> & Ht)|(H & _)]].
    + lia.
    + rewrite Hm in Ht. injection Ht as <-. lia.
    + pose proof (wf_tgt _ W _ _ _ H). lia.
  - intros a1 c1 a2 c2 b H1 H2. apply Hedge in H1, H2; try done.
    destruct H1 as [(-> & -> & ->)|[(-> & -> & Ht1)|(H1 & N1)]],
             H2 as [(-> & -> & E2)|[(-> & -> & Ht2)|(H2 & N2)]];
      try done.
    + rewrite Hm in Ht2. injection Ht2 as Ht2. lia.
    + pose proof (wf_tgt _ W _ _ _ H2). lia.
    + rewrite Hm in Ht1. injection Ht1 as Ht1. lia.
    + rewrite Hm in Ht1. injection Ht1 as <-.
      destruct (wf_parent _ W _ _ _ _ _ Hold H2) as [<- <-]. exfalso.
      apply N2. done.
    + pose proof (wf_tgt _ W _ _ _ H1). lia.
    + rewrite Hm in Ht2. injection Ht2 as <-.
      destruct (wf_parent _ W _ _ _ _ _ Hold H1) as [<- <-]. exfalso.
      apply N1. done.
    + apply (wf_parent _ W _ _ _ _ _ H1 H2).
  - intros b Hb. simpl in Hb.
    assert (Hnew : child (store (split_edge st na nd tk tr delta c)) na (brk st)).
    { exists tk. apply Hedge; try done. left. done. }
    assert (Hmono : ∀ y, reachable_node (store st) y →
                reachable_node (store (split_edge st na nd tk tr delta c)) y).
    { apply reach_mono. intros x y [k H].
      destruct (decide (x = na ∧ k = tk)) as [[-> ->]|Hno].
      - assert (y = m) as ->.
        { destruct H as (nd0 & t & Hx & Hk & Ht). rewrite Ha in Hx.
          injection Hx as <-. rewrite Htk in Hk. injection Hk as <-.
          congruence. }
        apply (rtc_l _ _ (brk st)); [done|]. apply rtc_once. exists c.
        apply Hedge; try done. right. left. done.
      - apply rtc_once. exists k. apply Hedge; try done. right. right. done. }
    assert (Hrna : reachable_node (store (split_edge st na nd tk tr delta c)) na).
    { destruct (decide (na = root_addr)) as [->|Hr1]; [apply rtc_refl|].
      apply Hmono. apply (wf_reach _ W).
      unfold root_addr, sink_addr in *. lia. }
    destruct (decide (b = brk st)) as [->|Hne].
    + apply (rtc_r _ na); done.
    + apply Hmono. apply (wf_reach _ W). lia.
  - intros a nda q. rewrite Hlk by done. simpl. repeat case_decide; subst.
    + intros [= <-] H2. simpl. intros Hq.
      pose proof (wf_link _ W _ _ _ Ha H2 Hq). lia.
    + intros [= <-]. simpl. discriminate.
    + intros Hx H2 Hq. pose proof (wf_link _ W _ _ _ Hx H2 Hq). lia.
  - apply (wf_last _ W).
  - apply (wf_hay _ W).
Qed.

Lemma split_edge_linked st na nd tk tr delta c ex :
  linked_except ex st → store st !! na = Some nd → (na < brk st)%nat →
  linked_except (brk st :: ex) (split_edge st na nd tk tr delta c).
Proof.
  intros L Ha Hlt a nda. rewrite split_edge_lookup by done.
  repeat case_decide; subst.
  - intros [= <-]. simpl. intros H2 Hc Hex. apply (L _ _ Ha H2 Hc).
    intros Hin. apply Hex. by apply list_elem_of_further.
  - intros _ _ _ Hex. exfalso. apply Hex. apply list_elem_of_here.
  - intros Hx H2 Hc Hex. apply (L _ _ Hx H2 Hc).
    intros Hin. apply Hex. by apply list_elem_of_further.
Qed.

(** * test_and_split *)

Lemma test_and_split_empty st na nd kp t w tk :
  store st !! na = Some nd → at_ w (l kp) = Ok tk → r kp < l kp →
  test_and_split st (Some na) kp t w
  = Ok (st, bool_decide (tgt (find_alpha_transition nd t) ≠ None), Some na).
Proof.
  intros Ha Htk Hemp. unfold test_and_split. rewrite Htk, bind_Ok_l.
  destruct (Z.leb_spec 0 (r kp - l kp)); [lia|].
  rewrite (deref_Some _ _ _ Ha), bind_Ok_l. reflexivity.
Qed.

Lemma test_and_split_nonempty st na nd kp t w tk sp c :
  store st !! na = Some nd → (na < brk st)%nat →
  at_ w (l kp) = Ok tk → l kp ≤ r kp →
  haystack st !! ref_str (sub (find_alpha_transition nd tk)) = Some sp →
  at_ sp (l (sub (find_alpha_transition nd tk)) + (r kp - l kp) + 1) = Ok c →
  test_and_split st (Some na) kp t w
  = if decide (c = t) then Ok (st, true, Some na)
    else Ok (split_edge st na nd tk (find_alpha_transition nd tk)
               (r kp - l kp) c, false, Some (brk st)).
Proof.
  intros Ha Hlt Htk Hne Hsp Hc. unfold test_and_split.
  rewrite Htk, bind_Ok_l.
  destruct (Z.leb_spec 0 (r kp - l kp)); [|lia].
  rewrite (deref_Some _ _ _ Ha), bind_Ok_l.
  apply hay_Ok in Hsp. rewrite Hsp, bind_Ok_l, Hc, bind_Ok_l.
  destruct (Z.eqb_spec c t) as [->|Hct].
  - rewrite decide_True by done. reflexivity.
  - rewrite decide_False by done. cbn [new_node sub l].
    replace (l (sub (find_alpha_transition nd tk)) + (r kp - l kp + 1))
      with (l (sub (find_alpha_transition nd tk)) + (r kp - l kp) + 1) by lia.
    rewrite Hc, bind_Ok_l.
    unfold add_transition, deref. cbn [store]. rewrite lookup_insert_eq.
    rewrite bind_Ok_l. cbn [cls g suffix_link].
    unfold map_insert_new. rewrite lookup_empty.
    rewrite bind_Ok_l.
    unfold put_transition, deref, set_node. cbn [store brk].
    rewrite lookup_insert_ne by lia. rewrite lookup_insert_ne by lia.
    rewrite Ha, !bind_Ok_l. unfold split_edge. cbn.
    rewrite insert_insert_eq.
    replace (l (sub (find_alpha_transition nd tk)) + (r kp - l kp + 1))
      with (l (sub (find_alpha_transition nd tk)) + (r kp - l kp) + 1) by lia.
    reflexivity.
Qed.

(** Every returning call of [test_and_split] is one of the three cases. *)
Lemma test_and_split_inv st n kp t w st' ep r' :
  wf_core st →
  test_and_split st n kp t w = Ok (st', ep, r') →
  ∃ na nd tk, n = Some na ∧ store st !! na = Some nd ∧ at_ w (l kp) = Ok tk ∧
    ((r kp < l kp ∧ st' = st ∧ r' = n
      ∧ ep = bool_decide (tgt (find_alpha_transition nd t) ≠ None))
     ∨ (l kp ≤ r kp ∧ ∃ sp c,
          haystack st !! ref_str (sub (find_alpha_transition nd tk)) = Some sp
          ∧ at_ sp (l (sub (find_alpha_transition nd tk)) + (r kp - l kp) + 1)
            = Ok c
          ∧ ((c = t ∧ st' = st ∧ ep = true ∧ r' = n)
             ∨ (c ≠ t ∧ ep = false ∧ r' = Some (brk st)
                ∧ st' = split_edge st na nd tk (find_alpha_transition nd tk)
                          (r kp - l kp) c)))).
Proof.
  intros W H. pose proof H as H0. unfold test_and_split in H.
  inv_bind H. rename x into tk, E into Htk.
  destruct (Z.leb_spec 0 (r kp - l kp)) as [Hd|Hd].
  - inv_bind H. rename x into nd. apply deref_Ok in E as (na & -> & Ha).
    inv_bind H. rename x into sp. apply hay_Ok in E.
    inv_bind H. rename x into c, E0 into Hc. clear H.
    assert (Hlt : (na < brk st)%nat) by (apply (wf_dom _ W); eauto).
    exists na, nd, tk. split_and!; try done. right. split; [lia|].
    exists sp, c. split_and!; try done.
    rewrite (test_and_split_nonempty st na nd kp t w tk sp c
               Ha Hlt Htk ltac:(lia) E Hc) in H0.
    destruct (decide (c = t)) as [->|Hct].
    + injection H0 as <- <- <-. left. done.
    + injection H0 as <- <- <-. right. done.
  - inv_bind H. rename x into nd. apply deref_Ok in E as (na & -> & Ha).
    injection H as <- <- <-.
    exists na, nd, tk. split_and!; try done. left. split_and!; try done. lia.
Qed.

(** What [update] relies on: the shape survives, an endpoint changes
    nothing, and otherwise the returned node is a live node other than the
    sink with no transition for [t]; only a split makes a node without a
    suffix link. *)
Lemma test_and_split_shape st n kp t w st' ep r' ex :
  wf_core st → linked_except ex st →
  test_and_split st n kp t w = Ok (st', ep, r') →
  ∃ na, n = Some na ∧ (na < brk st)%nat ∧ wf_core st'
    ∧ haystack st' = haystack st ∧ last_index st' = last_index st
    ∧ (brk st ≤ brk st')%nat
    ∧ (ep = true → st' = st)
    ∧ (ep = false → ∃ ra nd', r' = Some ra ∧ (1 ≤ ra < brk st')%nat
         ∧ store st' !! ra = Some nd' ∧ g nd' !! t = None
         ∧ linked_except (ra :: ex) st'
         ∧ (r kp < l kp → ra = na)).
Proof.
  intros W L H.
  destruct (test_and_split_inv _ _ _ _ _ _ _ _ W H)
    as (na & nd & tk & -> & Ha & Htk & Hcase).
  assert (Hlt : (na < brk st)%nat) by (apply (wf_dom _ W); eauto).
  exists na. split; [done|]. split; [done|].
  destruct Hcase as [(Hemp & -> & -> & ->)
                    |(Hne & sp & c & Hsp & Hc & [(-> & -> & -> & ->)
                                                |(Hct & -> & -> & ->)])].
  - split_and!; try done. intros Hep.
    apply bool_decide_eq_false in Hep.
    assert (Hno : ¬ has_transition nd t).
    { intros Hh. apply Hep. eapply find_tgt_has_transition; eauto. }
    assert (Hns : cls nd ≠ IsSinkNode).
    { intros Hs. apply Hno. unfold has_transition. rewrite Hs. done. }
    assert (Hna0 : na ≠ sink_addr).
    { intros ->. rewrite (wf_sink _ W) in Ha. injection Ha as <-. done. }
    exists na, nd. split_and!; try done.
    + unfold sink_addr in *. lia.
    + destruct (g nd !! t) eqn:Hg; [|done]. exfalso. apply Hno.
      unfold has_transition. destruct (cls nd); eauto.
    + intros a nda Hx H2 Hcl Hex. apply (L a nda Hx H2 Hcl).
      intros Hin. apply Hex. by apply list_elem_of_further.
  - split_and!; try done.
  - assert (Hstored : g nd !! tk = Some (find_alpha_transition nd tk)).
    { pose proof (wf_hay _ W _ _ Hsp) as Hk.
      destruct (decide (cls nd = IsSinkNode)) as [Hs|Hs].
      - rewrite find_sink in Hk by done. simpl in Hk. lia.
      - rewrite find_stored in * by done.
        destruct (g nd !! tk); [done|]. simpl in Hk. lia. }
    pose proof (split_edge_wf st na nd tk _ (r kp - l kp) c W Ha Hstored) as W'.
    split_and!; try done. { simpl. lia. }
    intros _. eexists (brk st), _. split; [done|].
    split. { simpl. pose proof (wf_brk _ W). lia. }
    split. { rewrite split_edge_lookup by done.
             rewrite decide_False by lia. rewrite decide_True by done. done. }
    split. { simpl. rewrite lookup_insert_ne by done. apply lookup_empty. }
    split. { apply split_edge_linked; done. }
    lia.
Qed.

(** * canonize: the node it returns *)

Lemma find_tgt_inner st a nd c :
  wf_core st → store st !! a = Some nd →
  null_or_inner st (tgt (find_alpha_transition nd c)).
Proof.
  intros W Ha. destruct (decide (cls nd = IsSinkNode)) as [Hs|Hs].
  - rewrite find_sink by done.
    pose proof (wf_cls _ W _ _ Ha Hs) as ->.
    rewrite (wf_sink _ W) in Ha. injection Ha as <-. simpl.
    pose proof (wf_brk _ W). unfold root_addr. lia.
  - rewrite find_stored by done. destruct (g nd !! c) as [t|] eqn:Hg; [|done].
    destruct (tgt t) as [m|] eqn:Hm; [|done]. simpl.
    assert (tedge (store st) a c m) as He by (exists nd, t; done).
    pose proof (wf_tgt _ W _ _ _ He). lia.
Qed.

Lemma canonize_loop_node fuel st w s kp tk s' x :
  wf_core st → null_or_inner st (tgt tk) →
  canonize_loop fuel st w s kp tk = Ok (s', x) →
  (s' = s ∧ r kp - l kp < r (sub tk) - l (sub tk)) ∨ null_or_inner st s'.
Proof.
  intros W. revert s kp tk. induction fuel as [|fuel IH]; intros s kp tk Htk H.
  - simpl in H. destruct (Z.leb_spec (r (sub tk) - l (sub tk)) (r kp - l kp));
      [discriminate|]. injection H as <- <-. left. split; [done|lia].
  - simpl in H. destruct (Z.leb_spec (r (sub tk) - l (sub tk)) (r kp - l kp));
      [|injection H as <- <-; left; split; [done|lia]].
    right.
    destruct (Z.leb_spec (l kp + (1 + (r (sub tk) - l (sub tk)))) (r kp)).
    + inv_bind H. inv_bind H. apply deref_Ok in E0 as (a & Ea & Ha).
      apply IH in H; [|eapply find_tgt_inner; eauto].
      destruct H as [[-> _]|H]; done.
    + apply IH in H; [|done]. destruct H as [[-> _]|H]; done.
Qed.

Lemma canonize_node fuel st s kp s' x :
  wf_core st → canonize fuel st s kp = Ok (s', x) →
  (s' = s ∨ null_or_inner st s') ∧ (s' = sink → s = sink ∧ r kp < l kp).
Proof.
  intros W H. unfold canonize in H.
  destruct (Z.ltb_spec (r kp) (l kp)) as [Hemp|Hne].
  - injection H as <- <-. split; [left; done|]. intros ->. done.
  - inv_bind H. inv_bind H. inv_bind H.
    apply deref_Ok in E1 as (a & -> & Ha).
    apply canonize_loop_node in H; [|done|eapply find_tgt_inner; eauto].
    destruct H as [[-> Hlt]|H].
    + split; [left; done|]. intros [= ->]. exfalso.
      rewrite (wf_sink _ W) in Ha. injection Ha as <-.
      rewrite find_sink in Hlt by done. simpl in Hlt. lia.
    + split; [right; done|]. intros ->. simpl in H. unfold sink_addr in H. lia.
Qed.

(** * update *)

Lemma linked_except_weaken ex ex' st :
  (∀ a, (2 ≤ a)%nat → a ∈ ex → a ∈ ex') →
  linked_except ex st → linked_except ex' st.
Proof.
  intros Hsub L a nd Ha H2 Hc Hex. apply (L a nd Ha H2 Hc).
  intros Hin. apply Hex. apply Hsub; done.
Qed.

Lemma attach_leaf_eq st ra nd c ms :
  store st !! ra = Some nd → (ra < brk st)%nat → g nd !! c = None →
  add_transition (new_node st IsLeaf).1 (Some ra) c
    (Transition ms (Some (new_node st IsLeaf).2))
  = Ok (attach_leaf st ra nd c ms).
Proof.
  intros Ha Hlt Hc. unfold add_transition, deref, new_node. cbn.
  rewrite lookup_insert_ne by lia. rewrite Ha. cbn.
  unfold map_insert_new. rewrite Hc. reflexivity.
Qed.

Lemma link_unless_root_shape st o q st' ex :
  wf_core st → linked_except ex st →
  (o = root_addr ∨ (2 ≤ o < brk st)%nat) →
  (o ≠ root_addr → (1 ≤ q < brk st)%nat) →
  link_unless_root st (Some o) (Some q) = Ok st' →
  wf_core st' ∧ linked_except (filter (λ x, x ≠ o) ex) st'
  ∧ haystack st' = haystack st ∧ last_index st' = last_index st
  ∧ brk st' = brk st
  ∧ (∀ a, a ≠ o → store st' !! a = store st !! a).
Proof.
  intros W L Ho Hq H. unfold link_unless_root in H.
  case_bool_decide as Hr.
  - assert (o ≠ root_addr) as Hne by (intros ->; done).
    destruct Ho as [->|Ho]; [done|].
    unfold set_suffix_link in H. inv_bind H.
    apply deref_Ok in E as (a & [= <-] & Ha). injection H as <-.
    split; [apply set_link_wf; auto; lia|].
    split; [apply set_link_linked; done|].
    split_and!; try done. intros a Hao. simpl. by rewrite lookup_insert_ne.
  - injection H as <-.
    assert (o = root_addr) as -> by (unfold root in Hr; congruence).
    split; [done|]. split; [|done].
    eapply linked_except_weaken; [|exact L]. intros a H2 Hin.
    apply list_elem_of_filter. split; [unfold root_addr; lia|done].
Qed.

Lemma update_loop_endpoint fuel st w c ki_r oldr r_ sk ki1 :
  update_loop fuel st w c ki_r oldr r_ true sk ki1
  = (link_unless_root st oldr (fst sk) ≫= λ st', Ok (st', sk)).
Proof. destruct fuel; reflexivity. Qed.

Lemma update_loop_step fuel st w c ki_r oldr r_ sk ki1 :
  update_loop (S fuel) st w c ki_r oldr r_ false sk ki1
  = (st2 ← add_transition (new_node st IsLeaf).1 r_ c
             (Transition (MappedSubstring (ref_str ki1) ki_r INT_MAX)
                         (Some (new_node st IsLeaf).2));
     st3 ← link_unless_root st2 oldr r_;
     sn ← deref st3 (fst sk);
     sk' ← canonize fuel st3 (suffix_link sn) ki1;
     '(st4, ep, r') ← test_and_split st3 (fst sk')
                        (MappedSubstring (ref_str ki1) (snd (snd sk')) (r ki1))
                        c w;
     update_loop fuel st4 w c ki_r r_ r' ep sk'
       (MappedSubstring (ref_str ki1) (snd (snd sk')) (r ki1))).
Proof. reflexivity. Qed.

Lemma update_loop_shape fuel :
  ∀ st w c ki_r o r_ (ep : bool) (sk : reference_point) ki1 sa st' sk',
  wf_core st →
  (o = root_addr ∨ (2 ≤ o < brk st)%nat) →
  fst sk = Some sa → (sa < brk st)%nat → (sa = sink_addr → o = root_addr) →
  (if ep then linked_except [o] st
   else ∃ ra nd, r_ = Some ra ∧ (1 ≤ ra < brk st)%nat
          ∧ store st !! ra = Some nd ∧ g nd !! c = None
          ∧ (r ki1 < l ki1 → ra = sa) ∧ linked_except [o; ra] st) →
  update_loop fuel st w c ki_r (Some o) r_ ep sk ki1 = Ok (st', sk') →
  wf_core st' ∧ linked_except [] st' ∧ haystack st' = haystack st
  ∧ last_index st' = last_index st ∧ (brk st ≤ brk st')%nat.
Proof.
  induction fuel as [|fuel IH];
    intros st w c ki_r o r_ ep sk ki1 sa st' sk' W Ho Hsk Hsa Hsink Hep H;
    (destruct ep; [|try discriminate]).
  1,2: rewrite update_loop_endpoint in H; inv_bind H; injection H as <- <-;
       rewrite Hsk in E;
       apply (link_unless_root_shape _ _ _ _ [o]) in E; try done;
       [ destruct E as (W' & L' & Hh & Hl & Hb & _);
         split_and!; try done; [|lia];
         eapply linked_except_weaken; [|exact L'];
         intros a _ [Ha1 Ha2]%list_elem_of_filter;
         apply list_elem_of_singleton in Ha2; done
       | intros Hne; unfold root_addr, sink_addr in *; lia ].
  destruct Hep as (ra & nd & -> & Hra & Hnd & Hc & Hemp & L).
  rewrite update_loop_step in H.
  rewrite (attach_leaf_eq st ra nd c) in H by (done || lia).
  rewrite bind_Ok_l in H.
  set (st2 := attach_leaf st ra nd c
                (MappedSubstring (ref_str ki1) ki_r INT_MAX)) in *.
  assert (W2 : wf_core st2).
  { apply attach_leaf_wf; try done. unfold sink_addr. lia. }
  assert (L2 : linked_except [o; ra] st2).
  { apply attach_leaf_linked; try done. lia. }
  inv_bind H. rename x into st3.
  apply (link_unless_root_shape _ _ _ _ [o; ra]) in E; try done;
    [|simpl; lia|simpl; lia].
  destruct E as (W3 & L3 & Hh3 & Hl3 & Hb3 & Hst3).
  assert (L3' : linked_except [ra] st3).
  { eapply linked_except_weaken; [|exact L3].
    intros a _ [Ha1 Ha2]%list_elem_of_filter.
    apply elem_of_cons in Ha2 as [->|Ha2]; done. }
  inv_bind H. rename x into sn. rewrite Hsk in E.
  apply deref_Ok in E as (? & [= <-] & Hsn).
  inv_bind H. rename x into sk1.
  destruct sk1 as [s1 [id1 k1]].
  apply canonize_node in E as [_ Hcs]; [|done].
  inv_bind H. destruct x as [[st4 ep'] r']. cbn [fst snd] in *.
  apply (test_and_split_shape _ _ _ _ _ _ _ _ [ra]) in E; [|done|done].
  destruct E as (na' & -> & Hna' & W4 & Hh4 & Hl4 & Hb4 & Htrue & Hfalse).
  cbn [l r] in Hfalse.
  apply IH with (sa := na') in H; try done.
  - destruct H as (W' & L' & Hh & Hl & Hb).
    assert (haystack st2 = haystack st) as Hh2 by reflexivity.
    assert (last_index st2 = last_index st) as Hl2 by reflexivity.
    assert (brk st2 = S (brk st)) as Hb2 by reflexivity.
    split_and!; try done; [congruence|congruence|lia].
  - assert (brk st2 = S (brk st)) as Hb2 by reflexivity.
    unfold root_addr. lia.
  - lia.
  - intros ->. destruct (Hcs eq_refl) as [Hlink Hki].
    (* only the root has the sink as its suffix link *)
    assert (sa = root_addr) as ->.
    { destruct (decide (sa = root_addr)) as [|Hn1]; [done|]. exfalso.
      destruct (decide (sa = sink_addr)) as [->|Hn0].
      - rewrite (wf_sink _ W3) in Hsn. injection Hsn as <-. done.
      - assert (2 ≤ sa)%nat as H2 by (unfold root_addr, sink_addr in *; lia).
        pose proof (wf_link _ W3 _ _ _ Hsn H2 Hlink). unfold sink_addr in *.
        lia. }
    apply Hemp. exact Hki.
  - destruct ep'.
    + rewrite (Htrue eq_refl).
      eapply linked_except_weaken; [|exact L3']. done.
    + destruct (Hfalse eq_refl)
        as (ra' & nd' & -> & Hra' & Hnd' & Hc' & L4 & He).
      exists ra', nd'.
      split; [done|]. split; [exact Hra'|]. split; [done|]. split; [done|].
      split; [exact He|].
      eapply linked_except_weaken; [|exact L4].
      intros a _ Hin. rewrite !elem_of_cons in *. tauto.
Qed.

Lemma update_shape fuel st s ki st' sk :
  wf st → update fuel st s ki = Ok (st', sk) →
  wf st' ∧ haystack st' = haystack st ∧ last_index st' = last_index st
  ∧ (brk st ≤ brk st')%nat.
Proof.
  intros [W L] H. unfold update in H.
  inv_bind H. rename x into w. inv_bind H. rename x into c.
  inv_bind H. destruct x as [[st1 ep] r_].
  apply (test_and_split_shape _ _ _ _ _ _ _ _ []) in E1; [|done|done].
  destruct E1 as (na & -> & Hna & W1 & Hh1 & Hl1 & Hb1 & Htrue & Hfalse).
  cbn [l r] in Hfalse.
  apply update_loop_shape with (sa := na) in H; try done.
  - destruct H as (W' & L' & Hh & Hl & Hb).
    split; [split; done|]. split_and!; [congruence|congruence|lia].
  - left. done.
  - lia.
  - destruct ep.
    + rewrite (Htrue eq_refl). eapply linked_except_weaken; [|exact L].
      intros a _ Hin. by apply elem_of_nil in Hin.
    + destruct (Hfalse eq_refl)
        as (ra & nd' & -> & Hra & Hnd' & Hc' & L1 & He).
      exists ra, nd'.
      split; [done|]. split; [exact Hra|]. split; [done|]. split; [done|].
      split; [exact He|].
      eapply linked_except_weaken; [|exact L1].
      intros a _ Hin. rewrite !elem_of_cons in *. tauto.
Qed.

(** * deploy_suffixes and addString *)

Lemma deploy_loop_shape fuel :
  ∀ st s sindex i ap st',
  wf st → deploy_loop fuel st s sindex i ap = Ok st' →
  wf st' ∧ haystack st' = haystack st ∧ last_index st' = last_index st
  ∧ (brk st ≤ brk st')%nat.
Proof.
  induction fuel as [|fuel IH]; intros st s sindex i ap st' W H;
    simpl in H; destruct (Z.ltb_spec i (Z.of_nat (length s)));
    try discriminate; try (injection H as <-; split_and!; done).
  inv_bind H. destruct x as [st1 ap1].
  apply update_shape in E as (W1 & Hh1 & Hl1 & Hb1); [|done].
  inv_bind H. apply IH in H as (W' & Hh & Hl & Hb); [|done].
  split_and!; [done|congruence|congruence|lia].
Qed.

(** [deploy_suffixes] fails without touching the tree, and otherwise returns
    the index it was given. *)
Lemma deploy_suffixes_shape fuel st s sindex st' d :
  wf st → deploy_suffixes fuel st s sindex = Ok (st', d) →
  (d = -1 ∧ st' = st)
  ∨ (d = sindex ∧ wf st' ∧ haystack st' = haystack st
     ∧ last_index st' = last_index st ∧ (brk st ≤ brk st')%nat).
Proof.
  intros W H. unfold deploy_suffixes in H.
  inv_bind H. destruct x as [i ap].
  destruct (INT_MAX =? i).
  - injection H as <- <-. left. done.
  - inv_bind H. injection H as <- <-. right.
    apply deploy_loop_shape in E0; [|done]. tauto.
Qed.

(** The registry and the counter can be replaced together without harm to
    the tree. *)
Lemma wf_registry st hs li :
  wf st → 0 ≤ li → (∀ k w, hs !! k = Some w → 1 ≤ k ≤ li) →
  wf (MkTree (store st) (brk st) hs li).
Proof.
  intros [W L] Hli Hhs. split; [|exact L].
  destruct W. constructor; done.
Qed.

Lemma addString_shape fuel st w st' id :
  wf st → addString fuel st w = Ok (st', id) →
  wf st'
  ∧ ((id = -1 ∧ st' = st)
     ∨ (id = last_index st + 1 ∧ last_index st' = last_index st + 1
        ∧ haystack st' = <[last_index st + 1 := w]> (haystack st)
        ∧ (brk st ≤ brk st')%nat)).
Proof.
  intros W H. unfold addString in H.
  pose proof (wf_last _ (proj1 W)) as Hlast.
  assert (Hfree : haystack st !! (last_index st + 1) = None).
  { destruct (haystack st !! (last_index st + 1)) eqn:E; [|done].
    apply (wf_hay _ (proj1 W)) in E. lia. }
  inv_bind H. destruct x as [st2 d]. cbn [last_index] in *.
  unfold map_insert_new in E. rewrite Hfree in E.
  apply deploy_suffixes_shape in E.
  2:{ apply wf_registry; [done|lia|]. intros k u Hk.
      destruct (decide (k = last_index st + 1)) as [->|Hne]; [lia|].
      rewrite lookup_insert_ne in Hk by done.
      apply (wf_hay _ (proj1 W)) in Hk. lia. }
  destruct E as [[-> ->]|(-> & W2 & Hh & Hl & Hb)].
  - simpl in H. injection H as <- <-. cbn.
    rewrite delete_insert_eq, delete_id by done.
    replace (last_index st + 1 - 1) with (last_index st) by lia.
    split; [|left; split; [done|]]; destruct st; done.
  - cbn in Hh, Hl, Hb.
    destruct (Z.ltb_spec (last_index st + 1) 0); [lia|].
    injection H as <- <-. split; [done|]. right. rewrite Hl. done.
Qed.

Theorem reachable_wf st : reachable st → wf st.
Proof.
  induction 1 as [|st fuel w st' id _ IH H].
  - split.
    + constructor; simpl.
      * rewrite lookup_insert_ne by done. apply lookup_insert_eq.
      * eexists. rewrite lookup_insert_eq. done.
      * lia.
      * intros a. unfold root_addr, sink_addr.
        destruct a as [|[|a]].
        -- rewrite lookup_insert_ne by done. rewrite lookup_insert_eq.
           split; [lia|eauto].
        -- rewrite lookup_insert_eq. split; [lia|eauto].
        -- rewrite !lookup_insert_ne by done. rewrite lookup_empty.
           split; [intros [? ?]; done|lia].
      * intros a nd. unfold root_addr, sink_addr. destruct a as [|[|a]].
        -- done.
        -- rewrite lookup_insert_eq. intros [= <-]. done.
        -- rewrite !lookup_insert_ne by done. rewrite lookup_empty. done.
      * intros a nd c t. unfold root_addr, sink_addr. destruct a as [|[|a]].
        -- rewrite lookup_insert_ne by done. rewrite lookup_insert_eq.
           intros [= <-]. simpl. rewrite lookup_empty. done.
        -- rewrite lookup_insert_eq. intros [= <-]. simpl.
           rewrite lookup_empty. done.
        -- rewrite !lookup_insert_ne by done. rewrite lookup_empty. done.
      * intros a c b (nd & t & Ha & Hc & _). exfalso. revert Ha Hc.
        unfold root_addr, sink_addr. destruct a as [|[|a]].
        -- rewrite lookup_insert_ne by done. rewrite lookup_insert_eq.
           intros [= <-]. simpl. rewrite lookup_empty. done.
        -- rewrite lookup_insert_eq. intros [= <-]. simpl.
           rewrite lookup_empty. done.
        -- rewrite !lookup_insert_ne by done. rewrite lookup_empty. done.
      * intros a1 c1 a2 c2 b (nd & t & Ha & Hc & _). exfalso. revert Ha Hc.
        unfold root_addr, sink_addr. destruct a1 as [|[|a]].
        -- rewrite lookup_insert_ne by done. rewrite lookup_insert_eq.
           intros [= <-]. simpl. rewrite lookup_empty. done.
        -- rewrite lookup_insert_eq. intros [= <-]. simpl.
           rewrite lookup_empty. done.
        -- rewrite !lookup_insert_ne by done. rewrite lookup_empty. done.
      * intros b Hb. lia.
      * intros a nd q. unfold root_addr, sink_addr. destruct a as [|[|a]].
        -- lia.
        -- lia.
        -- rewrite !lookup_insert_ne by done. rewrite lookup_empty. done.
      * lia.
      * intros k w. rewrite lookup_empty. done.
    + intros a nd. simpl. unfold root_addr, sink_addr. destruct a as [|[|a]].
      * lia.
      * lia.
      * rewrite !lookup_insert_ne by done. rewrite lookup_empty. done.
  - apply addString_shape in H; tauto.
Qed.

(** * Reachable states *)

Lemma run_reachable fuel ws :
  ∀ st st' ids, reachable st → run fuel st ws = Ok (st', ids) → reachable st'.
Proof.
  induction ws as [|w ws IH]; intros st st' ids R H; simpl in H.
  - injection H as <- <-. done.
  - inv_bind H. destruct x as [st1 id]. inv_bind H. destruct x as [st2 ids'].
    injection H as <- <-. eapply IH; [|exact E0].
    eapply reachable_add; eauto.
Qed.

Lemma tree_after_reachable ws : reachable (tree_after ws).
Proof.
  unfold tree_after. destruct (run 64 empty_tree ws) as [[st ids]| |] eqn:E;
    try apply reachable_empty.
  eapply run_reachable; [apply reachable_empty|exact E].
Qed.

(** * The claims about addString *)

(** C10. Whenever [addString] returns the failure value [-1], the whole
    structure (node store, allocation mark, registry and id counter) is
    exactly what it was before the call: [deploy_suffixes] gives up right
    after the fast-forward walk, which only reads the tree, and the registry
    entry and the counter are rolled back. *)
Theorem addString_failure_frame st fuel w st' :
  reachable st → addString fuel st w = Ok (st', -1) → st' = st.
Proof.
  intros R H. apply reachable_wf in R.
  pose proof (wf_last _ (proj1 R)).
  apply addString_shape in H; [|done].
  destruct H as [_ [[_ ->]|(Hid & _)]]; [done|lia].
Qed.

Lemma addString_failure_frame_witness :
  addString 64 (tree_after [str "xx"]) (str "x")
  = Ok (tree_after [str "xx"], -1).
Proof.
  assert (H : ∃ st', addString 64 (tree_after [str "xx"]) (str "x")
                     = Ok (st', -1)).
  { eexists. vm_compute. reflexivity. }
  destruct H as [st' H].
  rewrite H.
  rewrite (addString_failure_frame (tree_after [str "xx"]) 64 (str "x") st'
             (tree_after_reachable _) H).
  reflexivity.
Defined.

(** What one call does to the id counter and the registry. *)
Lemma addString_registry fuel st w st' id :
  wf st → (∀ k, is_Some (haystack st !! k) ↔ 1 ≤ k ≤ last_index st) →
  addString fuel st w = Ok (st', id) →
  wf st' ∧ (∀ k, is_Some (haystack st' !! k) ↔ 1 ≤ k ≤ last_index st')
  ∧ ((id = -1 ∧ last_index st' = last_index st
      ∧ haystack st' !! (last_index st + 1) = None)
     ∨ (id = last_index st + 1 ∧ last_index st' = id
        ∧ haystack st' !! id = Some w)).
Proof.
  intros W Hdom H. pose proof (wf_last _ (proj1 W)) as Hlast.
  apply addString_shape in H; [|done].
  destruct H as [W' [[-> ->]|(-> & Hl & Hh & _)]].
  - split; [done|]. split; [done|]. left. split_and!; try done.
    destruct (haystack st !! (last_index st + 1)) eqn:E; [|done].
    assert (is_Some (haystack st !! (last_index st + 1))) as Hs by eauto.
    apply Hdom in Hs. lia.
  - split; [done|]. split.
    + intros k. rewrite Hh, Hl.
      destruct (decide (k = last_index st + 1)) as [->|Hne].
      * rewrite lookup_insert_eq. split; [lia|eauto].
      * rewrite lookup_insert_ne by done. rewrite Hdom. lia.
    + right. rewrite Hh, lookup_insert_eq. done.
Qed.

Lemma successes_cons id ids :
  successes (id :: ids)
  = if decide (0 < id) then id :: successes ids else successes ids.
Proof. unfold successes. rewrite filter_cons. reflexivity. Qed.

Lemma run_ids fuel ws :
  ∀ st st' ids,
  wf st → (∀ k, is_Some (haystack st !! k) ↔ 1 ≤ k ≤ last_index st) →
  run fuel st ws = Ok (st', ids) →
  (∀ n id, successes ids !! n = Some id → id = last_index st + Z.of_nat (S n))
  ∧ (∀ id, id ∈ ids → id = -1 ∨ last_index st < id)
  ∧ last_index st' = last_index st + Z.of_nat (length (successes ids))
  ∧ (∀ k, is_Some (haystack st' !! k) ↔ 1 ≤ k ≤ last_index st').
Proof.
  induction ws as [|w ws IH]; intros st st' ids W Hdom H; simpl in H.
  - injection H as <- <-. split_and!; try done.
    + intros id Hin. by apply elem_of_nil in Hin.
    + simpl. lia.
  - inv_bind H. destruct x as [st1 id]. inv_bind H. destruct x as [st2 ids'].
    injection H as <- <-.
    apply addString_registry in E; [|done|done].
    destruct E as (W1 & Hdom1 & Hcase).
    destruct (IH _ _ _ W1 Hdom1 E0) as (Hn & Hall & Hl & Hd).
    pose proof (wf_last _ (proj1 W)) as Hlast.
    rewrite successes_cons.
    destruct Hcase as [(-> & Hl1 & _)|(-> & Hl1 & _)].
    + rewrite decide_False by lia. rewrite Hl1 in *. split_and!; try done.
      intros id [->|Hin]%elem_of_cons; [left; done|]. apply Hall. done.
    + rewrite decide_True by lia. rewrite Hl1 in *. split_and!; try done.
      * intros [|n] id; simpl; [intros [= <-]; lia|].
        intros Hn'. apply Hn in Hn'. lia.
      * intros id [->|Hin]%elem_of_cons; [right; lia|].
        apply Hall in Hin. lia.
      * simpl. lia.
Qed.

(** C7. String ids are handed out sequentially from 1: in any sequence of
    calls on a fresh tree the [n]-th successful one returns [n], whatever
    failed calls lie in between; every returned value is either the failure
    value [-1] or positive, so 0 is never an id; the counter ends at the
    number of successes and the registry holds exactly the ids up to it.
    For a single call on a reachable state: a failure leaves the counter
    where it was and no registry entry under the id it tried, a success
    returns the counter's new value and registers the string under it. *)
Theorem addString_sequential_ids fuel ws st ids :
  run fuel empty_tree ws = Ok (st, ids) →
  (∀ n id, successes ids !! n = Some id → id = Z.of_nat (S n))
  ∧ (∀ id, id ∈ ids → id = -1 ∨ 0 < id)
  ∧ last_index st = Z.of_nat (length (successes ids))
  ∧ (∀ k, is_Some (haystack st !! k) ↔ 1 ≤ k ≤ last_index st)
  ∧ (∀ fuel' w st' id, addString fuel' st w = Ok (st', id) →
       (id = -1 ∧ last_index st' = last_index st
        ∧ haystack st' !! (last_index st + 1) = None)
       ∨ (id = last_index st + 1 ∧ last_index st' = id
          ∧ haystack st' !! id = Some w)).
Proof.
  intros H.
  assert (W0 : wf empty_tree) by (apply reachable_wf, reachable_empty).
  assert (Hdom0 : ∀ k, is_Some (haystack empty_tree !! k)
                       ↔ 1 ≤ k ≤ last_index empty_tree).
  { intros k. simpl. rewrite lookup_empty. split; [intros [? ?]; done|lia]. }
  destruct (run_ids _ _ _ _ _ W0 Hdom0 H) as (Hn & Hall & Hl & Hd).
  simpl in Hn, Hall, Hl.
  split; [exact Hn|]. split; [exact Hall|]. split; [exact Hl|].
  split; [exact Hd|].
  intros fuel' w st' id Ha.
  {
    assert (W : wf st).
    { apply reachable_wf. eapply run_reachable; [apply reachable_empty|done]. }
    apply addString_registry in Ha; tauto. }
Qed.

Lemma addString_sequential_ids_witness :
  run 64 empty_tree [str "xx"; str "x"; str "ab"]
  = Ok (tree_after [str "xx"; str "x"; str "ab"], [1; -1; 2])
  ∧ last_index (tree_after [str "xx"; str "x"; str "ab"])
    = Z.of_nat (length (successes [1; -1; 2])).
Proof.
  assert (H : run 64 empty_tree [str "xx"; str "x"; str "ab"]
              = Ok (tree_after [str "xx"; str "x"; str "ab"], [1; -1; 2])).
  { vm_compute. reflexivity. }
  split; [exact H|].
  apply (addString_sequential_ids _ _ _ _ H).
Defined.

(** C8. After a successful [addString], every node made by an edge split
    during that call (the [Node] objects at addresses the call allocated)
    has a non-null suffix link, and the link points to a node reachable
    from the root; the root's suffix link is still the sink and the sink's
    is still the root.  The links are already in place when the [update]
    that made the node returns: after any [update] on a well-formed tree,
    every [Node] it allocated has its suffix link, and the root and the
    sink still point to each other. *)
Theorem suffix_links_complete st fuel w st' id :
  reachable st → addString fuel st w = Ok (st', id) → 0 < id →
  (∀ a nd, (brk st ≤ a)%nat → store st' !! a = Some nd → cls nd = IsNode →
     ∃ q, suffix_link nd = Some q ∧ reachable_node (store st') q)
  ∧ (∃ nd, store st' !! root_addr = Some nd ∧ suffix_link nd = sink)
  ∧ (∃ nd, store st' !! sink_addr = Some nd ∧ suffix_link nd = root)
  ∧ (∀ fuel' st1 s ki st2 sk, wf st1 → update fuel' st1 s ki = Ok (st2, sk) →
       (∀ a nd, (brk st1 ≤ a)%nat → store st2 !! a = Some nd →
                cls nd = IsNode → suffix_link nd ≠ None)
       ∧ (∃ nd, store st2 !! root_addr = Some nd ∧ suffix_link nd = sink)
       ∧ (∃ nd, store st2 !! sink_addr = Some nd ∧ suffix_link nd = root)).
Proof.
  intros R H Hid. apply reachable_wf in R.
  apply addString_shape in H; [|done]. destruct H as [[W' L'] _].
  split; [|split; [|split]].
  - intros a nd Ha Hnd Hc.
    pose proof (wf_brk _ (proj1 R)) as Hb.
    assert (2 ≤ a)%nat as H2 by lia.
    destruct (suffix_link nd) as [q|] eqn:Hq.
    + exists q. split; [done|].
      pose proof (wf_link _ W' _ _ _ Hnd H2 Hq) as Hqr.
      destruct (decide (q = root_addr)) as [->|Hne]; [apply rtc_refl|].
      apply (wf_reach _ W'). unfold root_addr in *. lia.
    + exfalso. eapply (L' a nd); try done. apply not_elem_of_nil.
  - destruct (wf_root _ W') as (nd & Hnd & _ & Hl). eauto.
  - eexists. split; [apply (wf_sink _ W')|done].
  - intros fuel' st1 s ki st2 sk W1 Hu.
    apply update_shape in Hu; [|done]. destruct Hu as [[W2 L2] _].
    pose proof (wf_brk _ (proj1 W1)) as Hb.
    split; [|split].
    + intros a nd Ha Hnd Hc.
      eapply (L2 a nd); try done; [lia|apply not_elem_of_nil].
    + destruct (wf_root _ W2) as (nd & Hnd & _ & Hl). eauto.
    + eexists. split; [apply (wf_sink _ W2)|done].
Qed.

Lemma suffix_links_complete_witness :
  ∃ nd q, store (tree_after [str "abac"]) !! 4%nat = Some nd
          ∧ cls nd = IsNode ∧ suffix_link nd = Some q
          ∧ reachable_node (store (tree_after [str "abac"])) q.
Proof.
  assert (H : addString 64 empty_tree (str "abac")
              = Ok (tree_after [str "abac"], 1)).
  { vm_compute. reflexivity. }
  assert (H4 : ∃ nd, store (tree_after [str "abac"]) !! 4%nat = Some nd
                     ∧ cls nd = IsNode).
  { eexists. split; vm_compute; reflexivity. }
  destruct H4 as (nd & H4 & Hc).
  destruct (suffix_links_complete empty_tree 64 (str "abac") _ 1
              reachable_empty H ltac:(lia)) as (Hall & _).
  destruct (Hall 4%nat nd (le_S _ _ (le_S _ _ (le_n 2))) H4 Hc)
    as (q & Hq & Hr).
  exists nd, q.
  split; [exact H4|]. split; [exact Hc|]. split; [exact Hq|exact Hr].
Defined.

(** * The sink *)

(** C4, as stated, at the empty tree and the symbol [a]: the sink's lookup
    does return a transition to the root, but its substring reference is
    [(0, 0, 0)], which has [r = l] and so is not empty under the
    convention. *)
Lemma sink_lookup_not_empty :
  ¬ ∃ t, sink_lookup empty_tree 97 = Ok t ∧ tgt t = root
         ∧ is_empty_substring (sub t).
Proof.
  intros (t & H & _ & He). vm_compute in H. injection H as <-.
  unfold is_empty_substring in He. simpl in He. lia.
Qed.

(** C4, amended. In every reachable state and for every symbol, whether or
    not it ever occurred in an inserted string, the sink's lookup returns a
    transition whose target is the root and whose substring reference is
    [(0, 0, 0)]: a reference with [r = l], one symbol long, and so not
    empty under the convention that [r < l] denotes the empty substring. *)
Theorem sink_lookup_total st alpha :
  reachable st →
  ∃ t, sink_lookup st alpha = Ok t ∧ tgt t = root
       ∧ sub t = MappedSubstring 0 0 0
       ∧ ¬ is_empty_substring (sub t)
       ∧ r (sub t) - l (sub t) + 1 = 1.
Proof.
  intros R. apply reachable_wf in R. destruct R as [W _].
  eexists. split.
  - unfold sink_lookup, sink. rewrite (deref_Some _ _ _ (wf_sink _ W)).
    rewrite bind_Ok_l. rewrite find_sink by done. reflexivity.
  - simpl. unfold is_empty_substring. simpl. split_and!; try done; lia.
Qed.

Lemma sink_lookup_total_witness :
  ∃ t, sink_lookup (tree_after [str "abac"]) 122 = Ok t ∧ tgt t = root
       ∧ sub t = MappedSubstring 0 0 0
       ∧ ¬ is_empty_substring (sub t)
       ∧ r (sub t) - l (sub t) + 1 = 1.
Proof.
  apply (sink_lookup_total (tree_after [str "abac"]) 122).
  apply tree_after_reachable.
Defined.

(** * test_and_split *)

(** C5. [test_and_split(n, kp, t)] on a live node [n] of a well-formed tree.
    - If [kp] is empty, the call changes nothing, outputs [n], and reports
      "is endpoint" exactly when [n] has a transition for [t].
    - If [kp] is not empty, let [tr] be the transition of [n] for the first
      symbol [tk] of [kp] and [c] the symbol at offset [delta + 1] along it,
      [delta = kp.r - kp.l].  If [c = t] the call reports "is endpoint",
      outputs [n] and changes nothing.  Otherwise it reports "not endpoint"
      and outputs a new node, the only one it allocates: a [Node] whose
      single transition is the tail of [tr], from offset [delta + 1] on,
      with the target of [tr]; the transition of [n] for [tk] now ends
      after [delta + 1] symbols at the new node; [tr] was stored in [n], and
      everything else is as before.
    - In every case at most one node is allocated, no node other than [n]
      is modified, and [n] keeps its class, its suffix link and all its
      transitions other than the one for [tk]. *)
Theorem test_and_split_spec st na nd kp t w tk :
  wf_core st → store st !! na = Some nd → at_ w (l kp) = Ok tk →
  (r kp < l kp →
     ∃ b, test_and_split st (Some na) kp t w = Ok (st, b, Some na)
          ∧ (b = true ↔ has_transition nd t))
  ∧ (∀ sp c, l kp ≤ r kp →
       let tr := find_alpha_transition nd tk in
       let delta := r kp - l kp in
       haystack st !! ref_str (sub tr) = Some sp →
       at_ sp (l (sub tr) + delta + 1) = Ok c →
       (c = t → test_and_split st (Some na) kp t w = Ok (st, true, Some na))
       ∧ (c ≠ t →
            ∃ st', test_and_split st (Some na) kp t w
                   = Ok (st', false, Some (brk st))
              ∧ brk st' = S (brk st)
              ∧ store st' !! brk st
                = Some (MkNode IsNode
                          {[ c := Transition
                                    (MappedSubstring (ref_str (sub tr))
                                       (l (sub tr) + (delta + 1)) (r (sub tr)))
                                    (tgt tr) ]}
                          None)
              ∧ store st' !! na
                = Some (MkNode (cls nd)
                          (<[tk := Transition
                                     (MappedSubstring (ref_str (sub tr))
                                        (l (sub tr)) (l (sub tr) + delta))
                                     (Some (brk st))]> (g nd))
                          (suffix_link nd))
              ∧ (∀ a, a ≠ na → a ≠ brk st → store st' !! a = store st !! a)
              ∧ g nd !! tk = Some tr
              ∧ haystack st' = haystack st ∧ last_index st' = last_index st))
  ∧ (∀ st' ep r', test_and_split st (Some na) kp t w = Ok (st', ep, r') →
       (brk st ≤ brk st' ≤ S (brk st))%nat
       ∧ (∀ a, (a < brk st)%nat → a ≠ na → store st' !! a = store st !! a)
       ∧ ∃ nd', store st' !! na = Some nd' ∧ cls nd' = cls nd
                ∧ suffix_link nd' = suffix_link nd
                ∧ ∀ k, k ≠ tk → g nd' !! k = g nd !! k).
Proof.
  intros W Ha Htk.
  assert (Hlt : (na < brk st)%nat) by (apply (wf_dom _ W); eauto).
  split; [|split].
  - intros Hemp. eexists. split.
    + apply (test_and_split_empty st na nd kp t w tk); done.
    + rewrite bool_decide_eq_true. eapply find_tgt_has_transition; eauto.
  - intros sp c Hne tr delta Hsp Hc.
    pose proof (test_and_split_nonempty st na nd kp t w tk sp c
                  Ha Hlt Htk Hne Hsp Hc) as Heq.
    split; intros Hct.
    + rewrite decide_True in Heq by done. exact Heq.
    + rewrite decide_False in Heq by done. eexists. split; [exact Heq|].
      split; [reflexivity|].
      split. { rewrite split_edge_lookup by done.
               rewrite decide_False by lia. rewrite decide_True by done.
               rewrite insert_empty. reflexivity. }
      split. { rewrite split_edge_lookup by done.
               rewrite decide_True by done. reflexivity. }
      split. { intros a H1 H2. rewrite split_edge_lookup by done.
               rewrite !decide_False by done. reflexivity. }
      split; [|done].
      pose proof (wf_hay _ W _ _ Hsp) as Hk. subst tr.
      destruct (decide (cls nd = IsSinkNode)) as [Hs|Hs].
      * rewrite find_sink in Hk by done. simpl in Hk. lia.
      * rewrite find_stored in * by done.
        destruct (g nd !! tk); [done|]. simpl in Hk. lia.
  - intros st' ep r' H.
    destruct (test_and_split_inv _ _ _ _ _ _ _ _ W H)
      as (na' & nd0 & tk0 & [= <-] & Ha' & Htk' & Hcase).
    rewrite Ha in Ha'. injection Ha' as <-.
    rewrite Htk in Htk'. injection Htk' as <-.
    destruct Hcase as [(_ & -> & _)
                      |(_ & sp & c & _ & _ & [(_ & -> & _)|(_ & _ & _ & ->)])].
    + split; [lia|]. split; [done|]. exists nd. done.
    + split; [lia|]. split; [done|]. exists nd. done.
    + split; [simpl; lia|]. split.
      * intros a Hab Hna. rewrite split_edge_lookup by done.
        rewrite !decide_False by (done || lia). reflexivity.
      * eexists. rewrite split_edge_lookup by done.
        rewrite decide_True by done. split; [reflexivity|]. simpl.
        split_and!; try done. intros k Hk. by rewrite lookup_insert_ne.
Qed.

Lemma test_and_split_spec_witness :
  ∃ st', test_and_split (tree_after [str "aba"]) root
           (MappedSubstring 1 2 2) 99 (str "abac")
         = Ok (st', false, Some 4%nat)
         ∧ brk st' = 5%nat.
Proof.
  assert (W : wf_core (tree_after [str "aba"])).
  { apply reachable_wf, tree_after_reachable. }
  assert (Hr : ∃ nd, store (tree_after [str "aba"]) !! root_addr = Some nd).
  { eexists. vm_compute. reflexivity. }
  destruct Hr as [nd Hr].
  assert (Htk : at_ (str "abac") (l (MappedSubstring 1 2 2)) = Ok 97).
  { vm_compute. reflexivity. }
  destruct (test_and_split_spec _ _ _ (MappedSubstring 1 2 2) 99
              (str "abac") 97 W Hr Htk) as (_ & Hsplit & _).
  assert (Hnd : nd = default (MkNode IsNode ∅ None)
                       (store (tree_after [str "aba"]) !! root_addr)).
  { rewrite Hr. reflexivity. }
  destruct (Hsplit (str "aba") 98 ltac:(simpl; lia)
              ltac:(rewrite Hnd; vm_compute; reflexivity)
              ltac:(rewrite Hnd; vm_compute; reflexivity))
    as (_ & Hne).
  destruct (Hne ltac:(lia)) as (st' & Hts & Hbrk & _).
  exists st'. split; [exact Hts|]. rewrite Hbrk. vm_compute. reflexivity.
Defined.

(** * canonize *)

Lemma canonize_loop_exit fuel st w s kp tk :
  r kp - l kp < r (sub tk) - l (sub tk) →
  canonize_loop fuel st w s kp tk = Ok (s, (ref_str kp, l kp)).
Proof.
  intros H. destruct fuel; simpl;
    destruct (Z.leb_spec (r (sub tk) - l (sub tk)) (r kp - l kp));
    (lia || reflexivity).
Qed.

Lemma at_Ok_nonneg w i c : at_ w i = Ok c → 0 ≤ i.
Proof. unfold at_. destruct (Z.ltb_spec i 0); [discriminate|done]. Qed.

Lemma along_node st w s k i :
  along st w s k i → k ≤ i →
  ∃ nd c, node_at st s = Some nd ∧ at_ w k = Ok c.
Proof. intros H Hki. destruct H; [lia|eauto|eauto]. Qed.

Lemma node_at_deref st s nd : node_at st s = Some nd → deref st s = Ok nd.
Proof. destruct s as [a|]; [|done]. simpl. apply deref_Some. Qed.

Lemma canonize_loop_spec st w id i s k :
  along st w s k i → k ≤ i →
  ∀ fuel nd c,
  node_at st s = Some nd → at_ w k = Ok c →
  (Z.to_nat (i - k + 1) ≤ fuel)%nat →
  ∃ s' k',
    canonize_loop fuel st w s (MappedSubstring id k i)
      (find_alpha_transition nd c) = Ok (s', (id, k'))
    ∧ descends st w i s k s' k' ∧ canonical st w s' k' i ∧ k ≤ k' ≤ i + 1.
Proof.
  induction 1 as [s k i Hemp
                 |s k i nd0 c0 Hki Hnd0 Hc0 Hpos Hint Hin
                 |s k i nd0 c0 Hki Hnd0 Hc0 Hpos Hcov Hrest IH];
    intros Hle fuel nd c Hnd Hc Hfuel.
  - lia.
  - rewrite Hnd in Hnd0. injection Hnd0 as <-.
    rewrite Hc in Hc0. injection Hc0 as <-.
    exists s, k. split; [apply canonize_loop_exit; simpl; lia|].
    split; [apply descends_refl|]. split; [|lia].
    right. exists nd, c. split_and!; try done. lia.
  - rewrite Hnd in Hnd0. injection Hnd0 as <-.
    rewrite Hc in Hc0. injection Hc0 as <-.
    set (tr := find_alpha_transition nd c) in *.
    set (delta := r (sub tr) - l (sub tr)) in *.
    destruct fuel as [|fuel]; [lia|].
    cbn [canonize_loop]. cbn [l r ref_str].
    fold delta.
    destruct (Z.leb_spec delta (i - k)); [|lia].
    replace (k + (1 + delta)) with (k + (delta + 1)) by lia.
    destruct (Z.leb_spec (k + (delta + 1)) i) as [Hmore|Hdone].
    + destruct (along_node _ _ _ _ _ Hrest Hmore) as (nd1 & c1 & Hnd1 & Hc1).
      rewrite Hc1, bind_Ok_l. rewrite (node_at_deref _ _ _ Hnd1), bind_Ok_l.
      destruct (IH Hmore fuel nd1 c1 Hnd1 Hc1 ltac:(lia))
        as (s' & k' & Hrun & Hdesc & Hcan & Hk').
      exists s', k'. split; [exact Hrun|].
      split; [|split; [exact Hcan|lia]].
      eapply descends_step; eauto. fold tr. fold delta. lia.
    + exists (tgt tr), (k + (delta + 1)).
      split; [apply canonize_loop_exit; simpl; fold delta; lia|].
      split; [|split; [left; lia|lia]].
      eapply descends_step; eauto; fold tr; fold delta; [lia|].
      apply descends_refl.
Qed.

(** C6. Let the substring [kp] lie along an existing path below node [s]
    (at every node on the way, a transition of positive length exists for
    the current first symbol), and let its right end be below [INT_MAX], so
    that no position the loop computes by [kp.l += 1 + delta] leaves the
    [int] range.  Then [canonize(s, kp)] terminates (any fuel of at least
    the length of [kp] suffices) and returns a reference point [(s', k')]
    that denotes the same position, being reached from [(s, kp)] by
    repeatedly replacing the node by the target of the transition for the
    first symbol and dropping that transition's length from the front of
    the substring, each time only if the substring is at least that long;
    and [(s', (k', kp.r))] is canonical: the remaining substring is empty,
    or strictly shorter than the transition of [s'] for its first symbol.
    The position returned for a non-empty substring is between [kp.l] and
    [kp.r + 1], hence an [int]. *)
Theorem canonize_spec st s kp w fuel :
  (l kp ≤ r kp → haystack st !! ref_str kp = Some w) →
  along st w s (l kp) (r kp) →
  r kp < INT_MAX →
  (Z.to_nat (r kp - l kp + 1) ≤ fuel)%nat →
  ∃ s' k',
    canonize fuel st s kp = Ok (s', (ref_str kp, k'))
    ∧ descends st w (r kp) s (l kp) s' k'
    ∧ canonical st w s' k' (r kp)
    ∧ (l kp ≤ r kp → l kp ≤ k' ≤ r kp + 1 ∧ 0 ≤ k' ≤ INT_MAX).
Proof.
  intros Hw Hal Hmax Hfuel. unfold canonize.
  destruct (Z.ltb_spec (r kp) (l kp)) as [Hemp|Hne].
  - exists s, (l kp). split; [done|]. split; [apply descends_refl|].
    split; [left; done|lia].
  - destruct (along_node _ _ _ _ _ Hal Hne) as (nd & c & Hnd & Hc).
    pose proof (at_Ok_nonneg _ _ _ Hc) as Hl0.
    rewrite (proj2 (hay_Ok _ _ _) (Hw Hne)), bind_Ok_l.
    rewrite Hc, bind_Ok_l. rewrite (node_at_deref _ _ _ Hnd), bind_Ok_l.
    destruct (canonize_loop_spec st w (ref_str kp) _ _ _ Hal Hne
                fuel nd c Hnd Hc Hfuel) as (s' & k' & Hrun & Hd & Hcan & Hk).
    exists s', k'. destruct kp as [id k i]. simpl in *.
    split; [exact Hrun|]. split; [exact Hd|]. split; [exact Hcan|].
    intros _. lia.
Qed.

Lemma canonize_spec_witness :
  ∃ s' k',
    canonize 2 (tree_after [str "aaab"]) root (MappedSubstring 1 0 1)
    = Ok (s', (1, k'))
    ∧ canonical (tree_after [str "aaab"]) (str "aaab") s' k' 1.
Proof.
  assert (Hal : along (tree_after [str "aaab"]) (str "aaab") root
                  (l (MappedSubstring 1 0 1)) (r (MappedSubstring 1 0 1))).
  { eapply along_step;
      [simpl; lia|vm_compute; reflexivity|vm_compute; reflexivity
      |vm_compute; discriminate|vm_compute; discriminate|].
    eapply along_step;
      [vm_compute; discriminate|vm_compute; reflexivity|vm_compute; reflexivity
      |vm_compute; discriminate|vm_compute; discriminate|].
    apply along_empty. vm_compute. reflexivity. }
  destruct (canonize_spec (tree_after [str "aaab"]) root
              (MappedSubstring 1 0 1) (str "aaab") 2
              ltac:(intros _; vm_compute; reflexivity) Hal
              ltac:(vm_compute; reflexivity)
              ltac:(simpl; lia))
    as (s' & k' & Hrun & _ & Hcan & _).
  exists s', k'. split; [exact Hrun|exact Hcan].
Defined.

(** * Base::clean *)

(** The targets pushed for one node are the addresses of its children, each
    once. *)
Lemma children_list iter st a nd :
  enumerates iter → wf_core st → store st !! a = Some nd →
  ∃ bs, map (λ it : Z * transition, tgt it.2) (iter (g nd)) = Some <$> bs
        ∧ NoDup bs ∧ ∀ b, b ∈ bs ↔ child (store st) a b.
Proof.
  intros Hiter W Ha.
  exists ((λ it : Z * transition, default 0%nat (tgt it.2)) <$> iter (g nd)).
  assert (Hmem : ∀ k t, (k, t) ∈ iter (g nd) ↔ g nd !! k = Some t).
  { intros k t. rewrite (Hiter (g nd)). apply elem_of_map_to_list. }
  assert (Hsome : ∀ it, it ∈ iter (g nd) →
                        tgt it.2 = Some (default 0%nat (tgt it.2))).
  { intros [k t] Hin. apply Hmem in Hin. simpl.
    pose proof (wf_nonnull _ W _ _ _ _ Ha Hin). destruct (tgt t); done. }
  split; [|split].
  - rewrite <- list_fmap_compose. apply list_fmap_ext.
    intros i it Hi. simpl. apply Hsome. eapply list_elem_of_lookup_2; eauto.
  - apply NoDup_fmap_2_strong;
      [|rewrite (Hiter (g nd)); apply NoDup_map_to_list].
    intros [k1 t1] [k2 t2] H1 H2 Heq.
    pose proof (Hsome _ H1) as E1. pose proof (Hsome _ H2) as E2.
    apply Hmem in H1, H2. simpl in *.
    assert (tedge (store st) a k1 (default 0%nat (tgt t1))) as T1
      by (exists nd, t1; done).
    assert (tedge (store st) a k2 (default 0%nat (tgt t1))) as T2
      by (exists nd, t2; rewrite Heq; done).
    destruct (wf_parent _ W _ _ _ _ _ T1 T2) as [_ <-]. congruence.
  - intros b. rewrite list_elem_of_fmap. split.
    + intros ([k t] & -> & Hin). pose proof (Hsome _ Hin) as E.
      apply Hmem in Hin. exists k, nd, t. done.
    + intros (k & nd' & t & Ha' & Hk & Ht). rewrite Ha in Ha'.
      injection Ha' as <-. exists (k, t). simpl. rewrite Ht. split; [done|].
      by apply Hmem.
Qed.

Lemma NoDup_range_length (xs : list nat) (b : nat) :
  NoDup xs → (∀ x, x ∈ xs → (2 ≤ x < b)%nat) → (length xs ≤ b - 2)%nat.
Proof.
  intros Hnd Hr.
  assert (xs ⊆+ seq 2 (b - 2)) as Hsub.
  { apply NoDup_submseteq; [done|]. intros x Hx. apply elem_of_seq.
    apply Hr in Hx. lia. }
  apply submseteq_length in Hsub. rewrite length_seq in Hsub. done.
Qed.

Lemma closed_under_children_all st (F : list nat) :
  wf_core st →
  (∀ p b, p = root_addr ∨ p ∈ F → child (store st) p b → b ∈ F) →
  ∀ a, (2 ≤ a < brk st)%nat → a ∈ F.
Proof.
  intros W Hcl a Ha.
  assert (Hreach : ∀ b, rtc (child (store st)) root_addr b →
                        b = root_addr ∨ b ∈ F).
  { intros b Hb. revert b Hb.
    apply (rtc_ind_r (λ b, b = root_addr ∨ b ∈ F)); [left; done|].
    intros y z _ Hyz IHy. right. apply (Hcl y z); done. }
  destruct (Hreach a (wf_reach _ W a Ha)) as [->|]; [|done].
  unfold root_addr in Ha. lia.
Qed.

(** The invariant of the worklist loop: [F] are the nodes freed so far and
    [Wn] the worklist; together they hold no node twice, every one of them
    is an allocated node whose parent has been visited, the store lacks
    exactly the freed nodes, and the children of every visited node are in
    one of the two lists. *)
Lemma clean_loop_spec iter st :
  enumerates iter → wf_core st →
  ∀ n fuel h Wn F,
  (brk st - 2 - length F ≤ n)%nat → (n < fuel)%nat →
  NoDup (F ++ Wn) →
  (∀ a, a ∈ F ++ Wn →
        (2 ≤ a < brk st)%nat
        ∧ ∃ p, child (store st) p a ∧ (p = root_addr ∨ p ∈ F)) →
  (∀ a, h !! a = if decide (a ∈ F) then None else store st !! a) →
  (∀ p b, p = root_addr ∨ p ∈ F → child (store st) p b → b ∈ F ++ Wn) →
  ∃ h' F',
    clean_loop iter fuel h (Some <$> Wn) F = Ok (h', F')
    ∧ NoDup F' ∧ (∀ a, a ∈ F' ↔ (2 ≤ a < brk st)%nat)
    ∧ (∀ a, h' !! a = if decide (a ∈ F') then None else store st !! a).
Proof.
  intros Hiter W. induction n as [|n IH]; intros fuel h Wn F Hn Hfuel Hnd Hin Hh Hcl.
  all: destruct Wn as [|a rest].
  1,3: exists h, F; split; [destruct fuel; reflexivity|];
       rewrite app_nil_r in *; split; [done|]; split; [|done];
       intros a; split; [intros Ha; apply Hin; done|];
       apply closed_under_children_all; done.
  - (* no room left for a worklist entry *)
    exfalso. pose proof (NoDup_range_length _ (brk st) Hnd
                           (λ x Hx, proj1 (Hin x Hx))) as Hlen.
    rewrite length_app in Hlen. simpl in Hlen. lia.
  - destruct fuel as [|fuel]; [lia|].
    assert (Hain : a ∈ F ++ a :: rest).
    { apply elem_of_app. right. apply list_elem_of_here. }
    destruct (Hin a Hain) as [Har _].
    assert (HaF : a ∉ F).
    { apply NoDup_app in Hnd as (_ & Hdis & _). intros HF.
      apply (Hdis a HF). apply list_elem_of_here. }
    assert (is_Some (store st !! a)) as [nd Hnda].
    { apply (wf_dom _ W). lia. }
    destruct (children_list iter st a nd Hiter W Hnda)
      as (bs & Hbs & Hbnd & Hbc).
    assert (Hdisj : ∀ b, b ∈ bs → b ∉ F ++ a :: rest).
    { intros b Hb Hbin. apply Hbc in Hb as [k Hk].
      destruct (Hin b Hbin) as [_ (p & [k' Hk'] & Hp)].
      destruct (wf_parent _ W _ _ _ _ _ Hk Hk') as [<- _].
      destruct Hp as [->|Hp]; [unfold root_addr in Har; lia|done]. }
    assert (Hstep : clean_loop iter (S fuel) h (Some <$> a :: rest) F
                    = clean_loop iter fuel (delete a h) (Some <$> rest ++ bs)
                        (F ++ [a])).
    { cbn [fmap list_fmap clean_loop]. rewrite Hh.
      rewrite decide_False by done. rewrite Hnda.
      rewrite bool_decide_true
        by (unfold root, root_addr; intros [= <-]; lia).
      rewrite Hbs. rewrite fmap_app. reflexivity. }
    rewrite Hstep.
    assert (Heq : (F ++ [a]) ++ rest ++ bs = (F ++ a :: rest) ++ bs).
    { rewrite <- !app_assoc. reflexivity. }
    apply IH.
    + rewrite length_app. simpl.
      pose proof (NoDup_range_length _ (brk st) Hnd
                    (λ x Hx, proj1 (Hin x Hx))) as Hlen.
      rewrite length_app in Hlen. simpl in Hlen. lia.
    + lia.
    + rewrite Heq. apply NoDup_app. split; [done|]. split; [|done].
      intros x Hx Hxb. apply (Hdisj x Hxb Hx).
    + intros x. rewrite Heq. intros [Hx|Hx]%elem_of_app.
      * destruct (Hin x Hx) as [Hxr (p & Hp & Hpv)]. split; [done|].
        exists p. split; [done|]. destruct Hpv as [->|Hpv]; [left; done|].
        right. apply elem_of_app. left. done.
      * split.
        -- apply Hbc in Hx as [k Hk]. pose proof (wf_tgt _ W _ _ _ Hk). lia.
        -- exists a. split; [apply Hbc; done|]. right. apply elem_of_app.
           right. apply list_elem_of_here.
    + intros x. destruct (decide (x = a)) as [->|Hne].
      * rewrite lookup_delete_eq. rewrite decide_True; [done|].
        apply elem_of_app. right. apply list_elem_of_here.
      * rewrite lookup_delete_ne by done. rewrite Hh.
        destruct (decide (x ∈ F)) as [HxF|HxF].
        -- rewrite decide_True; [done|]. apply elem_of_app. left. done.
        -- rewrite decide_False; [done|].
           intros [?|Hx]%elem_of_app; [done|].
           apply list_elem_of_singleton in Hx. done.
    + intros p b Hp Hpb. rewrite Heq.
      destruct (decide (p = a)) as [->|Hne].
      * apply elem_of_app. right. apply Hbc. done.
      * apply elem_of_app. left. apply (Hcl p b); [|done].
        destruct Hp as [->|Hp]; [left; done|].
        apply elem_of_app in Hp as [Hp|Hp]; [right; done|].
        apply list_elem_of_singleton in Hp. done.
Qed.

(** C9. [clean] is the worklist traversal of the source: starting with the
    root alone in the list, it takes the first node, appends the targets of
    all its transitions, and deletes the node unless it is the root.  On
    every state reachable by insertions, successful or failed, and whatever
    the order in which the transitions of a node are enumerated, it runs to
    completion without touching a deleted object, and the addresses it
    passes to [delete], in order, contain every allocated node (the
    addresses from 2 up to the allocation mark) exactly once and neither
    the root nor the sink; afterwards the store holds the root and the sink
    as they were and nothing else. *)
Theorem clean_frees_each_node_once iter st fuel :
  enumerates iter → reachable st → (brk st ≤ fuel)%nat →
  ∃ h' freed,
    clean iter fuel st = Ok (h', freed)
    ∧ NoDup freed
    ∧ freed ≡ₚ seq 2 (brk st - 2)
    ∧ (root_addr ∉ freed) ∧ (sink_addr ∉ freed)
    ∧ h' !! root_addr = store st !! root_addr
    ∧ h' !! sink_addr = store st !! sink_addr
    ∧ (∀ a, (2 ≤ a)%nat → h' !! a = None).
Proof.
  intros Hiter R Hfuel. apply reachable_wf in R. destruct R as [W _].
  pose proof (wf_brk _ W) as Hb.
  destruct (wf_root _ W) as (rn & Hrn & _).
  destruct (children_list iter st root_addr rn Hiter W Hrn)
    as (bs & Hbs & Hbnd & Hbc).
  destruct fuel as [|fuel]; [lia|].
  assert (Hstep : clean iter (S fuel) st
                  = clean_loop iter fuel (store st) (Some <$> bs) []).
  { unfold clean. cbn [clean_loop]. unfold root at 1. rewrite Hrn.
    rewrite bool_decide_false by (intros Hn; apply Hn; reflexivity).
    rewrite Hbs. reflexivity. }
  destruct (clean_loop_spec iter st Hiter W (brk st - 2) fuel (store st) bs [])
    as (h' & F' & Hrun & HF & Hmem & Hh'); simpl; try lia; try done.
  - intros a Ha. split.
    + apply Hbc in Ha as [k Hk]. pose proof (wf_tgt _ W _ _ _ Hk). lia.
    + exists root_addr. split; [apply Hbc; done|left; done].
  - intros p b [->|Hp] Hpb; [apply Hbc; done|].
    by apply elem_of_nil in Hp.
  - exists h', F'. rewrite Hstep. split; [exact Hrun|]. split; [done|].
    split. { apply NoDup_Permutation; [done|apply NoDup_seq|].
             intros a. rewrite Hmem, elem_of_seq. lia. }
    split. { rewrite Hmem. unfold root_addr. lia. }
    split. { rewrite Hmem. unfold sink_addr. lia. }
    split. { rewrite Hh'. rewrite decide_False; [done|].
             rewrite Hmem. unfold root_addr. lia. }
    split. { rewrite Hh'. rewrite decide_False; [done|].
             rewrite Hmem. unfold sink_addr. lia. }
    intros a Ha. rewrite Hh'. destruct (decide (a ∈ F')) as [|Hn]; [done|].
    destruct (store st !! a) eqn:E; [|done]. exfalso. apply Hn, Hmem.
    split; [done|]. apply (wf_dom _ W). eauto.
Qed.

Lemma clean_frees_each_node_once_witness :
  ∃ h' freed,
    clean map_to_list 7 (tree_after [str "abac"; str "a"]) = Ok (h', freed)
    ∧ freed ≡ₚ [2; 3; 4; 5; 6]%nat.
Proof.
  assert (Hb : brk (tree_after [str "abac"; str "a"]) = 7%nat).
  { vm_compute. reflexivity. }
  destruct (clean_frees_each_node_once map_to_list
              (tree_after [str "abac"; str "a"]) 7
              (λ m, reflexivity (map_to_list m))
              (tree_after_reachable _)
              (eq_ind_r (λ n, (n ≤ 7)%nat) (le_n 7) Hb))
    as (h' & freed & Hrun & _ & Hperm & _).
  exists h', freed. split; [exact Hrun|].
  rewrite Hb in Hperm. exact Hperm.
Defined.

(** * Insertions that go wrong *)

(** A non-empty word read from a node starts along one of its stored
    transitions: the word and the label of that transition agree as far as
    both go. *)
Lemma path_reads_first st n u :
  path_reads st n u → u ≠ [] →
  ∃ nd c t lab, store st !! n = Some nd ∧ g nd !! c = Some t
                ∧ resolve st (sub t) = Some lab
                ∧ (u `prefix_of` lab ∨ lab `prefix_of` u).
Proof.
  intros H Hne. destruct H as [n|n nd c t lab u Hn Hc Hl Hp
                              |n nd c t lab m u Hn Hc Hl Ht Hrest].
  - done.
  - exists nd, c, t, lab. split_and!; try done. left. done.
  - exists nd, c, t, lab. split_and!; try done. right. by exists u.
Qed.

Lemma no_way_sound st n nd u :
  store st !! n = Some nd → u ≠ [] → no_way st nd u = true →
  ¬ path_reads st n u.
Proof.
  intros Hn Hne Hno Hp.
  destruct (path_reads_first _ _ _ Hp Hne) as (nd' & c & t & lab & Hn' & Hc
                                               & Hl & Hpre).
  rewrite Hn in Hn'. injection Hn' as <-.
  unfold no_way in Hno. rewrite forallb_forall in Hno.
  assert (Hin : In (c, t) (map_to_list (g nd))).
  { apply list_elem_of_In. by apply elem_of_map_to_list. }
  apply Hno in Hin. simpl in Hin. rewrite Hl in Hin.
  unfold diverge in Hin. apply andb_true_iff in Hin as [H1 H2].
  apply negb_true_iff, bool_decide_eq_false in H1, H2. tauto.
Qed.

Lemma path_exact_reads st n u : path_exact st n u → path_reads st n u.
Proof.
  induction 1 as [n|n nd c t lab m u Hn Hc Hl Ht _ IH];
    [apply path_nil|eapply path_step; eauto].
Qed.

(** C1 on [addString("aa"); addString("aaab")]: both calls succeed, with
    ids 1 and 2, and afterwards the suffix [ab] of the second string is not
    a path from the root: no chain of stored transitions has labels that
    concatenate to it, and none has labels that begin with it either (the
    word allowed to stop inside a transition). *)
Theorem suffix_missing_after_insertion :
  ids_after [str "aa"; str "aaab"] = Some [1; 2]
  ∧ ¬ path_exact (tree_after [str "aa"; str "aaab"]) root_addr (str "ab")
  ∧ ¬ path_reads (tree_after [str "aa"; str "aaab"]) root_addr (str "ab").
Proof.
  split; [vm_compute; reflexivity|].
  cut (¬ path_reads (tree_after [str "aa"; str "aaab"]) root_addr (str "ab")).
  { intros H. split; [|exact H]. intros He. apply H.
    apply path_exact_reads. exact He. }
  assert (Hr : ∃ nd, store (tree_after [str "aa"; str "aaab"]) !! root_addr
                     = Some nd
                     ∧ no_way (tree_after [str "aa"; str "aaab"]) nd
                         (str "ab") = true).
  { eexists. split; vm_compute; reflexivity. }
  destruct Hr as (nd & Hnd & Hno).
  apply (no_way_sound _ _ _ _ Hnd); [|exact Hno].
  vm_compute. discriminate.
Qed.

(** C2 on [addString("abac"); addString("a")]: after the first call the
    root has a transition whose label is exactly [a], so the second string
    matches an existing path all the way to its end, and yet the second
    call returns the id 2 instead of the failure value.  The scenario of
    the claim itself, [addString("xx"); addString("x")], does return 1 and
    then [-1]. *)
Theorem subsumed_string_accepted :
  ids_after [str "abac"; str "a"] = Some [1; 2]
  ∧ (∃ nd t, store (tree_after [str "abac"]) !! root_addr = Some nd
             ∧ g nd !! 97 = Some t
             ∧ resolve (tree_after [str "abac"]) (sub t) = Some (str "a"))
  ∧ path_exact (tree_after [str "abac"]) root_addr (str "a")
  ∧ ids_after [str "xx"; str "x"] = Some [1; -1].
Proof.
  assert (He : ∃ nd t, store (tree_after [str "abac"]) !! root_addr = Some nd
             ∧ g nd !! 97 = Some t
             ∧ resolve (tree_after [str "abac"]) (sub t) = Some (str "a")).
  { eexists _, _. split; [vm_compute; reflexivity|].
    split; vm_compute; reflexivity. }
  split; [vm_compute; reflexivity|]. split; [exact He|].
  split; [|vm_compute; reflexivity].
  destruct He as (nd & t & Hnd & Ht & Hl).
  assert (Htgt : ∃ m, tgt t = Some m).
  { destruct (tgt t) as [m|] eqn:E; [eauto|]. exfalso.
    eapply (wf_nonnull _ (proj1 (reachable_wf _ (tree_after_reachable
                                                   [str "abac"])))); eauto. }
  destruct Htgt as [m Hm].
  rewrite <- (app_nil_r (str "a")).
  eapply exact_step; eauto. apply exact_nil.
Qed.

(** C3 on the tree of [addString("abac")] and the new string [ad], which
    [addString] registers under the id 2 before the walk: the walk follows
    the transition [a] of the root to the node at address 4, finds no
    transition for [d] there and returns the position 1; but the reference
    point it leaves is [(4, (2, 0))], with the offset 0 it was given instead
    of 1.  [addString("ad")] then resumes from that reference point and
    runs into undefined behaviour. *)
Theorem walk_leaves_stale_offset :
  get_starting_node 64
    (MkTree (store (tree_after [str "abac"])) (brk (tree_after [str "abac"]))
            (<[2 := str "ad"]> (haystack (tree_after [str "abac"]))) 2)
    (str "ad") (root, (2, 0))
  = Ok (1, (Some 4%nat, (2, 0)))
  ∧ addString 64 (tree_after [str "abac"]) (str "ad") = UB.
Proof. split; vm_compute; reflexivity. Qed.

(** * The loop of update, step by step *)

Lemma update_loop_end fuel st w c ki_r o r_ sk ki1 st' sk' :
  loop_inv st c o r_ true sk ki1 →
  update_loop fuel st w c ki_r (Some o) r_ true sk ki1 = Ok (st', sk') →
  sk' = sk
  ∧ (st' = st
     ∨ ∃ ndo sa, store st !! o = Some ndo ∧ (2 ≤ o)%nat ∧ fst sk = Some sa
                 ∧ (1 ≤ sa < brk st)%nat
                 ∧ st' = set_node st o (MkNode (cls ndo) (g ndo) (Some sa))).
Proof.
  intros (W & Ho & sa & Hsk & Hsa & Hsink & L) H.
  rewrite update_loop_endpoint in H. inv_bind H. injection H as <- <-.
  split; [done|]. rewrite Hsk in E. unfold link_unless_root in E.
  case_bool_decide as Hr.
  - right. unfold set_suffix_link in E. inv_bind E.
    apply deref_Ok in E0 as (a & [= <-] & Ha). injection E as <-.
    assert (o ≠ root_addr) as Hne by (intros ->; done).
    destruct Ho as [->|Ho]; [done|].
    exists x0, sa. split_and!; try done; try lia.
    unfold root_addr, sink_addr in *. lia.
  - injection E as <-. left. done.
Qed.

Lemma update_loop_unfold fuel st w c ki_r o r_ sk ki1 res :
  loop_inv st c o r_ false sk ki1 →
  update_loop (S fuel) st w c ki_r (Some o) r_ false sk ki1 = Ok res →
  ∃ ra nd st3 sk1 st4 ep' r',
    r_ = Some ra ∧ store st !! ra = Some nd ∧ g nd !! c = None
    ∧ (1 ≤ ra < brk st)%nat
    ∧ wf_core (attach_leaf st ra nd c
                 (MappedSubstring (ref_str ki1) ki_r INT_MAX))
    ∧ (st3 = attach_leaf st ra nd c
               (MappedSubstring (ref_str ki1) ki_r INT_MAX)
       ∨ ∃ ndo, store (attach_leaf st ra nd c
                         (MappedSubstring (ref_str ki1) ki_r INT_MAX)) !! o
                = Some ndo
                ∧ (2 ≤ o)%nat
                ∧ st3 = set_node
                          (attach_leaf st ra nd c
                             (MappedSubstring (ref_str ki1) ki_r INT_MAX))
                          o (MkNode (cls ndo) (g ndo) (Some ra)))
    ∧ wf_core st3
    ∧ (∃ sa sn, fst sk = Some sa ∧ store st3 !! sa = Some sn
                ∧ canonize fuel st3 (suffix_link sn) ki1 = Ok sk1)
    ∧ test_and_split st3 (fst sk1)
        (MappedSubstring (ref_str ki1) (snd (snd sk1)) (r ki1)) c w
      = Ok (st4, ep', r')
    ∧ loop_inv st4 c ra r' ep' sk1
        (MappedSubstring (ref_str ki1) (snd (snd sk1)) (r ki1))
    ∧ update_loop fuel st4 w c ki_r (Some ra) r' ep' sk1
        (MappedSubstring (ref_str ki1) (snd (snd sk1)) (r ki1)) = Ok res.
Proof.
  intros (W & Ho & sa & Hsk & Hsa & Hsink & ra & nd & -> & Hra & Hnd & Hc
          & Hemp & L) H.
  rewrite update_loop_step in H.
  rewrite (attach_leaf_eq st ra nd c) in H by (done || lia).
  rewrite bind_Ok_l in H.
  set (st2 := attach_leaf st ra nd c
                (MappedSubstring (ref_str ki1) ki_r INT_MAX)) in *.
  assert (W2 : wf_core st2).
  { apply attach_leaf_wf; try done. unfold sink_addr. lia. }
  assert (L2 : linked_except [o; ra] st2).
  { apply attach_leaf_linked; try done. lia. }
  assert (Hb2 : brk st2 = S (brk st)) by reflexivity.
  inv_bind H. rename x into st3.
  assert (Hst3 : st3 = st2
                 ∨ ∃ ndo, store st2 !! o = Some ndo ∧ (2 ≤ o)%nat
                          ∧ st3 = set_node st2 o
                                    (MkNode (cls ndo) (g ndo) (Some ra))).
  { pose proof E as E'. unfold link_unless_root in E'.
    case_bool_decide as Hr.
    - right. unfold set_suffix_link in E'. inv_bind E'.
      apply deref_Ok in E0 as (a & [= <-] & Ha). injection E' as <-.
      assert (o ≠ root_addr) as Hne by (intros ->; done).
      destruct Ho as [->|Ho]; [done|]. exists x. split_and!; try done. lia.
    - injection E' as <-. left. done. }
  apply (link_unless_root_shape _ _ _ _ [o; ra]) in E; try done;
    [|rewrite Hb2; lia|rewrite Hb2; lia].
  destruct E as (W3 & L3 & Hh3 & Hl3 & Hb3 & _).
  assert (L3' : linked_except [ra] st3).
  { eapply linked_except_weaken; [|exact L3].
    intros a _ [Ha1 Ha2]%list_elem_of_filter.
    apply elem_of_cons in Ha2 as [->|Ha2]; done. }
  inv_bind H. rename x into sn. rewrite Hsk in E.
  apply deref_Ok in E as (? & [= <-] & Hsn).
  inv_bind H. rename x into sk1. pose proof E as Hcan.
  destruct sk1 as [s1 [id1 k1]].
  apply canonize_node in E as [_ Hcs]; [|done].
  inv_bind H. destruct x as [[st4 ep'] r']. cbn [fst snd] in *.
  pose proof E as Hts.
  apply (test_and_split_shape _ _ _ _ _ _ _ _ [ra]) in E; [|done|done].
  destruct E as (na' & -> & Hna' & W4 & Hh4 & Hl4 & Hb4 & Htrue & Hfalse).
  cbn [l r] in Hfalse.
  exists ra, nd, st3, (Some na', (id1, k1)), st4, ep', r'.
  cbn [fst snd].
  split; [done|]. split; [done|]. split; [done|]. split; [done|].
  split; [done|]. split; [exact Hst3|]. split; [done|].
  split; [exists sa, sn; done|]. split; [exact Hts|]. split; [|exact H].
  split; [done|]. split; [unfold root_addr; lia|].
  exists na'. split; [done|]. split; [lia|]. split.
  - intros ->. destruct (Hcs eq_refl) as [Hlink Hki].
    assert (sa = root_addr) as ->.
    { destruct (decide (sa = root_addr)) as [|Hn1]; [done|]. exfalso.
      destruct (decide (sa = sink_addr)) as [->|Hn0].
      - rewrite (wf_sink _ W3) in Hsn. injection Hsn as <-. done.
      - assert (2 ≤ sa)%nat as H2 by (unfold root_addr, sink_addr in *; lia).
        pose proof (wf_link _ W3 _ _ _ Hsn H2 Hlink). unfold sink_addr in *.
        lia. }
    apply Hemp. exact Hki.
  - destruct ep'.
    + rewrite (Htrue eq_refl).
      eapply linked_except_weaken; [|exact L3']. done.
    + destruct (Hfalse eq_refl)
        as (ra' & nd' & -> & Hra' & Hnd' & Hc' & L4 & He).
      exists ra', nd'.
      split; [done|]. split; [exact Hra'|]. split; [done|]. split; [done|].
      split; [exact He|].
      eapply linked_except_weaken; [|exact L4].
      intros a _ Hin. rewrite !elem_of_cons in *. tauto.
Qed.

Lemma update_unfold fuel st s ki res :
  wf st → update fuel st s ki = Ok res →
  ∃ w c st1 ep r_,
    haystack st !! ref_str ki = Some w ∧ at_ w (r ki) = Ok c
    ∧ test_and_split st s (MappedSubstring (ref_str ki) (l ki) (r ki - 1)) c w
      = Ok (st1, ep, r_)
    ∧ loop_inv st1 c root_addr r_ ep (s, (ref_str ki, l ki))
        (MappedSubstring (ref_str ki) (l ki) (r ki - 1))
    ∧ update_loop fuel st1 w c (r ki) root r_ ep (s, (ref_str ki, l ki))
        (MappedSubstring (ref_str ki) (l ki) (r ki - 1)) = Ok res.
Proof.
  intros [W L] H. unfold update in H.
  inv_bind H. rename x into w. inv_bind H. rename x into c.
  inv_bind H. destruct x as [[st1 ep] r_]. pose proof E1 as Hts.
  apply (test_and_split_shape _ _ _ _ _ _ _ _ []) in E1; [|done|done].
  destruct E1 as (na & -> & Hna & W1 & Hh1 & Hl1 & Hb1 & Htrue & Hfalse).
  cbn [l r] in Hfalse.
  exists w, c, st1, ep, r_. apply hay_Ok in E.
  split; [done|]. split; [done|]. split; [exact Hts|]. split; [|exact H].
  split; [done|]. split; [left; done|].
  exists na. split; [done|]. split; [lia|]. split; [done|].
  destruct ep.
  - rewrite (Htrue eq_refl). eapply linked_except_weaken; [|exact L].
    intros a _ Hin. by apply elem_of_nil in Hin.
  - destruct (Hfalse eq_refl)
      as (ra & nd' & -> & Hra & Hnd' & Hc' & L1 & He).
    exists ra, nd'.
    split; [done|]. split; [exact Hra|]. split; [done|]. split; [done|].
    split; [exact He|].
    eapply linked_except_weaken; [|exact L1].
    intros a _ Hin. rewrite !elem_of_cons in *. tauto.
Qed.

(** A property of the state that survives the three mutations survives
    [update]. *)
Lemma update_loop_preserves (P : SuffixTree → Prop) w c ki_r id :
  (∀ st a nd m, wf_core st → P st → store st !! a = Some nd →
     (2 ≤ a)%nat → (1 ≤ m < brk st)%nat →
     P (set_node st a (MkNode (cls nd) (g nd) (Some m)))) →
  (∀ st ra nd, wf_core st → P st → store st !! ra = Some nd →
     (1 ≤ ra)%nat → g nd !! c = None →
     P (attach_leaf st ra nd c (MappedSubstring id ki_r INT_MAX))) →
  (∀ st n kp st' ep r', wf_core st → P st →
     test_and_split st n kp c w = Ok (st', ep, r') → P st') →
  ∀ fuel st o r_ ep sk ki1 st' sk',
    ref_str ki1 = id → loop_inv st c o r_ ep sk ki1 → P st →
    update_loop fuel st w c ki_r (Some o) r_ ep sk ki1 = Ok (st', sk') →
    P st'.
Proof.
  intros Hlink Hleaf Htest.
  induction fuel as [|fuel IH]; intros st o r_ ep sk ki1 st' sk' Hid Hinv HP H;
    (destruct ep; [|try discriminate]).
  1,2: pose proof Hinv as (W & _);
       apply update_loop_end in H; [|done];
       destruct H as [_ [->|(ndo & sa & Ho & H2 & _ & Hsa & ->)]];
       [done|apply Hlink; done].
  pose proof Hinv as (W & _).
  apply update_loop_unfold in H; [|done].
  destruct H as (ra & nd & st3 & sk1 & st4 & ep' & r' & -> & Hnd & Hc & Hra
                 & W2 & Hst3 & W3 & _ & Hts & Hinv4 & Hrest).
  rewrite Hid in *.
  assert (P2 : P (attach_leaf st ra nd c (MappedSubstring id ki_r INT_MAX))).
  { apply Hleaf; try done. lia. }
  assert (P3 : P st3).
  { destruct Hst3 as [->|(ndo & Ho & H2 & ->)]; [done|].
    apply Hlink; try done. simpl. lia. }
  eapply (IH _ _ _ _ _ _ _ _ _ Hinv4); [|exact Hrest].
  - eapply Htest; [exact W3|exact P3|exact Hts].
  Unshelve. reflexivity.
Qed.

(** * Labels are kept *)

Lemma labelled_set_link st a nd q :
  labelled st → store st !! a = Some nd →
  labelled (set_node st a (MkNode (cls nd) (g nd) q)).
Proof.
  intros Lb Ha x ndx c t. simpl. destruct (decide (a = x)) as [<-|Hne].
  - rewrite lookup_insert_eq. intros [= <-]. simpl. apply (Lb a nd c t Ha).
  - rewrite lookup_insert_ne by done. apply Lb.
Qed.

Lemma labelled_attach_leaf st ra nd c ms w :
  labelled st → store st !! ra = Some nd → (ra < brk st)%nat →
  haystack st !! ref_str ms = Some w → at_ w (l ms) = Ok c →
  labelled (attach_leaf st ra nd c ms).
Proof.
  intros Lb Ha Hlt Hw Hc x ndx k t. rewrite attach_leaf_lookup by done.
  repeat case_decide; subst.
  - intros [= <-]. simpl. destruct (decide (c = k)) as [<-|Hck].
    + rewrite lookup_insert_eq. intros [= <-]. simpl. eauto.
    + rewrite lookup_insert_ne by done. apply (Lb ra nd k t Ha).
  - intros [= <-]. simpl. rewrite lookup_empty. done.
  - apply Lb.
Qed.

Lemma labelled_split_edge st na nd tk tr delta c sp :
  labelled st → store st !! na = Some nd → (na < brk st)%nat →
  g nd !! tk = Some tr →
  haystack st !! ref_str (sub tr) = Some sp →
  at_ sp (l (sub tr) + delta + 1) = Ok c →
  labelled (split_edge st na nd tk tr delta c).
Proof.
  intros Lb Ha Hlt Htk Hsp Hc x ndx k t. rewrite split_edge_lookup by done.
  repeat case_decide; subst.
  - intros [= <-]. simpl. destruct (decide (tk = k)) as [<-|Hck].
    + rewrite lookup_insert_eq. intros [= <-]. simpl.
      apply (Lb na nd tk tr Ha Htk).
    + rewrite lookup_insert_ne by done. apply (Lb na nd k t Ha).
  - intros [= <-]. simpl. destruct (decide (c = k)) as [<-|Hck].
    + rewrite lookup_insert_eq. intros [= <-]. simpl. exists sp.
      split; [done|]. rewrite <- Hc. f_equal. lia.
    + rewrite lookup_insert_ne by done. rewrite lookup_empty. done.
  - apply Lb.
Qed.

(** In a well-formed tree a returning [test_and_split] on a non-empty
    substring found a stored transition. *)
Lemma find_stored_of_hay st a nd tk sp :
  wf_core st → store st !! a = Some nd →
  haystack st !! ref_str (sub (find_alpha_transition nd tk)) = Some sp →
  g nd !! tk = Some (find_alpha_transition nd tk).
Proof.
  intros W Ha Hsp. pose proof (wf_hay _ W _ _ Hsp) as Hk.
  destruct (decide (cls nd = IsSinkNode)) as [Hs|Hs].
  - rewrite find_sink in Hk by done. simpl in Hk. lia.
  - rewrite find_stored in * by done.
    destruct (g nd !! tk); [done|]. simpl in Hk. lia.
Qed.

Lemma test_and_split_labelled st n kp t w st' ep r' :
  wf_core st → labelled st →
  test_and_split st n kp t w = Ok (st', ep, r') → labelled st'.
Proof.
  intros W Lb H.
  destruct (test_and_split_inv _ _ _ _ _ _ _ _ W H)
    as (na & nd & tk & -> & Ha & Htk & Hcase).
  assert (Hlt : (na < brk st)%nat) by (apply (wf_dom _ W); eauto).
  destruct Hcase as [(_ & -> & _)
                    |(_ & sp & c & Hsp & Hc & [(_ & -> & _)
                                              |(_ & _ & _ & ->)])];
    [done|done|].
  eapply labelled_split_edge; eauto.
  eapply find_stored_of_hay; eauto.
Qed.

Lemma test_and_split_registry st n kp t w st' ep r' :
  wf_core st → test_and_split st n kp t w = Ok (st', ep, r') →
  haystack st' = haystack st ∧ last_index st' = last_index st.
Proof.
  intros W H.
  destruct (test_and_split_inv _ _ _ _ _ _ _ _ W H)
    as (na & nd & tk & -> & Ha & Htk & Hcase).
  destruct Hcase as [(_ & -> & _)
                    |(_ & sp & c & Hsp & Hc & [(_ & -> & _)
                                              |(_ & _ & _ & ->)])]; done.
Qed.

Lemma update_labelled fuel st s ki st' sk :
  wf st → labelled st → update fuel st s ki = Ok (st', sk) → labelled st'.
Proof.
  intros W Lb H. apply update_unfold in H; [|done].
  destruct H as (w & c & st1 & ep & r_ & Hw & Hc & Hts & Hinv & Hrest).
  assert (Lb1 : labelled st1).
  { eapply test_and_split_labelled; [apply W|exact Lb|exact Hts]. }
  assert (Hh1 : haystack st1 = haystack st).
  { eapply test_and_split_registry; [apply W|exact Hts]. }
  revert Hrest.
  apply (update_loop_preserves
           (λ x, labelled x ∧ haystack x = haystack st) w c (r ki)
           (ref_str ki)); try done.
  - intros x a nd m Wx [Lx Hx] Ha _ _. split; [|done].
    apply labelled_set_link; done.
  - intros x ra nd Wx [Lx Hx] Ha Hra Hg. split; [|done].
    eapply labelled_attach_leaf; eauto.
    + apply (wf_dom _ Wx). eauto.
    + simpl. rewrite Hx. exact Hw.
  - intros x n kp x' ep' r' Wx [Lx Hx] Hx'. split.
    + eapply test_and_split_labelled; eauto.
    + apply test_and_split_registry in Hx' as [Hh _]; [|done]. congruence.
Qed.

Lemma deploy_loop_labelled fuel :
  ∀ st s sindex i ap st',
  wf st → labelled st → deploy_loop fuel st s sindex i ap = Ok st' →
  labelled st'.
Proof.
  induction fuel as [|fuel IH]; intros st s sindex i ap st' W Lb H;
    simpl in H; destruct (Z.ltb_spec i (Z.of_nat (length s)));
    try discriminate; try (injection H as <-; done).
  inv_bind H. destruct x as [st1 ap1]. pose proof E as Hu.
  apply update_shape in E as (W1 & _); [|done].
  apply update_labelled in Hu; [|done|done].
  inv_bind H. eapply IH; eauto.
Qed.

Lemma addString_labelled fuel st w st' id :
  wf st → labelled st → addString fuel st w = Ok (st', id) → labelled st'.
Proof.
  intros W Lb H. pose proof H as H0.
  apply addString_shape in H0; [|done].
  destruct H0 as [_ [[_ ->]|(-> & _ & _ & _)]]; [done|].
  unfold addString in H.
  pose proof (wf_last _ (proj1 W)) as Hlast.
  assert (Hfree : haystack st !! (last_index st + 1) = None).
  { destruct (haystack st !! (last_index st + 1)) eqn:E; [|done].
    apply (wf_hay _ (proj1 W)) in E. lia. }
  inv_bind H. destruct x as [st2 d]. cbn [last_index] in *.
  unfold map_insert_new in E. rewrite Hfree in E.
  set (st1 := MkTree (store st) (brk st)
                (<[last_index st + 1 := w]> (haystack st))
                (last_index st + 1)) in *.
  assert (W1 : wf st1).
  { apply wf_registry; [done|lia|]. intros k u Hk.
    destruct (decide (k = last_index st + 1)) as [->|Hne]; [lia|].
    rewrite lookup_insert_ne in Hk by done.
    apply (wf_hay _ (proj1 W)) in Hk. lia. }
  assert (Lb1 : labelled st1).
  { intros a nd c t Ha Hc. destruct (Lb a nd c t Ha Hc) as (u & Hu & Hat).
    exists u. split; [|done]. simpl.
    rewrite lookup_insert_ne; [done|]. intros Heq. rewrite <- Heq in Hu.
    congruence. }
  unfold deploy_suffixes in E. inv_bind E. destruct x as [i ap].
  destruct (INT_MAX =? i).
  - injection E as <- <-. simpl in H. injection H as <- _. simpl.
    (* the failure case was excluded above *)
    intros a nd c t Ha Hc. destruct (Lb a nd c t Ha Hc) as (u & Hu & Hat).
    exists u. split; [|done]. rewrite delete_insert_eq, delete_id by done.
    done.
  - inv_bind E. injection E as <- <-.
    apply deploy_loop_labelled in E1; [|done|done].
    destruct (Z.ltb_spec (last_index st + 1) 0); [lia|].
    injection H as <- _. exact E1.
Qed.

(** * Further properties of the code *)

(** ** The shape of every reachable tree *)

Lemma tc_last {A} (R : relation A) x y :
  tc R x y → ∃ z, rtc R x z ∧ R z y.
Proof.
  induction 1 as [x y Hxy|x y z Hxy _ (z' & Hyz' & Hz'z)].
  - exists x. split; [apply rtc_refl|done].
  - exists z'. split; [|done]. eapply rtc_l; eauto.
Qed.

(** X1. In every state reachable by insertions the transitions form a tree
    below the root: a transition never leaves the sink, and its target is
    always an allocated node (never null, dangling, the root or the sink);
    no node is the target of two transitions; every allocated node is
    reachable from the root; and the store holds exactly the addresses
    below the allocation mark. *)
Theorem reachable_tree_shape st :
  reachable st →
  (∀ a c b, tedge (store st) a c b →
     (a < brk st)%nat ∧ a ≠ sink_addr ∧ (2 ≤ b < brk st)%nat)
  ∧ (∀ a nd c t, store st !! a = Some nd → g nd !! c = Some t →
       tgt t ≠ None)
  ∧ (∀ a1 c1 a2 c2 b, tedge (store st) a1 c1 b → tedge (store st) a2 c2 b →
       a1 = a2 ∧ c1 = c2)
  ∧ (∀ b, (2 ≤ b < brk st)%nat → reachable_node (store st) b)
  ∧ (∀ a, is_Some (store st !! a) ↔ (a < brk st)%nat).
Proof.
  intros R. apply reachable_wf in R. destruct R as [W _].
  split; [|split; [|split; [|split]]].
  - intros a c b H. split; [eapply wf_live; eauto|].
    split; [|eapply wf_tgt; eauto].
    intros ->. eapply wf_sink_no_edge; eauto.
  - apply (wf_nonnull _ W).
  - apply (wf_parent _ W).
  - apply (wf_reach _ W).
  - apply (wf_dom _ W).
Qed.

Lemma reachable_tree_shape_witness :
  is_Some (store (tree_after [str "aa"; str "aaab"]) !! 3%nat)
  ↔ (3 < brk (tree_after [str "aa"; str "aaab"]))%nat.
Proof.
  destruct (reachable_tree_shape (tree_after [str "aa"; str "aaab"])
              (tree_after_reachable _)) as (_ & _ & _ & _ & H).
  exact (H 3%nat).
Defined.

Lemma no_cycle_from_root st :
  wf_core st →
  ∀ n b, nsteps (child (store st)) n root_addr b →
         ¬ tc (child (store st)) b b.
Proof.
  intros W. induction n as [|n IH]; intros b Hn Hc.
  - inversion Hn; subst. apply tc_last in Hc as (z & _ & [c Hz]).
    pose proof (wf_tgt _ W _ _ _ Hz). unfold root_addr in *. lia.
  - apply nsteps_inv_r in Hn as (p & Hp & [c Hpb]).
    pose proof Hc as Hc'. apply tc_last in Hc' as (z & Hbz & [c' Hzb]).
    destruct (wf_parent _ W _ _ _ _ _ Hpb Hzb) as [<- _].
    apply (IH p Hp). eapply tc_rtc_r; [|exact Hbz].
    apply tc_once. exists c. exact Hpb.
Qed.

(** X2. The transitions of a reachable tree have no cycle: no node can be
    reached from itself along one or more transitions. *)
Theorem reachable_tree_acyclic st b :
  reachable st → ¬ tc (child (store st)) b b.
Proof.
  intros R Hc. apply reachable_wf in R. destruct R as [W _].
  pose proof Hc as Hc'. apply tc_last in Hc' as (z & _ & [c Hz]).
  pose proof (wf_tgt _ W _ _ _ Hz) as Hb.
  pose proof (wf_reach _ W b Hb) as Hr.
  apply rtc_nsteps in Hr as [n Hn].
  eapply no_cycle_from_root; eauto.
Qed.

Lemma reachable_tree_acyclic_witness :
  ¬ tc (child (store (tree_after [str "abac"; str "a"]))) 4%nat 4%nat.
Proof.
  apply (reachable_tree_acyclic (tree_after [str "abac"; str "a"]) 4%nat).
  apply tree_after_reachable.
Defined.

(** X3. Suffix links never dangle.  In every reachable state the sink is a
    [SinkNode] without transitions whose link is the root, and the root is
    a [Node] whose link is the sink; a non-null suffix link is the address
    of a live node; no node other than the root links to the sink; and
    every [Node] object other than the root has a suffix link, which points
    to the root or to an allocated node. *)
Theorem reachable_suffix_links st :
  reachable st →
  store st !! sink_addr = Some (MkNode IsSinkNode ∅ (Some root_addr))
  ∧ (∃ nd, store st !! root_addr = Some nd ∧ cls nd = IsNode
           ∧ suffix_link nd = Some sink_addr)
  ∧ (∀ a nd q, store st !! a = Some nd → suffix_link nd = Some q →
       is_Some (store st !! q) ∧ (q = sink_addr ↔ a = root_addr))
  ∧ (∀ a nd, store st !! a = Some nd → (2 ≤ a)%nat → cls nd = IsNode →
       ∃ q, suffix_link nd = Some q ∧ (1 ≤ q < brk st)%nat
            ∧ is_Some (store st !! q)).
Proof.
  intros R. apply reachable_wf in R. destruct R as [W L].
  pose proof (wf_brk _ W) as Hb.
  split; [exact (wf_sink _ W)|]. split; [exact (wf_root _ W)|]. split.
  - intros a nd q Ha Hq.
    destruct (decide (a = sink_addr)) as [->|H0].
    { rewrite (wf_sink _ W) in Ha. injection Ha as <-. simpl in Hq.
      injection Hq as <-. split.
      - apply (wf_dom _ W). unfold root_addr. lia.
      - unfold root_addr, sink_addr. lia. }
    destruct (decide (a = root_addr)) as [->|H1].
    { destruct (wf_root _ W) as (rn & Hrn & _ & Hl). rewrite Ha in Hrn.
      injection Hrn as <-. rewrite Hq in Hl. injection Hl as ->. split.
      - apply (wf_dom _ W). unfold sink_addr. lia.
      - done. }
    assert (2 ≤ a)%nat as H2 by (unfold root_addr, sink_addr in *; lia).
    pose proof (wf_link _ W _ _ _ Ha H2 Hq) as Hqr. split.
    + apply (wf_dom _ W). lia.
    + unfold sink_addr. split; [lia|done].
  - intros a nd Ha H2 Hc.
    destruct (suffix_link nd) as [q|] eqn:Hq.
    + pose proof (wf_link _ W _ _ _ Ha H2 Hq) as Hqr.
      exists q. split; [done|]. split; [done|]. apply (wf_dom _ W). lia.
    + exfalso. apply (L a nd Ha H2 Hc); [apply not_elem_of_nil|exact Hq].
Qed.

Lemma reachable_suffix_links_witness :
  store (tree_after [str "aa"; str "aaab"]) !! sink_addr
  = Some (MkNode IsSinkNode ∅ (Some root_addr))
  ∧ (∃ nd, store (tree_after [str "aa"; str "aaab"]) !! root_addr = Some nd
           ∧ cls nd = IsNode ∧ suffix_link nd = Some sink_addr)
  ∧ (∃ nd q, store (tree_after [str "aa"; str "aaab"]) !! 3%nat = Some nd
             ∧ cls nd = IsNode ∧ suffix_link nd = Some q
             ∧ (1 ≤ q < brk (tree_after [str "aa"; str "aaab"]))%nat
             ∧ is_Some (store (tree_after [str "aa"; str "aaab"]) !! q)).
Proof.
  destruct (reachable_suffix_links (tree_after [str "aa"; str "aaab"])
              (tree_after_reachable _)) as (Hs & Hr & _ & Hn).
  split; [exact Hs|]. split; [exact Hr|].
  assert (H3 : ∃ nd, store (tree_after [str "aa"; str "aaab"]) !! 3%nat
                     = Some nd ∧ cls nd = IsNode).
  { eexists. split; vm_compute; reflexivity. }
  destruct H3 as (nd & Hnd & Hc).
  destruct (Hn 3%nat nd Hnd (le_S _ _ (le_n 2)) Hc) as (q & Hq & Hqr & Hql).
  exists nd, q. split; [exact Hnd|]. split; [exact Hc|].
  split; [exact Hq|]. split; [exact Hqr|exact Hql].
Defined.

(** X4. A lookup in a node other than the sink tells a missing key by the
    null target: in every reachable state, if the node stores nothing for
    the symbol the result is the empty reference [(0, 0, -1)] with a null
    target, and otherwise it is the stored transition, whose target is not
    null. *)
Theorem lookup_missing_key st a nd alpha :
  reachable st → store st !! a = Some nd → a ≠ sink_addr →
  (g nd !! alpha = None →
     find_alpha_transition nd alpha
     = Transition (MappedSubstring 0 0 (-1)) None
     ∧ is_empty_substring (sub (find_alpha_transition nd alpha)))
  ∧ (∀ t, g nd !! alpha = Some t →
       find_alpha_transition nd alpha = t ∧ tgt t ≠ None)
  ∧ (tgt (find_alpha_transition nd alpha) = None ↔ g nd !! alpha = None).
Proof.
  intros R Ha H0. apply reachable_wf in R. destruct R as [W _].
  assert (cls nd ≠ IsSinkNode) as Hs.
  { intros Hs. apply H0. eapply wf_cls; eauto. }
  rewrite find_stored by done. split; [|split].
  - intros ->. split; [done|]. unfold is_empty_substring. simpl. lia.
  - intros t Ht. rewrite Ht. split; [done|]. eapply wf_nonnull; eauto.
  - destruct (g nd !! alpha) as [t|] eqn:E; [|done].
    split; [|done]. intros Hn. exfalso. eapply wf_nonnull; eauto.
Qed.

Lemma lookup_missing_key_witness :
  ∃ nd, store (tree_after [str "abac"]) !! root_addr = Some nd
        ∧ (tgt (find_alpha_transition nd 100) = None ↔ g nd !! 100 = None).
Proof.
  assert (Hr : ∃ nd, store (tree_after [str "abac"]) !! root_addr = Some nd).
  { eexists. vm_compute. reflexivity. }
  destruct Hr as [nd Hr]. exists nd. split; [exact Hr|].
  apply (lookup_missing_key (tree_after [str "abac"]) root_addr nd 100
           (tree_after_reachable _) Hr).
  discriminate.
Defined.

(** ** The string registry *)

Lemma run_registry fuel ws :
  ∀ st st' ids,
  wf st → run fuel st ws = Ok (st', ids) →
  wf st'
  ∧ (∀ k u, haystack st !! k = Some u → haystack st' !! k = Some u)
  ∧ (∀ p w id, ws !! p = Some w → ids !! p = Some id → 0 < id →
       haystack st' !! id = Some w)
  ∧ length ids = length ws.
Proof.
  induction ws as [|w ws IH]; intros st st' ids W H; simpl in H.
  - injection H as <- <-. split_and!; try done.
  - inv_bind H. destruct x as [st1 id1]. inv_bind H.
    destruct x as [st2 ids']. injection H as <- <-.
    pose proof (wf_last _ (proj1 W)) as Hlast.
    apply addString_shape in E; [|done]. destruct E as [W1 Hcase].
    destruct (IH _ _ _ W1 E0) as (W2 & Hkeep & Hnew & Hlen).
    assert (Hkeep1 : ∀ k u, haystack st !! k = Some u →
                            haystack st1 !! k = Some u).
    { intros k u Hk. destruct Hcase as [[_ ->]|(_ & _ & -> & _)]; [done|].
      rewrite lookup_insert_ne; [done|].
      apply (wf_hay _ (proj1 W)) in Hk. lia. }
    split; [done|]. split; [|split].
    + intros k u Hk. apply Hkeep, Hkeep1, Hk.
    + intros [|p] w' id; simpl.
      * intros [= <-] [= <-] Hpos. apply Hkeep.
        destruct Hcase as [[-> _]|(-> & _ & -> & _)]; [lia|].
        apply lookup_insert_eq.
      * apply Hnew.
    + simpl. lia.
Qed.

(** X5. Insert and look up.  After any sequence of insertions into a fresh
    tree, every string whose insertion succeeded is found in the registry
    under the id that its call returned; and an insertion never changes or
    removes the registry entry of an earlier string. *)
Theorem registry_round_trip fuel ws st ids :
  run fuel empty_tree ws = Ok (st, ids) →
  (∀ p w id, ws !! p = Some w → ids !! p = Some id → 0 < id →
     haystack st !! id = Some w)
  ∧ length ids = length ws
  ∧ (∀ fuel' w st' id k u, addString fuel' st w = Ok (st', id) →
       haystack st !! k = Some u → haystack st' !! k = Some u).
Proof.
  intros H.
  assert (W0 : wf empty_tree) by (apply reachable_wf, reachable_empty).
  destruct (run_registry _ _ _ _ _ W0 H) as (W & _ & Hnew & Hlen).
  split; [exact Hnew|]. split; [exact Hlen|].
  intros fuel' w st' id k u Ha Hk.
  assert (Hr : run fuel' st [w] = Ok (st', [id])).
  { simpl. rewrite Ha. reflexivity. }
  destruct (run_registry _ _ _ _ _ W Hr) as (_ & Hkeep & _). apply Hkeep, Hk.
Qed.

Lemma registry_round_trip_witness :
  haystack (tree_after [str "xx"; str "x"; str "ab"]) !! 2 = Some (str "ab").
Proof.
  assert (H : run 64 empty_tree [str "xx"; str "x"; str "ab"]
              = Ok (tree_after [str "xx"; str "x"; str "ab"], [1; -1; 2])).
  { vm_compute. reflexivity. }
  destruct (registry_round_trip _ _ _ _ H) as (Hnew & _).
  apply (Hnew 2%nat (str "ab") 2); [reflexivity|reflexivity|reflexivity].
Defined.

(** ** The empty string *)



(** ** canonize on a canonical reference point *)

Lemma canonize_fixed st w s id k i fuel :
  (k ≤ i → haystack st !! id = Some w) →
  canonical st w s k i →
  canonize fuel st s (MappedSubstring id k i) = Ok (s, (id, k)).
Proof.
  intros Hw Hcan. unfold canonize. cbn [l r ref_str].
  destruct (Z.ltb_spec i k) as [Hemp|Hne]; [done|].
  destruct Hcan as [Hlt|(nd & c & Hnd & Hc & Hlen)]; [lia|].
  rewrite (proj2 (hay_Ok _ _ _) (Hw Hne)), bind_Ok_l.
  rewrite Hc, bind_Ok_l. rewrite (node_at_deref _ _ _ Hnd), bind_Ok_l.
  rewrite canonize_loop_exit; [done|]. simpl. lia.
Qed.

(** X7. [canonize] is idempotent.  For a substring that lies along an
    existing path below [s] and whose right end is below [INT_MAX] (so that
    the positions computed by [kp.l += 1 + delta] stay in the [int] range),
    the reference point that [canonize] returns is left unchanged by a
    second call, whatever the fuel; the position returned for a non-empty
    substring is an [int]. *)
Theorem canonize_idempotent st s kp w fuel :
  (l kp ≤ r kp → haystack st !! ref_str kp = Some w) →
  along st w s (l kp) (r kp) →
  r kp < INT_MAX →
  (Z.to_nat (r kp - l kp + 1) ≤ fuel)%nat →
  ∃ s' k',
    canonize fuel st s kp = Ok (s', (ref_str kp, k'))
    ∧ (l kp ≤ r kp → 0 ≤ k' ≤ INT_MAX)
    ∧ ∀ fuel', canonize fuel' st s' (MappedSubstring (ref_str kp) k' (r kp))
               = Ok (s', (ref_str kp, k')).
Proof.
  intros Hw Hal Hmax Hfuel.
  assert (Hfirst : ∃ s' k', canonize fuel st s kp = Ok (s', (ref_str kp, k'))
                            ∧ canonical st w s' k' (r kp)
                            ∧ (l kp ≤ r kp → 0 ≤ k' ≤ INT_MAX)
                            ∧ (l kp ≤ r kp ∨ k' = l kp)).
  { unfold canonize. destruct (Z.ltb_spec (r kp) (l kp)) as [Hemp|Hne].
    - exists s, (l kp). split; [done|]. split; [left; done|].
      split; [lia|right; done].
    - destruct (along_node _ _ _ _ _ Hal Hne) as (nd & c & Hnd & Hc).
      pose proof (at_Ok_nonneg _ _ _ Hc) as Hl0.
      rewrite (proj2 (hay_Ok _ _ _) (Hw Hne)), bind_Ok_l.
      rewrite Hc, bind_Ok_l. rewrite (node_at_deref _ _ _ Hnd), bind_Ok_l.
      destruct (canonize_loop_spec st w (ref_str kp) _ _ _ Hal Hne
                  fuel nd c Hnd Hc Hfuel) as (s' & k' & Hrun & _ & Hcan & Hk).
      exists s', k'. destruct kp as [id k i]. simpl in *.
      split; [exact Hrun|]. split; [exact Hcan|].
      split; [intros _; lia|left; done]. }
  destruct Hfirst as (s' & k' & Hrun & Hcan & Hint & Hcase).
  exists s', k'. split; [exact Hrun|]. split; [exact Hint|]. intros fuel'.
  apply (canonize_fixed st w); [|exact Hcan].
  intros Hk. destruct Hcase as [Hne | ->]; [apply Hw, Hne|apply Hw, Hk].
Qed.

Lemma canonize_idempotent_witness :
  ∃ s' k',
    canonize 2 (tree_after [str "aaab"]) root (MappedSubstring 1 0 1)
    = Ok (s', (1, k'))
    ∧ canonize 0 (tree_after [str "aaab"]) s' (MappedSubstring 1 k' 1)
      = Ok (s', (1, k')).
Proof.
  assert (Hal : along (tree_after [str "aaab"]) (str "aaab") root
                  (l (MappedSubstring 1 0 1)) (r (MappedSubstring 1 0 1))).
  { eapply along_step;
      [simpl; lia|vm_compute; reflexivity|vm_compute; reflexivity
      |vm_compute; discriminate|vm_compute; discriminate|].
    eapply along_step;
      [vm_compute; discriminate|vm_compute; reflexivity|vm_compute; reflexivity
      |vm_compute; discriminate|vm_compute; discriminate|].
    apply along_empty. vm_compute. reflexivity. }
  destruct (canonize_idempotent (tree_after [str "aaab"]) root
              (MappedSubstring 1 0 1) (str "aaab") 2
              ltac:(intros _; vm_compute; reflexivity) Hal
              ltac:(vm_compute; reflexivity)
              ltac:(simpl; lia))
    as (s' & k' & Hrun & _ & Hagain).
  exists s', k'. split; [exact Hrun|exact (Hagain 0%nat)].
Defined.

(** ** get_starting_node *)

Lemma at_Ok_range w i c : at_ w i = Ok c → 0 ≤ i ≤ Z.of_nat (length w).
Proof.
  unfold at_. destruct (Z.ltb_spec i 0); [discriminate|].
  destruct (w !! Z.to_nat i) eqn:E.
  - intros _. apply lookup_lt_Some in E. lia.
  - destruct (Z.eqb_spec i (Z.of_nat (length w))); [lia|discriminate].
Qed.

Lemma at_not_Timeout w i : at_ w i ≠ Timeout.
Proof.
  unfold at_. destruct (i <? 0); [done|]. destruct (w !! Z.to_nat i); [done|].
  destruct (i =? Z.of_nat (length w)); done.
Qed.

Lemma deref_not_Timeout st p : deref st p ≠ Timeout.
Proof.
  unfold deref. destruct p as [a|]; [|done]. destruct (store st !! a); done.
Qed.

Lemma hay_not_Timeout st id : hay st id ≠ Timeout.
Proof. unfold hay. destruct (haystack st !! id); done. Qed.

Lemma bind_UB_l {A B} (k : A → res B) : (UB ≫= k) = UB.
Proof. reflexivity. Qed.

(** The scan of one transition stops by itself: it only goes on while
    symbols of the new string remain. *)
Lemma scan_edge_returns st s k t :
  ∀ fuel i, 1 ≤ i →
  (Z.to_nat (Z.of_nat (length s) - k - i) < fuel)%nat →
  scan_edge fuel st s k t i ≠ Timeout
  ∧ ∀ sc, scan_edge fuel st s k t i = Ok sc →
      match sc with
      | ScanRunout => True
      | ScanMismatch j => i ≤ j ∧ k + j < Z.of_nat (length s)
      | ScanDone j => i ≤ j
      end.
Proof.
  induction fuel as [|fuel IH]; intros i Hi Hfuel; [lia|].
  cbn [scan_edge].
  destruct (Z.leb_spec i (r (sub t) - l (sub t)));
    [|split; [done|intros sc [= <-]; lia]].
  destruct (Z.leb_spec (Z.of_nat (length s)) (k + i));
    [split; [done|intros sc [= <-]; done]|].
  pose proof (at_not_Timeout s (k + i)) as N1.
  destruct (at_ s (k + i)) as [a | | ]; [|rewrite bind_UB_l; done|done].
  rewrite bind_Ok_l.
  pose proof (hay_not_Timeout st (ref_str (sub t))) as N2.
  destruct (hay st (ref_str (sub t))) as [ref | | ];
    [|rewrite bind_UB_l; done|done].
  rewrite bind_Ok_l.
  pose proof (at_not_Timeout ref (l (sub t) + i)) as N3.
  destruct (at_ ref (l (sub t) + i)) as [b | | ];
    [|rewrite bind_UB_l; done|done].
  rewrite bind_Ok_l. case_bool_decide.
  - split; [done|]. intros sc [= <-]. lia.
  - destruct (IH (i + 1) ltac:(lia) ltac:(lia)) as [Hnt Hres].
    split; [exact Hnt|]. intros sc Hsc. apply Hres in Hsc.
    destruct sc; try done; lia.
Qed.

Lemma get_starting_node_loop_returns st s rid rk :
  ∀ fuel node k,
  (Z.to_nat (Z.of_nat (length s) + 1 - k) < fuel)%nat →
  get_starting_node_loop fuel st s node rid rk k ≠ Timeout.
Proof.
  induction fuel as [|fuel IH]; intros node k Hfuel; [lia|].
  cbn [get_starting_node_loop].
  pose proof (at_not_Timeout s k) as N1.
  destruct (at_ s k) as [a | | ] eqn:Ea; [|rewrite bind_UB_l; done|done].
  apply at_Ok_range in Ea. rewrite bind_Ok_l.
  pose proof (deref_not_Timeout st node) as N2.
  destruct (deref st node) as [nd | | ]; [|rewrite bind_UB_l; done|done].
  rewrite bind_Ok_l. case_bool_decide; [|done].
  destruct (scan_edge_returns st s k (find_alpha_transition nd a)
              fuel 1 ltac:(lia) ltac:(lia)) as [Hnt Hres].
  destruct (scan_edge fuel st s k (find_alpha_transition nd a) 1)
    as [sc | | ] eqn:Es; [|rewrite bind_UB_l; done|done].
  rewrite bind_Ok_l. specialize (Hres sc eq_refl).
  destruct sc as [|j|j]; [done|done|]. apply IH. lia.
Qed.

(** X8. The fast-forward walk always comes to an end.  On any state, from
    any starting reference point, [get_starting_node] returns or runs into
    undefined behaviour within a fuel of the length of the string plus two:
    every round of its outer loop moves at least one symbol forward, and
    the scan of a transition stops when the string runs out, however long
    the transition is. *)
Theorem get_starting_node_terminates fuel st s r_ :
  (length s + 2 ≤ fuel)%nat → 0 ≤ snd (snd r_) →
  get_starting_node fuel st s r_ ≠ Timeout.
Proof.
  intros Hfuel Hk. unfold get_starting_node.
  apply get_starting_node_loop_returns. lia.
Qed.

Lemma get_starting_node_terminates_witness :
  get_starting_node 6 (tree_after [str "abac"]) (str "abab") (root, (2, 0))
  ≠ Timeout.
Proof.
  apply (get_starting_node_terminates 6 (tree_after [str "abac"])
           (str "abab") (root, (2, 0))).
  - vm_compute. lia.
  - vm_compute. discriminate.
Defined.

(** * The fast-forward walk reads what the tree contains *)

Lemma at_real w i c :
  at_ w i = Ok c → c ≠ 0 → 0 ≤ i ∧ w !! Z.to_nat i = Some c.
Proof.
  unfold at_. destruct (Z.ltb_spec i 0); [discriminate|].
  destruct (w !! Z.to_nat i) eqn:E.
  - intros [= <-] _. done.
  - destruct (i =? Z.of_nat (length w)); [|discriminate].
    intros [= <-] Hc. done.
Qed.

Lemma at_lookup w i c :
  0 ≤ i → w !! Z.to_nat i = Some c → at_ w i = Ok c.
Proof.
  intros Hi Hl. unfold at_. destruct (Z.ltb_spec i 0); [lia|].
  rewrite Hl. reflexivity.
Qed.

Lemma at_inside w i :
  0 ≤ i < Z.of_nat (length w) → ∃ c, w !! Z.to_nat i = Some c ∧ at_ w i = Ok c.
Proof.
  intros Hi. destruct (w !! Z.to_nat i) as [c|] eqn:E.
  - exists c. split; [done|]. apply at_lookup; [lia|done].
  - apply lookup_ge_None in E. lia.
Qed.

Lemma matched_take s k wr p n :
  0 ≤ k → 0 ≤ p → (1 ≤ n)%nat → matched s k wr p n →
  take n (drop (Z.to_nat p) wr) = take n (drop (Z.to_nat k) s)
  ∧ length (take n (drop (Z.to_nat k) s)) = n
  ∧ (Z.to_nat p + n ≤ length wr)%nat ∧ (Z.to_nat k + n ≤ length s)%nat.
Proof.
  intros Hk Hp Hn Hm.
  assert (Hlen : (Z.to_nat p + n ≤ length wr)%nat
                 ∧ (Z.to_nat k + n ≤ length s)%nat).
  { destruct n as [|n]; [lia|]. destruct (Hm n ltac:(lia)) as (x & H1 & H2).
    apply lookup_lt_Some in H1, H2. lia. }
  split; [|split; [|exact Hlen]].
  - apply list_eq. intros j. destruct (decide (j < n)%nat) as [Hj|Hj].
    + rewrite !lookup_take_lt by done. rewrite !lookup_drop.
      destruct (Hm j Hj) as (x & H1 & H2).
      replace (Z.to_nat p + j)%nat with (Z.to_nat (p + Z.of_nat j)) by lia.
      replace (Z.to_nat k + j)%nat with (Z.to_nat (k + Z.of_nat j)) by lia.
      congruence.
    + rewrite !lookup_take_ge by lia. done.
  - rewrite length_take, length_drop. lia.
Qed.

(** The label of a transition begins with the symbols that matched. *)
Lemma resolve_matched st t wr s k n :
  haystack st !! ref_str (sub t) = Some wr →
  0 ≤ k → 0 ≤ l (sub t) → (1 ≤ n)%nat →
  Z.of_nat n ≤ r (sub t) - l (sub t) + 1 →
  matched s k wr (l (sub t)) n →
  ∃ lab, resolve st (sub t) = Some lab
         ∧ take n lab = take n (drop (Z.to_nat k) s)
         ∧ (Z.of_nat n = r (sub t) - l (sub t) + 1 →
            lab = take n (drop (Z.to_nat k) s)).
Proof.
  intros Hw Hk Hl Hn Hle Hm.
  destruct (matched_take _ _ _ _ _ Hk Hl Hn Hm) as (Heq & _ & Hlw & _).
  unfold resolve. rewrite Hw. cbn zeta.
  destruct (Z.ltb_spec (l (sub t)) 0); [lia|].
  eexists. split; [reflexivity|].
  rewrite (Z.min_l (l (sub t))) by lia.
  split.
  - rewrite take_take. rewrite Nat.min_l by lia. exact Heq.
  - intros Hfull. rewrite <- Heq. f_equal. lia.
Qed.

Lemma path_to_snoc st n u m nd c t lab m' :
  path_to st n u m → store st !! m = Some nd → g nd !! c = Some t →
  resolve st (sub t) = Some lab → tgt t = Some m' →
  path_to st n (u ++ lab) m'.
Proof.
  intros Hp Hm Hc Hl Ht.
  induction Hp as [n|n nd0 c0 t0 lab0 m0 u m1 H1 H2 H3 H4 _ IH].
  - simpl. rewrite <- (app_nil_r lab). eapply path_to_step; eauto.
    apply path_to_refl.
  - rewrite <- app_assoc. eapply path_to_step; eauto.
Qed.

Lemma path_to_reads st n u m : path_to st n u m → path_reads st n u.
Proof.
  induction 1 as [n|n nd0 c0 t0 lab0 m0 u m1 H1 H2 H3 H4 _ IH];
    [apply path_nil|eapply path_step; eauto].
Qed.

Lemma path_to_reads_inside st n u m nd c t lab v :
  path_to st n u m → store st !! m = Some nd → g nd !! c = Some t →
  resolve st (sub t) = Some lab → v `prefix_of` lab →
  path_reads st n (u ++ v).
Proof.
  intros Hp Hm Hc Hl Hv.
  induction Hp as [n|n nd0 c0 t0 lab0 m0 u m1 H1 H2 H3 H4 _ IH].
  - simpl. eapply path_inside; eauto.
  - rewrite <- app_assoc. eapply path_step; eauto.
Qed.

Lemma take_prefix {A} (n : nat) (xs : list A) : take n xs `prefix_of` xs.
Proof. exists (drop n xs). symmetry. apply take_drop. Qed.

(** One transition, scanned: how far the new string and the transition
    agree. *)
Lemma scan_edge_matches st s k t wr :
  haystack st !! ref_str (sub t) = Some wr →
  0 ≤ k → 0 ≤ l (sub t) → 0 ∉ s →
  ∀ fuel n sc,
    (1 ≤ n)%nat → Z.of_nat n ≤ r (sub t) - l (sub t) + 1 →
    matched s k wr (l (sub t)) n →
    scan_edge fuel st s k t (Z.of_nat n) = Ok sc →
    match sc with
    | ScanDone j =>
        j = r (sub t) - l (sub t) + 1
        ∧ matched s k wr (l (sub t)) (Z.to_nat j)
    | ScanMismatch j =>
        1 ≤ j ≤ r (sub t) - l (sub t) ∧ k + j < Z.of_nat (length s)
        ∧ matched s k wr (l (sub t)) (Z.to_nat j)
    | ScanRunout =>
        ∃ j, 1 ≤ j ≤ r (sub t) - l (sub t) ∧ k + j = Z.of_nat (length s)
             ∧ matched s k wr (l (sub t)) (Z.to_nat j)
    end.
Proof.
  intros Hw Hk Hl Hz.
  induction fuel as [|fuel IH]; intros n sc Hn Hle Hm H; cbn [scan_edge] in H.
  all: destruct (Z.leb_spec (Z.of_nat n) (r (sub t) - l (sub t))) as [Hin|Hout];
    [|injection H as <-; split; [lia|]; rewrite Nat2Z.id; exact Hm].
  - discriminate.
  - destruct (matched_take _ _ _ _ _ Hk Hl Hn Hm) as (_ & _ & _ & Hls).
    destruct (Z.leb_spec (Z.of_nat (length s)) (k + Z.of_nat n)) as [Hro|Hin2].
    + injection H as <-. exists (Z.of_nat n).
      split; [lia|]. split; [lia|]. rewrite Nat2Z.id. exact Hm.
    + destruct (at_inside s (k + Z.of_nat n) ltac:(lia)) as (a & Hsa & Ha).
      rewrite Ha, bind_Ok_l in H.
      rewrite (proj2 (hay_Ok _ _ _) Hw), bind_Ok_l in H.
      inv_bind H. rename x into b.
      assert (Ha0 : a ≠ 0).
      { intros ->. apply Hz. eapply list_elem_of_lookup_2; eauto. }
      case_bool_decide as Hab.
      * injection H as <-. split; [lia|]. split; [lia|].
        rewrite Nat2Z.id. exact Hm.
      * assert (a = b) as <- by (destruct (decide (a = b)); [done|]; done).
        destruct (at_real _ _ _ E Ha0) as [_ Hwb].
        replace (Z.of_nat n + 1) with (Z.of_nat (S n)) in H by lia.
        apply IH in H; [exact H|lia|lia|].
        intros j Hj. destruct (decide (j = n)) as [->|Hne].
        -- exists a. done.
        -- apply Hm. lia.
Qed.

Lemma at_end w : at_ w (Z.of_nat (length w)) = Ok 0.
Proof.
  unfold at_. destruct (Z.ltb_spec (Z.of_nat (length w)) 0); [lia|].
  rewrite Nat2Z.id. rewrite (proj2 (lookup_ge_None w (length w))) by lia.
  rewrite Z.eqb_refl. reflexivity.
Qed.

Lemma walk_sound st s rid rk :
  wf_core st → labelled st → no_empty_transition st → 0 ∉ s →
  ∀ fuel a k p ap,
    0 ≤ k → (1 ≤ a)%nat →
    path_to st root_addr (take (Z.to_nat k) s) a →
    get_starting_node_loop fuel st s (Some a) rid rk k = Ok (p, ap) →
    (p = INT_MAX ∧ snd (snd ap) = INT_MAX ∧ path_reads st root_addr s)
    ∨ (0 ≤ p ≤ Z.of_nat (length s)
       ∧ path_reads st root_addr (take (Z.to_nat p) s)).
Proof.
  intros W Lb Hpos Hz.
  induction fuel as [|fuel IH]; intros a k p ap Hk Ha Hpath H;
    [discriminate|].
  cbn [get_starting_node_loop] in H.
  inv_bind H. rename x into c, E into Hc. pose proof (at_Ok_range _ _ _ Hc) as Hkr.
  inv_bind H. rename x into nd. apply deref_Ok in E as (? & [= <-] & Hnd).
  assert (Hns : cls nd ≠ IsSinkNode).
  { intros Hs. pose proof (wf_cls _ W _ _ Hnd Hs). unfold sink_addr in *. lia. }
  rewrite find_stored in H by done.
  destruct (g nd !! c) as [t|] eqn:Hg; cbn [tgt] in H.
  2:{ rewrite bool_decide_false in H by (intros Hn; apply Hn; reflexivity).
      injection H as <- <-. right. split; [lia|].
      eapply path_to_reads; eauto. }
  pose proof (wf_nonnull _ W _ _ _ _ Hnd Hg) as Htn.
  rewrite bool_decide_true in H by done.
  destruct (tgt t) as [a'|] eqn:Ht; [|done].
  assert (Ha' : (2 ≤ a' < brk st)%nat).
  { apply (wf_tgt _ W a c a'). exists nd, t. done. }
  destruct (Lb _ _ _ _ Hnd Hg) as (wr & Hwr & Hat).
  pose proof (Hpos _ _ _ _ Hnd Hg) as Hlr.
  inv_bind H. rename x into sc, E into Hsc.
  destruct (decide (k = Z.of_nat (length s))) as [Hend|Hin].
  - (* the string ends at this node: only the null symbol is left *)
    destruct fuel as [|fuel]; cbn [scan_edge] in Hsc.
    + destruct (Z.leb_spec 1 (r (sub t) - l (sub t))); [discriminate|].
      injection Hsc as <-. discriminate.
    + destruct (Z.leb_spec 1 (r (sub t) - l (sub t))).
      * destruct (Z.leb_spec (Z.of_nat (length s)) (k + 1)); [|lia].
        injection Hsc as <-. injection H as <- <-. left.
        split; [done|]. split; [done|].
        rewrite Hend, Nat2Z.id in Hpath.
        rewrite (take_ge s (length s)) in Hpath by lia.
        eapply path_to_reads; eauto.
      * injection Hsc as <-. cbn [get_starting_node_loop] in H.
        inv_bind H. apply at_Ok_range in E. lia.
  - assert (Hc0 : c ≠ 0).
    { destruct (at_inside s k ltac:(lia)) as (c' & Hsc' & Hc').
      rewrite Hc in Hc'. injection Hc' as <-. intros ->. apply Hz.
      eapply list_elem_of_lookup_2; eauto. }
    destruct (at_real _ _ _ Hc Hc0) as [_ Hsk].
    destruct (at_real _ _ _ Hat Hc0) as [Hl0 Hwl].
    assert (Hm1 : matched s k wr (l (sub t)) 1).
    { intros j Hj. assert (j = 0%nat) as -> by lia. exists c.
      rewrite !Z.add_0_r. done. }
    pose proof (scan_edge_matches st s k t wr Hwr Hk Hl0 Hz fuel 1 sc
                  ltac:(lia) ltac:(lia) Hm1 Hsc) as Hres.
    assert (Hsplit : ∀ n, take (Z.to_nat k) s
                          ++ take n (drop (Z.to_nat k) s)
                          = take (Z.to_nat (k + Z.of_nat n)) s).
    { intros n. rewrite take_take_drop. f_equal. lia. }
    destruct sc as [|j|j].
    + destruct Hres as (j & Hj & Hkj & Hm). injection H as <- <-. left.
      split; [done|]. split; [done|].
      destruct (resolve_matched st t wr s k (Z.to_nat j) Hwr Hk Hl0
                  ltac:(lia) ltac:(lia) Hm) as (lab & Hlab & Hpre & _).
      pose proof (Hsplit (Z.to_nat j)) as Hs.
      replace (k + Z.of_nat (Z.to_nat j)) with (Z.of_nat (length s)) in Hs
        by lia.
      rewrite Nat2Z.id in Hs. rewrite (take_ge s (length s)) in Hs by lia.
      rewrite <- Hs.
      eapply path_to_reads_inside; eauto.
      rewrite <- Hpre. apply take_prefix.
    + destruct Hres as (Hj & Hkj & Hm). injection H as <- <-. right.
      split; [lia|].
      destruct (resolve_matched st t wr s k (Z.to_nat j) Hwr Hk Hl0
                  ltac:(lia) ltac:(lia) Hm) as (lab & Hlab & Hpre & _).
      pose proof (Hsplit (Z.to_nat j)) as Hs.
      replace (k + Z.of_nat (Z.to_nat j)) with (k + j) in Hs by lia.
      rewrite <- Hs. eapply path_to_reads_inside; eauto.
      rewrite <- Hpre. apply take_prefix.
    + destruct Hres as (Hj & Hm).
      destruct (resolve_matched st t wr s k (Z.to_nat j) Hwr Hk Hl0
                  ltac:(lia) ltac:(lia) Hm) as (lab & Hlab & _ & Hfull).
      apply (IH a' (k + j) p ap) in H; [exact H|lia|lia|].
      pose proof (Hsplit (Z.to_nat j)) as Hs.
      replace (k + Z.of_nat (Z.to_nat j)) with (k + j) in Hs by lia.
      rewrite <- Hs. rewrite <- (Hfull ltac:(lia)).
      eapply path_to_snoc; eauto.
Qed.

(** The labels of a tree do not depend on registry entries that no
    transition refers to. *)
Lemma path_reads_registry st hs li n u :
  labelled st →
  (∀ k w, haystack st !! k = Some w → hs !! k = Some w) →
  path_reads (MkTree (store st) (brk st) hs li) n u → path_reads st n u.
Proof.
  intros Lb Hext Hp.
  assert (Hres : ∀ a nd c t, store st !! a = Some nd → g nd !! c = Some t →
            resolve (MkTree (store st) (brk st) hs li) (sub t)
            = resolve st (sub t)).
  { intros a nd c t Ha Hc. destruct (Lb a nd c t Ha Hc) as (w & Hw & _).
    unfold resolve. simpl. rewrite Hw, (Hext _ _ Hw). reflexivity. }
  induction Hp as [n|n nd c t lab u Hn Hc Hl Hpre
                  |n nd c t lab m u Hn Hc Hl Ht _ IH]; simpl in *.
  - apply path_nil.
  - eapply path_inside; eauto. rewrite <- (Hres n nd c t); done.
  - eapply path_step; eauto. rewrite <- (Hres n nd c t); done.
Qed.

Lemma reachable_labelled st : reachable st → labelled st.
Proof.
  induction 1 as [|st fuel w st' id R IH H].
  - intros a nd c t. simpl. unfold root_addr, sink_addr.
    destruct a as [|[|a]].
    + rewrite lookup_insert_ne by done. rewrite lookup_insert_eq.
      intros [= <-]. simpl. rewrite lookup_empty. done.
    + rewrite lookup_insert_eq. intros [= <-]. simpl.
      rewrite lookup_empty. done.
    + rewrite !lookup_insert_ne by done. rewrite lookup_empty. done.
  - eapply addString_labelled; eauto. apply reachable_wf. done.
Qed.

(** * Nothing is lost *)

Lemma grown_from_refl st : grown_from st st.
Proof.
  split; [done|]. intros a nd Ha. exists nd. split_and!; try done.
  intros c t Hc. exists t. done.
Qed.

Lemma grown_from_trans st1 st2 st3 :
  grown_from st1 st2 → grown_from st2 st3 → grown_from st1 st3.
Proof.
  intros [Hb1 H1] [Hb2 H2]. split; [lia|]. intros a nd Ha.
  destruct (H1 a nd Ha) as (nd2 & Ha2 & Hc2 & Hg2 & Hs2).
  destruct (H2 a nd2 Ha2) as (nd3 & Ha3 & Hc3 & Hg3 & Hs3).
  exists nd3. split_and!; [done|congruence| |tauto].
  intros c t Hc. destruct (Hg2 c t Hc) as (t2 & Ht2 & Hr2 & Hl2).
  destruct (Hg3 c t2 Ht2) as (t3 & Ht3 & Hr3 & Hl3).
  exists t3. split_and!; [done|congruence|congruence].
Qed.

Lemma grown_set_link st a nd m :
  store st !! a = Some nd →
  grown_from st (set_node st a (MkNode (cls nd) (g nd) (Some m))).
Proof.
  intros Ha. split; [done|]. intros x ndx Hx. simpl.
  destruct (decide (a = x)) as [<-|Hne].
  - rewrite lookup_insert_eq. eexists. split; [done|].
    assert (ndx = nd) as -> by congruence. simpl. split_and!; try done.
    intros c t Hc. exists t. done.
  - rewrite lookup_insert_ne by done. exists ndx. split_and!; try done.
    intros c t Hc. exists t. done.
Qed.

Lemma grown_attach_leaf st ra nd c ms :
  wf_core st → store st !! ra = Some nd → g nd !! c = None →
  grown_from st (attach_leaf st ra nd c ms).
Proof.
  intros W Ha Hc.
  assert (Hlt : (ra < brk st)%nat) by (apply (wf_dom _ W); eauto).
  split; [simpl; lia|]. intros x ndx Hx.
  rewrite attach_leaf_lookup by done.
  assert (Hxlt : (x < brk st)%nat) by (apply (wf_dom _ W); eauto).
  destruct (decide (x = ra)) as [->|Hne].
  - eexists. split; [done|]. assert (ndx = nd) as -> by congruence. simpl.
    split_and!; try done. intros k t Hk. exists t.
    rewrite lookup_insert_ne by congruence. done.
  - destruct (decide (x = brk st)); [lia|]. exists ndx. split_and!; try done.
    intros k t Hk. exists t. done.
Qed.

Lemma grown_split_edge st na nd tk tr delta c :
  wf_core st → store st !! na = Some nd → g nd !! tk = Some tr →
  grown_from st (split_edge st na nd tk tr delta c).
Proof.
  intros W Ha Htk.
  assert (Hlt : (na < brk st)%nat) by (apply (wf_dom _ W); eauto).
  split; [simpl; lia|]. intros x ndx Hx.
  rewrite split_edge_lookup by done.
  assert (Hxlt : (x < brk st)%nat) by (apply (wf_dom _ W); eauto).
  destruct (decide (x = na)) as [->|Hne].
  - eexists. split; [done|]. assert (ndx = nd) as -> by congruence. simpl.
    split_and!; try done. intros k t Hk.
    destruct (decide (tk = k)) as [<-|Hn].
    + rewrite lookup_insert_eq. eexists. split; [done|].
      assert (t = tr) as -> by congruence. done.
    + rewrite lookup_insert_ne by done. exists t. done.
  - destruct (decide (x = brk st)); [lia|]. exists ndx. split_and!; try done.
    intros k t Hk. exists t. done.
Qed.

Lemma test_and_split_grown st n kp t w st' ep r' :
  wf_core st → test_and_split st n kp t w = Ok (st', ep, r') →
  grown_from st st'.
Proof.
  intros W H.
  destruct (test_and_split_inv _ _ _ _ _ _ _ _ W H)
    as (na & nd & tk & -> & Ha & Htk & Hcase).
  destruct Hcase as [(_ & -> & _)
                    |(_ & sp & c & Hsp & Hc & [(_ & -> & _)
                                              |(_ & _ & _ & ->)])];
    [apply grown_from_refl|apply grown_from_refl|].
  apply grown_split_edge; [done|done|].
  eapply find_stored_of_hay; eauto.
Qed.

Lemma update_grown fuel st s ki st' sk :
  wf st → update fuel st s ki = Ok (st', sk) → grown_from st st'.
Proof.
  intros W H. apply update_unfold in H; [|done].
  destruct H as (w & c & st1 & ep & r_ & Hw & Hc & Hts & Hinv & Hrest).
  assert (G1 : grown_from st st1).
  { eapply test_and_split_grown; [apply W|exact Hts]. }
  revert Hrest.
  apply (update_loop_preserves (grown_from st) w c (r ki) (ref_str ki));
    try done.
  - intros x a nd m Wx Gx Ha _ _.
    eapply grown_from_trans; [exact Gx|]. apply grown_set_link; done.
  - intros x ra nd Wx Gx Ha Hra Hg.
    eapply grown_from_trans; [exact Gx|]. apply grown_attach_leaf; done.
  - intros x n kp x' ep' r' Wx Gx Hx'.
    eapply grown_from_trans; [exact Gx|].
    eapply test_and_split_grown; eauto.
Qed.

Lemma deploy_loop_grown fuel :
  ∀ st s sindex i ap st',
  wf st → deploy_loop fuel st s sindex i ap = Ok st' → grown_from st st'.
Proof.
  induction fuel as [|fuel IH]; intros st s sindex i ap st' W H;
    simpl in H; destruct (Z.ltb_spec i (Z.of_nat (length s)));
    try discriminate; try (injection H as <-; apply grown_from_refl).
  inv_bind H. destruct x as [st1 ap1]. pose proof E as Hu.
  apply update_shape in E as (W1 & _); [|done].
  apply update_grown in Hu; [|done].
  inv_bind H. eapply grown_from_trans; [exact Hu|]. eapply IH; eauto.
Qed.

Lemma addString_grown fuel st w st' id :
  wf st → addString fuel st w = Ok (st', id) → grown_from st st'.
Proof.
  intros W H. pose proof H as H0.
  apply addString_shape in H0; [|done].
  destruct H0 as [_ [[_ ->]|(-> & _ & _ & _)]]; [apply grown_from_refl|].
  unfold addString in H.
  pose proof (wf_last _ (proj1 W)) as Hlast.
  assert (Hfree : haystack st !! (last_index st + 1) = None).
  { destruct (haystack st !! (last_index st + 1)) eqn:E; [|done].
    apply (wf_hay _ (proj1 W)) in E. lia. }
  inv_bind H. destruct x as [st2 d]. cbn [last_index] in *.
  unfold map_insert_new in E. rewrite Hfree in E.
  set (st1 := MkTree (store st) (brk st)
                (<[last_index st + 1 := w]> (haystack st))
                (last_index st + 1)) in *.
  assert (W1 : wf st1).
  { apply wf_registry; [done|lia|]. intros k u Hk.
    destruct (decide (k = last_index st + 1)) as [->|Hne]; [lia|].
    rewrite lookup_insert_ne in Hk by done.
    apply (wf_hay _ (proj1 W)) in Hk. lia. }
  assert (G1 : grown_from st st1) by (exact (grown_from_refl st)).
  unfold deploy_suffixes in E. inv_bind E. destruct x as [i ap].
  destruct (INT_MAX =? i).
  - injection E as <- <-. simpl in H. injection H as <- _.
    exact (grown_from_refl st).
  - inv_bind E. injection E as <- <-.
    apply deploy_loop_grown in E1; [|done].
    destruct (Z.ltb_spec (last_index st + 1) 0); [lia|].
    injection H as <- _. exact E1.
Qed.

Lemma update_loop_grown fuel st w c ki_r o r_ ep sk ki1 st' sk' :
  loop_inv st c o r_ ep sk ki1 →
  update_loop fuel st w c ki_r (Some o) r_ ep sk ki1 = Ok (st', sk') →
  grown_from st st'.
Proof.
  intros Hinv.
  apply (update_loop_preserves (grown_from st) w c ki_r (ref_str ki1)
           ltac:(intros x a nd m Wx Gx Ha _ _;
                 eapply grown_from_trans; [exact Gx|];
                 apply grown_set_link; done)
           ltac:(intros x ra nd Wx Gx Ha Hra Hg;
                 eapply grown_from_trans; [exact Gx|];
                 apply grown_attach_leaf; done)
           ltac:(intros x n kp x' ep' r' Wx Gx Hx';
                 eapply grown_from_trans; [exact Gx|];
                 eapply test_and_split_grown; eauto)
           fuel st o r_ ep sk ki1 st' sk' eq_refl Hinv
           (grown_from_refl st)).
Qed.

(** * What the tree holds *)

Lemma no_empty_transition_check st :
  map_Forall (λ _ nd, map_Forall (λ _ t, l (sub t) ≤ r (sub t)) (g nd))
    (store st) →
  no_empty_transition st.
Proof. intros H a nd c t Ha Hc. exact (H a nd Ha c t Hc). Qed.

Lemma registry_extends st w k u :
  wf st → haystack st !! k = Some u →
  map_insert_new (last_index st + 1) w (haystack st) !! k = Some u.
Proof.
  intros W Hk. unfold map_insert_new.
  destruct (haystack st !! (last_index st + 1)) eqn:E; [done|].
  rewrite lookup_insert_ne; [done|]. intros <-. congruence.
Qed.

(** X9. Every transition of a reachable tree is labelled by a registered
    string: its [ref_str] is the id of a string of the haystack, between 1
    and [last_index]; its left end [l] is a position of that string (the
    position of the end symbol included); and the key under which the
    transition is stored in [g] is the symbol the string has at [l]. *)
Theorem reachable_labels st a nd c t :
  reachable st → store st !! a = Some nd → g nd !! c = Some t →
  ∃ w, haystack st !! ref_str (sub t) = Some w
       ∧ 1 ≤ ref_str (sub t) ≤ last_index st
       ∧ 0 ≤ l (sub t) ≤ Z.of_nat (length w)
       ∧ at_ w (l (sub t)) = Ok c.
Proof.
  intros R Ha Hc.
  destruct (reachable_labelled st R a nd c t Ha Hc) as (w & Hw & Hat).
  exists w. split; [done|]. split; [|split; [|done]].
  - apply reachable_wf in R. exact (wf_hay _ (proj1 R) _ _ Hw).
  - exact (at_Ok_range _ _ _ Hat).
Qed.

Lemma reachable_labels_witness :
  ∃ w, haystack (tree_after [str "abac"]) !! 1 = Some w
       ∧ 1 ≤ 1 ≤ last_index (tree_after [str "abac"])
       ∧ 0 ≤ 1 ≤ Z.of_nat (length w)
       ∧ at_ w 1 = Ok 98.
Proof.
  assert (H : ∃ nd t, store (tree_after [str "abac"]) !! 1%nat = Some nd
                      ∧ g nd !! 98 = Some t
                      ∧ sub t = MappedSubstring 1 1 INT_MAX).
  { eexists _, _. split_and!; vm_compute; reflexivity. }
  destruct H as (nd & t & Hn & Hg & Hs).
  pose proof (reachable_labels (tree_after [str "abac"]) 1%nat nd 98 t
                (tree_after_reachable _) Hn Hg) as H.
  rewrite Hs in H. exact H.
Defined.



(** X11. A refused string is already in the tree.  On a reachable tree in
    which no stored transition is empty, for a string without the null
    symbol and shorter than [INT_MAX]: when [addString] returns -1, the
    string is read along transitions from the root of the tree as it was
    before the call. *)
Theorem addString_refused_is_present fuel st w st' :
  reachable st → no_empty_transition st → 0 ∉ w →
  Z.of_nat (length w) < INT_MAX →
  addString fuel st w = Ok (st', -1) →
  path_reads st root_addr w.
Proof.
  intros R Hne Hz Hlen H.
  pose proof (reachable_labelled _ R) as Lb.
  apply reachable_wf in R.
  pose proof (wf_last _ (proj1 R)) as Hlast.
  unfold addString in H. inv_bind H. destruct x as [st2 d].
  cbn [last_index] in *.
  set (hs := map_insert_new (last_index st + 1) w (haystack st)) in *.
  set (st1 := MkTree (store st) (brk st) hs (last_index st + 1)) in *.
  assert (Hext : ∀ k u, haystack st !! k = Some u → hs !! k = Some u).
  { intros k u Hk. apply registry_extends; done. }
  assert (W1 : wf st1).
  { apply wf_registry; [done|lia|]. intros k u Hk.
    unfold hs, map_insert_new in Hk.
    destruct (haystack st !! (last_index st + 1)) eqn:E0.
    - apply (wf_hay _ (proj1 R)) in Hk. lia.
    - destruct (decide (k = last_index st + 1)) as [->|Hn]; [lia|].
      rewrite lookup_insert_ne in Hk by done.
      apply (wf_hay _ (proj1 R)) in Hk. lia. }
  assert (Lb1 : labelled st1).
  { intros a nd c t Ha Hc. destruct (Lb a nd c t Ha Hc) as (u & Hu & Hat).
    exists u. split; [|done]. apply Hext. done. }
  unfold deploy_suffixes in E. inv_bind E. destruct x as [i ap].
  unfold get_starting_node, root in E0. cbn [fst snd] in E0.
  eapply (walk_sound st1 w _ 0 (proj1 W1) Lb1 Hne Hz) in E0;
    [|lia|unfold root_addr; lia|apply path_to_refl].
  destruct (Z.eqb_spec INT_MAX i) as [<-|Hi].
  - destruct E0 as [(_ & _ & Hp)|[Hr _]]; [|lia].
    apply (path_reads_registry st hs (last_index st + 1)); done.
  - inv_bind E. injection E as <- <-.
    destruct (Z.ltb_spec (last_index st + 1) 0); [lia|].
    (* a success returns the new id, which is not -1 *)
    match goal with
    | Hd : deploy_loop _ _ _ _ _ _ = Ok _ |- _ =>
        apply deploy_loop_shape in Hd as (_ & _ & Hl2 & _); [|done]
    end.
    injection H as _ Hid. simpl in Hl2. lia.
Qed.

Lemma addString_refused_is_present_witness :
  path_reads (tree_after [str "abac"]) root_addr (str "ab").
Proof.
  apply (addString_refused_is_present 8 (tree_after [str "abac"]) (str "ab")
           (tree_after [str "abac"])).
  - apply tree_after_reachable.
  - apply no_empty_transition_check. refine (bool_decide_unpack _ _).
    vm_compute. exact I.
  - refine (bool_decide_unpack _ _). vm_compute. exact I.
  - vm_compute. reflexivity.
  - vm_compute. reflexivity.
Defined.

(** * Insertion only adds *)

(** X12. [addString] loses nothing.  After a returning [addString] on a
    reachable tree, every node object is still at its address with its
    class; every transition it had is still stored under the same symbol
    and still starts at the same position of the same string; and a
    suffix link that was set is still set. *)
Theorem addString_loses_nothing fuel st w st' id a nd :
  reachable st → addString fuel st w = Ok (st', id) →
  store st !! a = Some nd →
  ∃ nd', store st' !! a = Some nd' ∧ cls nd' = cls nd
         ∧ (∀ c t, g nd !! c = Some t →
              ∃ t', g nd' !! c = Some t'
                    ∧ ref_str (sub t') = ref_str (sub t)
                    ∧ l (sub t') = l (sub t))
         ∧ (is_Some (suffix_link nd) → is_Some (suffix_link nd')).
Proof.
  intros R H Ha. apply reachable_wf in R.
  destruct (addString_grown _ _ _ _ _ R H) as [_ Hg]. exact (Hg a nd Ha).
Qed.

Lemma addString_loses_nothing_witness :
  ∃ nd nd', store (tree_after [str "ab"]) !! 1%nat = Some nd
            ∧ store (tree_after [str "ab"; str "cb"]) !! 1%nat = Some nd'
            ∧ cls nd' = cls nd
            ∧ (∀ c t, g nd !! c = Some t →
                 ∃ t', g nd' !! c = Some t'
                       ∧ ref_str (sub t') = ref_str (sub t)
                       ∧ l (sub t') = l (sub t))
            ∧ (is_Some (suffix_link nd) → is_Some (suffix_link nd')).
Proof.
  assert (Hn : ∃ nd, store (tree_after [str "ab"]) !! 1%nat = Some nd).
  { eexists. vm_compute. reflexivity. }
  destruct Hn as (nd & Hn).
  assert (Hadd : addString 64 (tree_after [str "ab"]) (str "cb")
                 = Ok (tree_after [str "ab"; str "cb"], 2)).
  { vm_compute. reflexivity. }
  destruct (addString_loses_nothing 64 (tree_after [str "ab"]) (str "cb")
              (tree_after [str "ab"; str "cb"]) 2 1%nat nd
              (tree_after_reachable _) Hadd Hn) as (nd' & H).
  exists nd, nd'. split; [exact Hn|exact H].
Defined.

(** * Where the walk stops *)

Lemma scan_edge_progress st s k t :
  ∀ fuel i sc, scan_edge fuel st s k t i = Ok sc →
    match sc with
    | ScanRunout => True
    | ScanMismatch j => i ≤ j ∧ k + j < Z.of_nat (length s)
    | ScanDone j => i ≤ j
    end.
Proof.
  induction fuel as [|fuel IH]; intros i sc H; cbn [scan_edge] in H.
  all: destruct (Z.leb_spec i (r (sub t) - l (sub t)));
    [|injection H as <-; lia].
  - discriminate.
  - destruct (Z.leb_spec (Z.of_nat (length s)) (k + i));
      [injection H as <-; done|].
    inv_bind H. inv_bind H. inv_bind H. case_bool_decide.
    + injection H as <-. lia.
    + apply IH in H. destruct sc; try done; lia.
Qed.

Lemma get_starting_node_loop_point st s rid rk :
  wf_core st →
  ∀ fuel a k p ap,
    rk ≤ k → (1 ≤ a < brk st)%nat →
    get_starting_node_loop fuel st s (Some a) rid rk k = Ok (p, ap) →
    ∃ b rk', ap = (Some b, (rid, rk')) ∧ (1 ≤ b < brk st)%nat
             ∧ ((p = INT_MAX ∧ rk' = INT_MAX)
                ∨ (rk ≤ rk' ≤ p ∧ p ≤ Z.of_nat (length s))).
Proof.
  intros W. induction fuel as [|fuel IH]; intros a k p ap Hk Ha H;
    [discriminate|].
  cbn [get_starting_node_loop] in H.
  inv_bind H. rename x into c. apply at_Ok_range in E.
  inv_bind H. rename x into nd. apply deref_Ok in E0 as (? & [= <-] & Hnd).
  case_bool_decide as Ht.
  2:{ injection H as <- <-. exists a, rk. split; [done|]. split; [done|].
      right. lia. }
  inv_bind H. rename x into sc. apply scan_edge_progress in E0.
  destruct sc as [|j|j].
  - injection H as <- <-. exists a, INT_MAX. split; [done|]. split; [done|].
    left. done.
  - injection H as <- <-. exists a, k. split; [done|]. split; [done|].
    right. lia.
  - destruct (tgt (find_alpha_transition nd c)) as [a'|] eqn:Hf; [|done].
    assert (Ha' : (1 ≤ a' < brk st)%nat).
    { destruct (decide (cls nd = IsSinkNode)) as [Hs|Hs].
      - pose proof (wf_cls _ W _ _ Hnd Hs). unfold sink_addr in *. lia.
      - rewrite find_stored in Hf by done.
        destruct (g nd !! c) as [t|] eqn:Hg; [|done].
        assert (2 ≤ a' < brk st)%nat; [|lia].
        apply (wf_tgt _ W a c a'). exists nd, t. done. }
    apply IH in H; [|lia|done].
    destruct H as (b & rk' & -> & Hb & Hcase). exists b, rk'.
    split; [done|]. split; [done|]. exact Hcase.
Qed.

(** X13. Where the fast-forward walk stops.  On a reachable tree,
    [get_starting_node] started at the root with offset 0 leaves in [*r] a
    live node other than the sink and the string id it was given.  Either
    it reports a run-out, and both the result and the offset left in [*r]
    are [INT_MAX]; or it returns a position [p] of the string with
    [0 <= offset <= p <= |s|]. *)
Theorem get_starting_node_point fuel st s rid p ap :
  reachable st →
  get_starting_node fuel st s (root, (rid, 0)) = Ok (p, ap) →
  ∃ b rk, ap = (Some b, (rid, rk)) ∧ (1 ≤ b < brk st)%nat
          ∧ ((p = INT_MAX ∧ rk = INT_MAX)
             ∨ (0 ≤ rk ≤ p ∧ p ≤ Z.of_nat (length s))).
Proof.
  intros R H. apply reachable_wf in R. destruct R as [W _].
  unfold get_starting_node, root in H. cbn [fst snd] in H.
  apply (get_starting_node_loop_point st s rid 0 W) in H; [done|lia|].
  pose proof (wf_brk _ W). unfold root_addr. lia.
Qed.

Lemma get_starting_node_point_witness :
  ∃ b rk, (Some 4%nat, (2, 1)) = (Some b, (2, rk))
          ∧ (1 ≤ b < brk (tree_after [str "abac"]))%nat
          ∧ ((3 = INT_MAX ∧ rk = INT_MAX)
             ∨ (0 ≤ rk ≤ 3 ∧ 3 ≤ Z.of_nat (length (str "abab")))).
Proof.
  apply (get_starting_node_point 6 (tree_after [str "abac"]) (str "abab") 2
           3 (Some 4%nat, (2, 1))).
  - apply tree_after_reachable.
  - vm_compute. reflexivity.
Defined.

(** * update when the symbol is already there *)

(** X14. [update] at an explicit point that already has the symbol.  When
    the substring of [ki] before its last position is empty
    ([ki.r - 1 < ki.l]) and the lookup of the symbol [w[ki.r]] at the node
    [s] gives a non-null target (a stored transition, or any lookup at the
    sink), [update] changes nothing, whatever the fuel: it returns the
    state as it was and the reference point [(s, (ki.ref_str, ki.l))]. *)
Theorem update_present_explicit fuel st sa nd ki w c tk :
  store st !! sa = Some nd →
  haystack st !! ref_str ki = Some w →
  at_ w (r ki) = Ok c → at_ w (l ki) = Ok tk →
  r ki - 1 < l ki →
  tgt (find_alpha_transition nd c) ≠ None →
  update fuel st (Some sa) ki = Ok (st, (Some sa, (ref_str ki, l ki))).
Proof.
  intros Ha Hw Hc Htk Hemp Hf. unfold update.
  apply hay_Ok in Hw. rewrite Hw, bind_Ok_l, Hc, bind_Ok_l.
  rewrite (test_and_split_empty st sa nd
             (MappedSubstring (ref_str ki) (l ki) (r ki - 1)) c w tk
             Ha Htk Hemp), bind_Ok_l.
  rewrite bool_decide_true by done.
  rewrite update_loop_endpoint. unfold link_unless_root.
  rewrite bool_decide_false by (intros Hn; apply Hn; reflexivity).
  reflexivity.
Qed.

Lemma update_present_explicit_witness :
  update 0 (tree_after [str "abac"]) sink (MappedSubstring 1 2 2)
  = Ok (tree_after [str "abac"], (sink, (1, 2))).
Proof.
  assert (Hn : ∃ nd, store (tree_after [str "abac"]) !! 0%nat = Some nd
                     ∧ tgt (find_alpha_transition nd 97) ≠ None).
  { eexists. split; [vm_compute; reflexivity|]. vm_compute. discriminate. }
  destruct Hn as (nd & Hn & Hf).
  apply (update_present_explicit 0 (tree_after [str "abac"]) 0%nat nd
           (MappedSubstring 1 2 2) (str "abac") 97 97).
  - exact Hn.
  - vm_compute. reflexivity.
  - vm_compute. reflexivity.
  - vm_compute. reflexivity.
  - vm_compute. reflexivity.
  - exact Hf.
Defined.

(** X15. [update] inside a transition that continues with the symbol.
    When the substring of [ki] before its last position is not empty, the
    transition of [s] for its first symbol is labelled by the registered
    string [sp], and [sp] has the symbol [w[ki.r]] right after the part of
    the label the substring covers, [update] changes nothing, whatever the
    fuel. *)
Theorem update_present_implicit fuel st sa nd ki w c tk sp :
  reachable st →
  store st !! sa = Some nd →
  haystack st !! ref_str ki = Some w →
  at_ w (r ki) = Ok c → at_ w (l ki) = Ok tk →
  l ki ≤ r ki - 1 →
  haystack st !! ref_str (sub (find_alpha_transition nd tk)) = Some sp →
  at_ sp (l (sub (find_alpha_transition nd tk)) + (r ki - 1 - l ki) + 1)
  = Ok c →
  update fuel st (Some sa) ki = Ok (st, (Some sa, (ref_str ki, l ki))).
Proof.
  intros R Ha Hw Hc Htk Hne Hsp Hat. apply reachable_wf in R.
  assert (Hlt : (sa < brk st)%nat) by (apply (wf_dom _ (proj1 R)); eauto).
  unfold update.
  apply hay_Ok in Hw. rewrite Hw, bind_Ok_l, Hc, bind_Ok_l.
  rewrite (test_and_split_nonempty st sa nd
             (MappedSubstring (ref_str ki) (l ki) (r ki - 1)) c w tk sp c
             Ha Hlt Htk Hne Hsp Hat).
  rewrite decide_True by done. rewrite bind_Ok_l.
  rewrite update_loop_endpoint. unfold link_unless_root.
  rewrite bool_decide_false by (intros Hn; apply Hn; reflexivity).
  reflexivity.
Qed.

Lemma update_present_implicit_witness :
  update 0 (tree_after [str "abac"]) root (MappedSubstring 1 1 2)
  = Ok (tree_after [str "abac"], (root, (1, 1))).
Proof.
  assert (Hn : ∃ nd, store (tree_after [str "abac"]) !! 1%nat = Some nd
                     ∧ haystack (tree_after [str "abac"])
                         !! ref_str (sub (find_alpha_transition nd 98))
                       = Some (str "abac")
                     ∧ at_ (str "abac")
                         (l (sub (find_alpha_transition nd 98))
                          + (2 - 1 - 1) + 1) = Ok 97).
  { eexists. split_and!; vm_compute; reflexivity. }
  destruct Hn as (nd & Hn & Hsp & Hat).
  apply (update_present_implicit 0 (tree_after [str "abac"]) 1%nat nd
           (MappedSubstring 1 1 2) (str "abac") 97 98 (str "abac")).
  - apply tree_after_reachable.
  - exact Hn.
  - vm_compute. reflexivity.
  - vm_compute. reflexivity.
  - vm_compute. reflexivity.
  - cbn [l r]. lia.
  - exact Hsp.
  - exact Hat.
Defined.

(** * canonize comes to an end *)

Lemma find_alpha_transition_sound st a nd c :
  no_empty_transition st → store st !! a = Some nd →
  l (sub (find_alpha_transition nd c)) ≤ r (sub (find_alpha_transition nd c))
  ∨ (tgt (find_alpha_transition nd c) = None
     ∧ r (sub (find_alpha_transition nd c))
       - l (sub (find_alpha_transition nd c)) = -1).
Proof.
  intros Hne Ha. destruct (decide (cls nd = IsSinkNode)) as [Hs|Hs].
  - rewrite find_sink by done. left. simpl. lia.
  - rewrite find_stored by done. destruct (g nd !! c) as [t|] eqn:Hg.
    + left. exact (Hne a nd c t Ha Hg).
    + right. done.
Qed.

Lemma canonize_loop_returns st w :
  no_empty_transition st →
  ∀ fuel s kp t,
    (l (sub t) ≤ r (sub t)
     ∨ (tgt t = None ∧ r (sub t) - l (sub t) = -1 ∧ l kp ≤ r kp)) →
    (Z.to_nat (r kp - l kp + 1) < fuel)%nat →
    canonize_loop fuel st w s kp t ≠ Timeout.
Proof.
  intros Hne. induction fuel as [|fuel IH]; intros s kp t Ht Hfuel; [lia|].
  cbn [canonize_loop].
  destruct (Z.leb_spec (r (sub t) - l (sub t)) (r kp - l kp)) as [Hd|Hd];
    [|done].
  cbn [l r ref_str].
  destruct Ht as [Ht|(Hnull & Hm & Hkp)].
  - destruct (Z.leb_spec (l kp + (1 + (r (sub t) - l (sub t)))) (r kp))
      as [Hin|Hout].
    + pose proof (at_not_Timeout w (l kp + (1 + (r (sub t) - l (sub t)))))
        as N1.
      destruct (at_ w (l kp + (1 + (r (sub t) - l (sub t))))) as [c | | ];
        [|rewrite bind_UB_l; done|done].
      rewrite bind_Ok_l.
      destruct (deref st (tgt t)) as [nd | | ] eqn:Hdr;
        [|rewrite bind_UB_l; done|by apply deref_not_Timeout in Hdr].
      rewrite bind_Ok_l. apply deref_Ok in Hdr as (a & _ & Ha).
      apply IH; cbn [l r]; [|lia].
      destruct (find_alpha_transition_sound st a nd c Hne Ha) as [H|[H1 H2]];
        [left; done|right]. split_and!; [done|done|lia].
    + destruct fuel as [|fuel']; cbn [canonize_loop]; cbn [l r].
      all: destruct (Z.leb_spec (r (sub t) - l (sub t))
                       (r kp - (l kp + (1 + (r (sub t) - l (sub t))))));
        [lia|done].
  - rewrite Hm. destruct (Z.leb_spec (l kp + (1 + -1)) (r kp)); [|lia].
    pose proof (at_not_Timeout w (l kp + (1 + -1))) as N1.
    destruct (at_ w (l kp + (1 + -1))) as [c | | ];
      [|rewrite bind_UB_l; done|done].
    rewrite bind_Ok_l, Hnull. cbn [deref]. rewrite bind_UB_l. done.
Qed.

(** X16. [canonize] comes to an end.  On a state in which no stored
    transition is empty, [canonize] returns or runs into undefined
    behaviour within a fuel of the length of the substring plus one: every
    round of its loop consumes at least one symbol of the substring, and a
    lookup that finds nothing is followed by the dereference of a null
    pointer, not by another round. *)
Theorem canonize_terminates fuel st s kp :
  no_empty_transition st →
  (Z.to_nat (r kp - l kp + 1) < fuel)%nat →
  canonize fuel st s kp ≠ Timeout.
Proof.
  intros Hne Hfuel. unfold canonize.
  destruct (Z.ltb_spec (r kp) (l kp)); [done|].
  pose proof (hay_not_Timeout st (ref_str kp)) as N0.
  destruct (hay st (ref_str kp)) as [w | | ]; [|rewrite bind_UB_l; done|done].
  rewrite bind_Ok_l.
  pose proof (at_not_Timeout w (l kp)) as N1.
  destruct (at_ w (l kp)) as [c | | ]; [|rewrite bind_UB_l; done|done].
  rewrite bind_Ok_l.
  destruct (deref st s) as [nd | | ] eqn:Hdr;
    [|rewrite bind_UB_l; done|by apply deref_not_Timeout in Hdr].
  rewrite bind_Ok_l. apply deref_Ok in Hdr as (a & _ & Ha).
  apply canonize_loop_returns; [done| |done].
  destruct (find_alpha_transition_sound st a nd c Hne Ha) as [H'|[H1 H2]];
    [left; done|right]. split_and!; [done|done|lia].
Qed.

Lemma canonize_terminates_witness :
  canonize 3 (tree_after [str "abac"]) root (MappedSubstring 1 0 1)
  ≠ Timeout.
Proof.
  apply (canonize_terminates 3 (tree_after [str "abac"]) root
           (MappedSubstring 1 0 1)).
  - apply no_empty_transition_check. refine (bool_decide_unpack _ _).
    vm_compute. exact I.
  - vm_compute. lia.
Defined.

(** * Words are kept *)

Lemma reads_kept_refl st : reads_kept st st.
Proof. intros n u H. exact H. Qed.

Lemma reads_kept_trans st1 st2 st3 :
  reads_kept st1 st2 → reads_kept st2 st3 → reads_kept st1 st3.
Proof. intros H1 H2 n u H. apply H2, H1, H. Qed.

Lemma resolve_haystack st st' m :
  haystack st' = haystack st → resolve st' m = resolve st m.
Proof. intros Hh. unfold resolve. rewrite Hh. reflexivity. Qed.

Lemma transitions_kept_reads st st' :
  haystack st' = haystack st → transitions_kept st st' → reads_kept st st'.
Proof.
  intros Hh Hk n u Hp.
  induction Hp as [n|n nd c t lab u Hn Hc Hl Hpre
                  |n nd c t lab m u Hn Hc Hl Ht _ IH].
  - apply path_nil.
  - destruct (Hk n nd c t Hn Hc) as (nd' & Hn' & Hc').
    eapply path_inside; [exact Hn'|exact Hc'| |exact Hpre].
    rewrite (resolve_haystack st st') by done. exact Hl.
  - destruct (Hk n nd c t Hn Hc) as (nd' & Hn' & Hc').
    eapply path_step; [exact Hn'|exact Hc'| |exact Ht|exact IH].
    rewrite (resolve_haystack st st') by done. exact Hl.
Qed.

Lemma transitions_kept_has_empty st st' :
  transitions_kept st st' →
  has_empty_transition st → has_empty_transition st'.
Proof.
  intros Hk (a & nd & c & t & Ha & Hc & Hlt).
  destruct (Hk a nd c t Ha Hc) as (nd' & Ha' & Hc').
  exists a, nd', c, t. done.
Qed.

Lemma set_link_keeps st a nd q :
  store st !! a = Some nd →
  transitions_kept st (set_node st a (MkNode (cls nd) (g nd) q)).
Proof.
  intros Ha x ndx c t Hx Hc. simpl. destruct (decide (a = x)) as [<-|Hne].
  - rewrite lookup_insert_eq. eexists. split; [done|]. simpl.
    assert (ndx = nd) as -> by congruence. done.
  - rewrite lookup_insert_ne by done. exists ndx. done.
Qed.

Lemma attach_leaf_keeps st ra nd c ms :
  wf_core st → store st !! ra = Some nd → g nd !! c = None →
  transitions_kept st (attach_leaf st ra nd c ms).
Proof.
  intros W Ha Hc x ndx k t Hx Hk.
  assert (Hlt : (ra < brk st)%nat) by (apply (wf_dom _ W); eauto).
  assert (Hxlt : (x < brk st)%nat) by (apply (wf_dom _ W); eauto).
  rewrite attach_leaf_lookup by done.
  destruct (decide (x = ra)) as [->|Hne].
  - eexists. split; [done|]. simpl. assert (ndx = nd) as -> by congruence.
    rewrite lookup_insert_ne by congruence. done.
  - destruct (decide (x = brk st)); [lia|]. exists ndx. done.
Qed.

Lemma prefix_app_cases (u l1 l2 : list Z) :
  u `prefix_of` l1 ++ l2 →
  u `prefix_of` l1 ∨ ∃ u2, u = l1 ++ u2 ∧ u2 `prefix_of` l2.
Proof.
  intros [k Hk]. apply app_eq_app in Hk as [m [[H1 H2]|[H1 H2]]].
  - left. exists m. done.
  - right. exists m. split; [done|]. exists k. done.
Qed.

Lemma take_clamp (n : nat) (ys : list Z) :
  take n ys = take (n `min` length ys) ys.
Proof.
  destruct (Nat.le_gt_cases n (length ys)).
  - rewrite Nat.min_l by done. reflexivity.
  - rewrite Nat.min_r by lia. rewrite !take_ge by lia. reflexivity.
Qed.

Lemma resolve_split st ref l0 r0 delta sp :
  haystack st !! ref = Some sp →
  0 ≤ l0 → 0 ≤ delta → l0 + delta + 1 ≤ Z.of_nat (length sp) →
  l0 + delta + 1 ≤ r0 →
  ∃ lab1 lab2,
    resolve st (MappedSubstring ref l0 (l0 + delta)) = Some lab1
    ∧ resolve st (MappedSubstring ref (l0 + (delta + 1)) r0) = Some lab2
    ∧ resolve st (MappedSubstring ref l0 r0) = Some (lab1 ++ lab2).
Proof.
  intros Hsp Hl Hd Hlen Hr. unfold resolve. cbn [ref_str l r].
  rewrite Hsp. cbn zeta.
  destruct (Z.ltb_spec l0 0); [lia|].
  destruct (Z.ltb_spec (l0 + (delta + 1)) 0); [lia|].
  eexists _, _. split; [reflexivity|]. split; [reflexivity|]. f_equal.
  set (len := Z.of_nat (length sp)) in *.
  rewrite (Z.min_l l0 len) by lia.
  rewrite (Z.min_l (l0 + (delta + 1)) len) by lia.
  rewrite (Z.min_l (l0 + delta - l0 + 1) len) by lia.
  replace (Z.to_nat (l0 + (delta + 1)))
    with (Z.to_nat l0 + Z.to_nat (delta + 1))%nat by lia.
  rewrite <- drop_drop.
  set (xs := drop (Z.to_nat l0) sp).
  assert (Hxs : length xs = (length sp - Z.to_nat l0)%nat).
  { unfold xs. rewrite length_drop. reflexivity. }
  replace (Z.to_nat (l0 + delta - l0 + 1)) with (Z.to_nat (delta + 1)) by lia.
  set (d1 := Z.to_nat (delta + 1)).
  replace (Z.to_nat (Z.min (r0 - l0 + 1) len))
    with (d1 + (Z.to_nat (Z.min (r0 - l0 + 1) len) - d1))%nat by lia.
  rewrite <- take_take_drop. f_equal.
  rewrite (take_clamp (Z.to_nat (Z.min (r0 - l0 + 1) len) - d1)).
  rewrite (take_clamp (Z.to_nat (Z.min (r0 - (l0 + (delta + 1)) + 1) len))).
  f_equal. rewrite length_drop, Hxs. unfold d1, len. lia.
Qed.

Lemma reads_kept_split_edge st na nd tk tr delta c sp :
  wf_core st → store st !! na = Some nd → g nd !! tk = Some tr →
  haystack st !! ref_str (sub tr) = Some sp →
  0 ≤ l (sub tr) → 0 ≤ delta →
  l (sub tr) + delta + 1 ≤ Z.of_nat (length sp) →
  l (sub tr) + delta + 1 ≤ r (sub tr) →
  reads_kept st (split_edge st na nd tk tr delta c).
Proof.
  intros W Ha Htk Hsp Hl Hd Hlen Hr.
  assert (Hlt : (na < brk st)%nat) by (apply (wf_dom _ W); eauto).
  destruct (resolve_split st _ _ _ _ _ Hsp Hl Hd Hlen Hr)
    as (lab1 & lab2 & H1 & H2 & H12).
  assert (Htr : sub tr = MappedSubstring (ref_str (sub tr)) (l (sub tr))
                           (r (sub tr))) by (destruct (sub tr); done).
  rewrite <- Htr in H12.
  set (st' := split_edge st na nd tk tr delta c).
  assert (Hres : ∀ m, resolve st' m = resolve st m).
  { intros m. apply resolve_haystack. reflexivity. }
  assert (Hna : ∃ nd1, store st' !! na = Some nd1
              ∧ g nd1 !! tk
                = Some (Transition
                          (MappedSubstring (ref_str (sub tr)) (l (sub tr))
                             (l (sub tr) + delta)) (Some (brk st)))
              ∧ ∀ k, k ≠ tk → g nd1 !! k = g nd !! k).
  { unfold st'. rewrite split_edge_lookup by done.
    rewrite decide_True by done. eexists. split; [done|]. simpl. split.
    - rewrite lookup_insert_eq. done.
    - intros k Hk. rewrite lookup_insert_ne by done. done. }
  destruct Hna as (nd1 & Hnd1 & Hnd1tk & Hnd1k).
  assert (Hnew : ∃ nd2, store st' !! brk st = Some nd2
              ∧ g nd2 !! c
                = Some (Transition
                          (MappedSubstring (ref_str (sub tr))
                             (l (sub tr) + (delta + 1)) (r (sub tr)))
                          (tgt tr))).
  { unfold st'. rewrite split_edge_lookup by done.
    rewrite decide_False by lia. rewrite decide_True by done.
    eexists. split; [done|]. simpl. rewrite lookup_insert_eq. done. }
  destruct Hnew as (nd2 & Hnd2 & Hnd2c).
  assert (Hother : ∀ x ndx, store st !! x = Some ndx → x ≠ na →
                            store st' !! x = Some ndx).
  { intros x ndx Hx Hne. unfold st'. rewrite split_edge_lookup by done.
    rewrite decide_False by done.
    assert (x < brk st)%nat by (apply (wf_dom _ W); eauto).
    rewrite decide_False by lia. done. }
  intros n u Hp.
  induction Hp as [n|n ndn k t lab u Hn Hk Hlab Hpre
                  |n ndn k t lab m u Hn Hk Hlab Ht _ IH].
  - apply path_nil.
  - destruct (decide (n = na)) as [->|Hne].
    + assert (ndn = nd) as -> by congruence.
      destruct (decide (k = tk)) as [->|Hkne].
      * assert (t = tr) as -> by congruence.
        rewrite H12 in Hlab. injection Hlab as <-.
        apply prefix_app_cases in Hpre as [Hp1|(u2 & -> & Hp2)].
        -- eapply path_inside; [exact Hnd1|exact Hnd1tk| |exact Hp1].
           rewrite Hres. exact H1.
        -- eapply path_step; [exact Hnd1|exact Hnd1tk| |reflexivity|].
           { rewrite Hres. exact H1. }
           eapply path_inside; [exact Hnd2|exact Hnd2c| |exact Hp2].
           rewrite Hres. exact H2.
      * eapply path_inside; [exact Hnd1| | |exact Hpre].
        -- rewrite Hnd1k by done. exact Hk.
        -- rewrite Hres. exact Hlab.
    + eapply path_inside; [apply Hother; done|exact Hk| |exact Hpre].
      rewrite Hres. exact Hlab.
  - destruct (decide (n = na)) as [->|Hne].
    + assert (ndn = nd) as -> by congruence.
      destruct (decide (k = tk)) as [->|Hkne].
      * assert (t = tr) as -> by congruence.
        rewrite H12 in Hlab. injection Hlab as <-. rewrite <- app_assoc.
        eapply path_step; [exact Hnd1|exact Hnd1tk| |reflexivity|].
        { rewrite Hres. exact H1. }
        eapply path_step; [exact Hnd2|exact Hnd2c| |exact Ht|exact IH].
        rewrite Hres. exact H2.
      * eapply path_step; [exact Hnd1| | |exact Ht|exact IH].
        -- rewrite Hnd1k by done. exact Hk.
        -- rewrite Hres. exact Hlab.
    + eapply path_step; [apply Hother; done|exact Hk| |exact Ht|exact IH].
      rewrite Hres. exact Hlab.
Qed.

Lemma has_empty_split_edge st na nd tk tr delta c :
  wf_core st → store st !! na = Some nd → g nd !! tk = Some tr →
  0 ≤ delta →
  has_empty_transition st →
  has_empty_transition (split_edge st na nd tk tr delta c).
Proof.
  intros W Ha Htk Hd (x & ndx & k & t & Hx & Hk & Hlt).
  assert (Hna : (na < brk st)%nat) by (apply (wf_dom _ W); eauto).
  assert (Hxlt : (x < brk st)%nat) by (apply (wf_dom _ W); eauto).
  destruct (decide (x = na)) as [->|Hne].
  - assert (ndx = nd) as -> by congruence.
    destruct (decide (k = tk)) as [->|Hkne].
    + assert (t = tr) as -> by congruence.
      exists (brk st). eexists _, c, _.
      rewrite split_edge_lookup by done.
      rewrite decide_False by lia. rewrite decide_True by done.
      split; [done|]. simpl. rewrite lookup_insert_eq.
      split; [done|]. simpl. lia.
    + exists na. eexists _, k, t. rewrite split_edge_lookup by done.
      rewrite decide_True by done. split; [done|]. simpl.
      rewrite lookup_insert_ne by done. done.
  - exists x, ndx, k, t. rewrite split_edge_lookup by done.
    rewrite decide_False by done. rewrite decide_False by lia. done.
Qed.

Lemma test_and_split_has_empty st n kp t w st' ep r' :
  wf_core st → test_and_split st n kp t w = Ok (st', ep, r') →
  has_empty_transition st → has_empty_transition st'.
Proof.
  intros W H He.
  destruct (test_and_split_inv _ _ _ _ _ _ _ _ W H)
    as (na & nd & tk & -> & Ha & Htk & Hcase).
  destruct Hcase as [(_ & -> & _)
                    |(Hle & sp & c & Hsp & Hc & [(_ & -> & _)
                                                |(_ & _ & _ & ->)])];
    [done|done|].
  apply has_empty_split_edge; [done|done| |lia|done].
  eapply find_stored_of_hay; eauto.
Qed.

Lemma test_and_split_reads st n kp t w st' ep r' :
  wf_core st → labelled st →
  test_and_split st n kp t w = Ok (st', ep, r') →
  has_empty_transition st' ∨ reads_kept st st'.
Proof.
  intros W Lb H.
  destruct (test_and_split_inv _ _ _ _ _ _ _ _ W H)
    as (na & nd & tk & -> & Ha & Htk & Hcase).
  destruct Hcase as [(_ & -> & _)
                    |(Hle & sp & c & Hsp & Hc & [(_ & -> & _)
                                                |(_ & _ & _ & ->)])];
    [right; apply reads_kept_refl|right; apply reads_kept_refl|].
  assert (Hna : (na < brk st)%nat) by (apply (wf_dom _ W); eauto).
  pose proof (find_stored_of_hay _ _ _ _ _ W Ha Hsp) as Hst.
  set (tr := find_alpha_transition nd tk) in *.
  destruct (Lb _ _ _ _ Ha Hst) as (w' & Hw' & Hat).
  apply at_Ok_range in Hat. apply at_Ok_range in Hc.
  destruct (Z.le_gt_cases (l (sub tr) + (r kp - l kp) + 1) (r (sub tr)))
    as [Hproper|Himproper].
  - right.
    apply (reads_kept_split_edge st na nd tk tr (r kp - l kp) c sp
             W Ha Hst Hsp); lia.
  - left. exists (brk st). eexists _, c, _.
    rewrite split_edge_lookup by done.
    rewrite decide_False by lia. rewrite decide_True by done.
    split; [done|]. simpl. rewrite lookup_insert_eq.
    split; [done|]. simpl. lia.
Qed.

Lemma update_has_empty fuel st s ki st' sk :
  wf st → update fuel st s ki = Ok (st', sk) →
  has_empty_transition st → has_empty_transition st'.
Proof.
  intros W H He. apply update_unfold in H; [|done].
  destruct H as (w & c & st1 & ep & r_ & Hw & Hc & Hts & Hinv & Hrest).
  assert (He1 : has_empty_transition st1).
  { eapply test_and_split_has_empty; [apply W|exact Hts|exact He]. }
  revert Hrest.
  apply (update_loop_preserves has_empty_transition w c (r ki) (ref_str ki));
    try done.
  - intros x a nd m Wx Hx Ha _ _.
    eapply transitions_kept_has_empty; [|exact Hx].
    apply set_link_keeps. done.
  - intros x ra nd Wx Hx Ha Hra Hg.
    eapply transitions_kept_has_empty; [|exact Hx].
    apply attach_leaf_keeps; done.
  - intros x n kp x' ep' r' Wx Hx Hx'.
    eapply test_and_split_has_empty; eauto.
Qed.

Lemma update_reads fuel st s ki st' sk :
  wf st → labelled st → update fuel st s ki = Ok (st', sk) →
  has_empty_transition st' ∨ reads_kept st st'.
Proof.
  intros W Lb H. apply update_unfold in H; [|done].
  destruct H as (w & c & st1 & ep & r_ & Hw & Hc & Hts & Hinv & Hrest).
  assert (Lb1 : labelled st1).
  { eapply test_and_split_labelled; [apply W|exact Lb|exact Hts]. }
  assert (Hh1 : haystack st1 = haystack st).
  { eapply test_and_split_registry; [apply W|exact Hts]. }
  assert (R1 : has_empty_transition st1 ∨ reads_kept st st1).
  { eapply test_and_split_reads; [apply W|exact Lb|exact Hts]. }
  enough (labelled st' ∧ haystack st' = haystack st
          ∧ (has_empty_transition st' ∨ reads_kept st st')) by tauto.
  revert Hrest.
  apply (update_loop_preserves
           (λ x, labelled x ∧ haystack x = haystack st
                 ∧ (has_empty_transition x ∨ reads_kept st x))
           w c (r ki) (ref_str ki)); try done.
  - intros x a nd m Wx (Lx & Hx & Rx) Ha _ _. split_and!; [|done|].
    + apply labelled_set_link; done.
    + destruct Rx as [He|Rk]; [left|right].
      * eapply transitions_kept_has_empty; [|exact He].
        apply set_link_keeps. done.
      * eapply reads_kept_trans; [exact Rk|].
        apply transitions_kept_reads; [done|]. apply set_link_keeps. done.
  - intros x ra nd Wx (Lx & Hx & Rx) Ha Hra Hg. split_and!; [|done|].
    + eapply labelled_attach_leaf; eauto.
      * apply (wf_dom _ Wx). eauto.
      * simpl. rewrite Hx. exact Hw.
    + destruct Rx as [He|Rk]; [left|right].
      * eapply transitions_kept_has_empty; [|exact He].
        apply attach_leaf_keeps; done.
      * eapply reads_kept_trans; [exact Rk|].
        apply transitions_kept_reads; [done|]. apply attach_leaf_keeps; done.
  - intros x n kp x' ep' r' Wx (Lx & Hx & Rx) Hx'. split_and!.
    + eapply test_and_split_labelled; eauto.
    + apply test_and_split_registry in Hx' as [Hh _]; [|done]. congruence.
    + destruct Rx as [He|Rk].
      * left. eapply test_and_split_has_empty; eauto.
      * destruct (test_and_split_reads _ _ _ _ _ _ _ _ Wx Lx Hx')
          as [He'|Rk']; [left; done|right].
        eapply reads_kept_trans; eauto.
Qed.

Lemma deploy_loop_has_empty fuel :
  ∀ st s sindex i ap st',
  wf st → deploy_loop fuel st s sindex i ap = Ok st' →
  has_empty_transition st → has_empty_transition st'.
Proof.
  induction fuel as [|fuel IH]; intros st s sindex i ap st' W H He;
    simpl in H; destruct (Z.ltb_spec i (Z.of_nat (length s)));
    try discriminate; try (injection H as <-; done).
  inv_bind H. destruct x as [st1 ap1]. pose proof E as Hu.
  apply update_shape in E as (W1 & _); [|done].
  pose proof (update_has_empty _ _ _ _ _ _ W Hu He) as He1.
  inv_bind H. eapply IH; eauto.
Qed.

Lemma deploy_loop_reads fuel :
  ∀ st s sindex i ap st',
  wf st → labelled st → deploy_loop fuel st s sindex i ap = Ok st' →
  has_empty_transition st' ∨ reads_kept st st'.
Proof.
  induction fuel as [|fuel IH]; intros st s sindex i ap st' W Lb H;
    simpl in H; destruct (Z.ltb_spec i (Z.of_nat (length s)));
    try discriminate;
    try (injection H as <-; right; apply reads_kept_refl).
  inv_bind H. destruct x as [st1 ap1]. pose proof E as Hu.
  pose proof E as Hl.
  apply update_shape in E as (W1 & _); [|done].
  apply update_labelled in Hl; [|done|done].
  apply update_reads in Hu; [|done|done].
  inv_bind H. pose proof H as Hd.
  apply IH in H; [|done|done].
  destruct H as [He|Rk]; [left; done|].
  destruct Hu as [He1|Rk1].
  - left. eapply deploy_loop_has_empty; eauto.
  - right. eapply reads_kept_trans; eauto.
Qed.

Lemma registry_reads st hs li :
  labelled st →
  (∀ k w, haystack st !! k = Some w → hs !! k = Some w) →
  reads_kept st (MkTree (store st) (brk st) hs li).
Proof.
  intros Lb Hext n u Hp.
  assert (Hres : ∀ a nd c t, store st !! a = Some nd → g nd !! c = Some t →
            resolve (MkTree (store st) (brk st) hs li) (sub t)
            = resolve st (sub t)).
  { intros a nd c t Ha Hc. destruct (Lb a nd c t Ha Hc) as (w & Hw & _).
    unfold resolve. simpl. rewrite Hw, (Hext _ _ Hw). reflexivity. }
  induction Hp as [n|n nd c t lab u Hn Hc Hl Hpre
                  |n nd c t lab m u Hn Hc Hl Ht _ IH]; simpl in *.
  - apply path_nil.
  - eapply path_inside; [exact Hn|exact Hc| |exact Hpre].
    rewrite (Hres n nd c t) by done. exact Hl.
  - eapply path_step; [exact Hn|exact Hc| |exact Ht|exact IH].
    rewrite (Hres n nd c t) by done. exact Hl.
Qed.

Lemma addString_steps fuel st w st' id :
  wf st → addString fuel st w = Ok (st', id) →
  st' = st
  ∨ ∃ i ap,
      let st1 := MkTree (store st) (brk st)
                   (<[last_index st + 1 := w]> (haystack st))
                   (last_index st + 1) in
      wf st1
      ∧ (∀ k u, haystack st !! k = Some u → haystack st1 !! k = Some u)
      ∧ deploy_loop fuel st1 w (last_index st + 1) i ap = Ok st'.
Proof.
  intros W H. pose proof H as H0.
  apply addString_shape in H0; [|done].
  destruct H0 as [_ [[_ ->]|(-> & _ & _ & _)]]; [left; done|].
  unfold addString in H.
  pose proof (wf_last _ (proj1 W)) as Hlast.
  assert (Hfree : haystack st !! (last_index st + 1) = None).
  { destruct (haystack st !! (last_index st + 1)) eqn:E; [|done].
    apply (wf_hay _ (proj1 W)) in E. lia. }
  inv_bind H. destruct x as [st2 d]. cbn [last_index] in *.
  unfold map_insert_new in E. rewrite Hfree in E.
  set (st1 := MkTree (store st) (brk st)
                (<[last_index st + 1 := w]> (haystack st))
                (last_index st + 1)) in *.
  assert (W1 : wf st1).
  { apply wf_registry; [done|lia|]. intros k u Hk.
    destruct (decide (k = last_index st + 1)) as [->|Hne]; [lia|].
    rewrite lookup_insert_ne in Hk by done.
    apply (wf_hay _ (proj1 W)) in Hk. lia. }
  unfold deploy_suffixes in E. inv_bind E. destruct x as [i ap].
  destruct (INT_MAX =? i).
  - injection E as <- <-. simpl in H. injection H as <- _. left.
    destruct st. simpl. f_equal.
    + rewrite delete_insert_eq, delete_id by done. done.
    + lia.
  - inv_bind E. injection E as <- <-.
    destruct (Z.ltb_spec (last_index st + 1) 0); [lia|].
    injection H as <- _. right. exists i, ap. cbn zeta.
    split; [exact W1|]. split; [|exact E1].
    intros k u Hk. simpl. rewrite lookup_insert_ne; [done|].
    intros <-. congruence.
Qed.

(** * What a later insertion keeps *)

(** X17. An empty transition is never repaired.  If a reachable tree
    stores a transition whose reference has [r < l], then so does the tree
    after any returning [addString]: splitting such a transition leaves
    its empty tail in the new node. *)
Theorem empty_transition_stays fuel st w st' id :
  reachable st → addString fuel st w = Ok (st', id) →
  has_empty_transition st → has_empty_transition st'.
Proof.
  intros R H He. apply reachable_wf in R.
  destruct (addString_steps _ _ _ _ _ R H) as [->|(i & ap & W1 & _ & Hd)];
    [done|].
  eapply deploy_loop_has_empty; [exact W1|exact Hd|].
  destruct He as (a & nd & c & t & Ha & Hc & Hlt). exists a, nd, c, t. done.
Qed.

Lemma empty_transition_stays_witness :
  has_empty_transition (tree_after [str "aaab"; str "ac"; str "a"]).
Proof.
  apply (empty_transition_stays 64 (tree_after [str "aaab"; str "ac"])
           (str "a") (tree_after [str "aaab"; str "ac"; str "a"]) 3).
  - apply tree_after_reachable.
  - vm_compute. reflexivity.
  - exists 8%nat. eexists _, 97, _. split_and!.
    + vm_compute. reflexivity.
    + vm_compute. reflexivity.
    + vm_compute. reflexivity.
Defined.

(** X18. Words are kept.  If the tree after a returning [addString] on a
    reachable tree stores no empty transition, then every word that was
    read along transitions from a node before the call (the word may stop
    inside a transition) is still read from that node after it: a split
    cuts a label in two and a new leaf adds a branch, nothing else
    changes what is read. *)
Theorem addString_keeps_words fuel st w st' id n u :
  reachable st → addString fuel st w = Ok (st', id) →
  no_empty_transition st' →
  path_reads st n u → path_reads st' n u.
Proof.
  intros R H Hne Hp.
  pose proof (reachable_labelled _ R) as Lb. apply reachable_wf in R.
  destruct (addString_steps _ _ _ _ _ R H) as [->|(i & ap & W1 & Hext & Hd)];
    [done|].
  cbn zeta in *.
  set (st1 := MkTree (store st) (brk st)
                (<[last_index st + 1 := w]> (haystack st))
                (last_index st + 1)) in *.
  assert (Lb1 : labelled st1).
  { intros a nd c t Ha Hc. destruct (Lb a nd c t Ha Hc) as (x & Hx & Hat).
    exists x. split; [|done]. apply Hext. done. }
  destruct (deploy_loop_reads _ _ _ _ _ _ _ W1 Lb1 Hd)
    as [(a & nd & c & t & Ha & Hc & Hlt)|Rk].
  - pose proof (Hne a nd c t Ha Hc). lia.
  - apply Rk. apply (registry_reads st _ _ Lb Hext). exact Hp.
Qed.

Lemma addString_keeps_words_witness :
  path_reads (tree_after [str "ab"; str "cb"]) root_addr (str "ab").
Proof.
  apply (addString_keeps_words 64 (tree_after [str "ab"]) (str "cb")
           (tree_after [str "ab"; str "cb"]) 2 root_addr (str "ab")).
  - apply tree_after_reachable.
  - vm_compute. reflexivity.
  - apply no_empty_transition_check. refine (bool_decide_unpack _ _).
    vm_compute. exact I.
  - eapply (path_inside _ root_addr _ 97 _ (str "ab")).
    + vm_compute. reflexivity.
    + vm_compute. reflexivity.
    + vm_compute. reflexivity.
    + exists []. reflexivity.
Defined.

(** * update when the symbol is missing *)

(** X19. [update] at an explicit point that lacks the symbol adds it.  On
    a reachable tree, when the substring of [ki] before its last position
    is empty and the lookup of the symbol [w[ki.r]] at the node [s] gives
    a null target, then after a returning [update] the node [s] stores a
    transition under that symbol, which refers to the string [ki.ref_str]
    and starts at position [ki.r]. *)
Theorem update_adds_symbol fuel st sa nd ki w c tk st' sk :
  reachable st →
  store st !! sa = Some nd →
  haystack st !! ref_str ki = Some w →
  at_ w (r ki) = Ok c → at_ w (l ki) = Ok tk →
  r ki - 1 < l ki →
  tgt (find_alpha_transition nd c) = None →
  update fuel st (Some sa) ki = Ok (st', sk) →
  ∃ nd' t, store st' !! sa = Some nd' ∧ g nd' !! c = Some t
           ∧ ref_str (sub t) = ref_str ki ∧ l (sub t) = r ki.
Proof.
  intros R Ha Hw Hc Htk Hemp Hnone H. apply reachable_wf in R.
  apply update_unfold in H; [|done].
  destruct H as (w0 & c0 & st1 & ep & r_ & Hw0 & Hc0 & Hts & Hinv & Hrest).
  assert (w0 = w) as -> by congruence.
  assert (c0 = c) as -> by congruence.
  rewrite (test_and_split_empty st sa nd
             (MappedSubstring (ref_str ki) (l ki) (r ki - 1)) c w tk
             Ha Htk Hemp) in Hts.
  rewrite bool_decide_false in Hts by (intros Hn; apply Hn; exact Hnone).
  injection Hts as <- <- <-.
  destruct fuel as [|fuel]; [discriminate|].
  apply update_loop_unfold in Hrest; [|done].
  destruct Hrest as (ra & nd0 & st3 & sk1 & st4 & ep' & r' & Hra & Hnd0 & Hg0
                     & _ & W2 & Hst3 & W3 & _ & Hts & Hinv4 & Hrest).
  injection Hra as <-. assert (nd0 = nd) as -> by congruence.
  cbn [ref_str] in *.
  set (st2 := attach_leaf st sa nd c
                (MappedSubstring (ref_str ki) (r ki) INT_MAX)) in *.
  assert (G23 : grown_from st2 st3).
  { destruct Hst3 as [->|(ndo & Ho & _ & ->)];
      [apply grown_from_refl|apply grown_set_link; done]. }
  assert (G34 : grown_from st3 st4).
  { eapply test_and_split_grown; [exact W3|exact Hts]. }
  assert (G4 : grown_from st4 st').
  { eapply update_loop_grown; [exact Hinv4|exact Hrest]. }
  pose proof (grown_from_trans _ _ _ (grown_from_trans _ _ _ G23 G34) G4)
    as [_ G].
  assert (Hlt : (sa < brk st)%nat) by (apply (wf_dom _ (proj1 R)); eauto).
  destruct (G sa (MkNode (cls nd)
                    (<[c := Transition
                              (MappedSubstring (ref_str ki) (r ki) INT_MAX)
                              (Some (brk st))]> (g nd))
                    (suffix_link nd)))
    as (nd' & Hnd' & _ & Hg' & _).
  { unfold st2. rewrite attach_leaf_lookup by done.
    rewrite decide_True by done. reflexivity. }
  destruct (Hg' c _ (lookup_insert_eq _ _ _)) as (t' & Ht' & Hr' & Hl').
  exists nd', t'. done.
Qed.

Lemma update_adds_symbol_witness :
  ∃ st' sk,
    update 8 (tree_after [str "abac"]) root (MappedSubstring 1 4 4)
    = Ok (st', sk)
    ∧ ∃ nd' t, store st' !! 1%nat = Some nd' ∧ g nd' !! 0 = Some t
               ∧ ref_str (sub t) = 1 ∧ l (sub t) = 4.
Proof.
  assert (Hn : ∃ nd, store (tree_after [str "abac"]) !! 1%nat = Some nd
                     ∧ tgt (find_alpha_transition nd 0) = None).
  { eexists. split; vm_compute; reflexivity. }
  destruct Hn as (nd & Hn & Hf).
  assert (Hu : ∃ st' sk,
             update 8 (tree_after [str "abac"]) root (MappedSubstring 1 4 4)
             = Ok (st', sk)).
  { eexists _, _. vm_compute. reflexivity. }
  destruct Hu as (st' & sk & Hu).
  exists st', sk. split; [exact Hu|].
  apply (update_adds_symbol 8 (tree_after [str "abac"]) 1%nat nd
           (MappedSubstring 1 4 4) (str "abac") 0 0 st' sk).
  - apply tree_after_reachable.
  - exact Hn.
  - vm_compute. reflexivity.
  - vm_compute. reflexivity.
  - vm_compute. reflexivity.
  - cbn [l r]. lia.
  - exact Hf.
  - exact Hu.
Defined.
